(** * raycaster-go: the camera of [engine/raycaster/Camera.go]

    A shallow embedding of the per-column wall caster ([castLevel]), the
    sprite caster ([castSprite]), the sprite sorter ([combSort]), the
    movement entry points ([Move], [Strafe], [Rotate]) and the lighting
    clamp ([Clamp]), followed by the properties the specification states
    about them; and of the code around them, the level pass
    ([asyncCastLevel]), the floor caster of [castLevel], and the sorting
    step and the sprite passes of [raycast], with further properties of
    the code at the end.

    Data is modelled as the Go code has it:
    - [float64] is Rocq's primitive binary64 [float];
    - [int] is a 64-bit two's complement integer: a [Z] with the
      wrap-around of every arithmetic operation written out ([wrap]);
    - slices are lists, indexed through [index], which panics when
      the index is out of range;
    - a run-time panic is the result [Panic]; loops that are not bounded
      by their syntax take fuel and answer [OutOfFuel] when it runs out.

    [math.Cos] and [math.Sin] belong to Go's library: [Rotate] takes
    them as parameters.  What the specification says of [Rotate] in
    terms of lengths and of linear independence is a statement of real
    arithmetic; it is made of the expression [Rotate] evaluates,
    [rotation], read over the real numbers. *)

From Stdlib Require Import ZArith Lia Floats Bool Reals Lra.
From stdpp Require Import base list.

#[local] Set Warnings "-inexact-float".
Local Open Scope Z_scope.

(** ** Results of fallible code *)

Inductive res (A : Type) : Type :=
| Ok (a : A)
| Panic
| OutOfFuel.
Arguments Ok {A} a.
Arguments Panic {A}.
Arguments OutOfFuel {A}.

#[global] Instance res_ret : MRet res := fun A a => Ok a.

#[global] Instance res_bind : MBind res := fun A B k r =>
  match r with
  | Ok a => k a
  | Panic => Panic
  | OutOfFuel => OutOfFuel
  end.

(** ** Go's [int] *)

Definition min_int : Z := - 2 ^ 63.
Definition max_int : Z := 2 ^ 63 - 1.

(** Two's complement wrap-around of a mathematical integer into [int]. *)
Definition wrap (z : Z) : Z := (z + 2 ^ 63) mod 2 ^ 64 - 2 ^ 63.

Definition int_add (a b : Z) : Z := wrap (a + b).
Definition int_sub (a b : Z) : Z := wrap (a - b).
Definition int_mul (a b : Z) : Z := wrap (a * b).
Definition int_neg (a : Z) : Z := wrap (- a).

(** Integer division truncates toward zero and panics on a zero divisor;
    [min_int / -1] wraps. *)
Definition int_div (a b : Z) : res Z :=
  if b =? 0 then Panic else Ok (wrap (Z.quot a b)).

(** [l[i]]: a slice read; a negative or too large index panics. *)
Definition index {A} (l : list A) (i : Z) : res A :=
  if i <? 0 then Panic
  else match l !! Z.to_nat i with
       | Some a => Ok a
       | None => Panic
       end.

(** [*p]: following a pointer; a [nil] pointer panics. *)
Definition deref {A} (p : option A) : res A :=
  match p with
  | Some a => Ok a
  | None => Panic
  end.

(** [l[i] = a]: a slice write, with the same bounds check. *)
Definition store {A} (l : list A) (i : Z) (a : A) : res (list A) :=
  if i <? 0 then Panic
  else if i <? Z.of_nat (length l) then Ok (<[Z.to_nat i := a]> l)
  else Panic.

(** ** Conversions between [float64] and [int] *)

(** [float64(n)]: the integer rounded to the nearest binary64. *)
Definition float_of_int (n : Z) : float :=
  SF2Prim (binary_normalize prec emax n 0 false).

Section Conversion.

(** Go leaves the result of [int(f)] to the implementation when [f] is a
    NaN, an infinity, or too large for [int]; [indefinite f] is what the
    platform answers then (it is wrapped into [int] below, so any function
    will do). *)
Variable indefinite : float -> Z.

(** [int(f)]: the fraction is discarded (truncation toward zero). *)
Definition int_of_float (f : float) : Z :=
  match Prim2SF f with
  | S754_zero _ => 0
  | S754_finite s m e =>
      let v := Z.shiftl (Z.pos m) e in
      let z := if s then - v else v in
      if (min_int <=? z) && (z <=? max_int) then z else wrap (indefinite f)
  | S754_infinity _ | S754_nan => wrap (indefinite f)
  end.

End Conversion.

(** The answer of amd64's [CVTTSD2SQ]: the "integer indefinite" value. *)
Definition indefinite_amd64 (_ : float) : Z := min_int.

(** [math.Floor]: the largest integral value not above [f]; zeros,
    infinities, NaN and values without a fractional part are returned as
    they are. *)
Definition floor (f : float) : float :=
  match Prim2SF f with
  | S754_finite s m e =>
      if e <? 0
      then float_of_int (Z.shiftl (if s then Z.neg m else Z.pos m) e)
      else f
  | _ => f
  end.

(** ** The data model *)

(** [Vector2], "converted struct from C#". *)
Record Vector2 := mkVector2 { X : float; Y : float }.

Module image.
Record Point := { X : Z; Y : Z }.
Record Rectangle := { Min : Point; Max : Point }.
End image.

Module color.
Record RGBA := { R : Z; G : Z; B : Z; A : Z }.
End color.

Module ebiten.
(** A texture, of which the camera only asks the size. *)
Record Image := { Size : Z * Z }.
End ebiten.

(** A sprite of the map: its world position ([sprite.X], [sprite.Y])
    and its texture. *)
Record Sprite := {
  sprite_pos : Vector2;
  GetTexture : ebiten.Image
}.

(** One renderable layer: per column, the screen rectangle, the texture
    slice, the tint and the texture.  A [nil] entry of the Go slices is
    [None]. *)
Record Level := {
  Sv : list image.Rectangle;
  Cts : list (option image.Rectangle);
  St : list (option color.RGBA);
  CurrTex : list (option ebiten.Image)
}.

Record Camera := {
  pos : Vector2;
  dir : Vector2;
  plane : Vector2;
  w : Z;
  h : Z;
  targetTPS : Z;
  worldMap : list (list Z);
  upMap : list (list Z);
  midMap : list (list Z);
  texWidth : Z;
  camX : list float;
  camY : list float;
  zBuffer : list float;
  sprite : list Sprite;
  spriteOrder : list Z;
  spriteDistance : list float;
  spriteLvls : list (option Level)
}.

Definition movementTPS : float := 60.0%float.

(** [for x := 0; x < n; x++]: the values the loop variable takes. *)
Definition upto (n : Z) : list Z := map Z.of_nat (seq 0 (Z.to_nat n)).

(** [preCalcCamX]: [camX[x] = 2.0*float64(x)/float64(c.w) - 1.0]. *)
Definition preCalcCamX (width : Z) : list float :=
  map (fun x => (2.0 * float_of_int x / float_of_int width - 1.0)%float)
      (upto width).

(** [preCalcCamY]: [camY[y] = float64(c.h) / (2.0*float64(y) - float64(c.h))]. *)
Definition preCalcCamY (height : Z) : list float :=
  map (fun y => (float_of_int height
                 / (2.0 * float_of_int y - float_of_int height))%float)
      (upto height).

(** ** Lighting *)

(** [Clamp], "converted C# method MathHelper.Clamp". *)
Definition Clamp (value min max : Z) : Z :=
  if value <? min then min
  else if value >? max then max
  else value.

(** Conversion to [byte] keeps the low eight bits. *)
Definition byte (z : Z) : Z := z mod 256.

Definition lightFalloff : float := (-100)%float.
Definition sunLight : float := 300%float.

Section Casters.

Variable indefinite : float -> Z.
Abbreviation int := (int_of_float indefinite).

(** The lighting of one colour channel, as the wall, floor and sprite
    casters all write it:
    [byte(Clamp(int(float64(channel)+shadowDepth+sunLight), 0, 255))] with
    [shadowDepth = math.Sqrt(distance) * lightFalloff]. *)
Definition shade (channel : Z) (distance : float) : Z :=
  let shadowDepth := (PrimFloat.sqrt distance * lightFalloff)%float in
  byte (Clamp (int (float_of_int channel + shadowDepth + sunLight)%float) 0 255).

Definition shadeRGBA (t : color.RGBA) (distance : float) : color.RGBA :=
  {| color.R := shade (color.R t) distance;
     color.G := shade (color.G t) distance;
     color.B := shade (color.B t) distance;
     color.A := color.A t |}.

(** ** The wall caster *)

(** The variables the DDA loop of [castLevel] updates. *)
Record DDA := {
  mapX : Z;
  mapY : Z;
  sideDistX : float;
  sideDistY : float;
  hit : Z;
  side : Z
}.

(** What [castLevel] computes for one column; the Go code stores these
    values at index [x] of the level's slices and of the depth buffer. *)
Record Column := {
  col_hit : Z;
  col_side : Z;
  col_mapX : Z;
  col_mapY : Z;
  col_perpWallDist : float;
  col_lineHeight : Z;
  col_drawStart : Z;
  col_drawEnd : Z;
  col_texNum : Z;
  col_texX : Z;
  col_tint : color.RGBA
}.

Section Ray.

Variable grid : list (list Z).
Variables rayDirX rayDirY rayPosX rayPosY : float.

Definition deltaDistX : float := PrimFloat.abs (1 / rayDirX).
Definition deltaDistY : float := PrimFloat.abs (1 / rayDirY).

Definition stepX : Z := if (rayDirX <? 0)%float then -1 else 1.
Definition stepY : Z := if (rayDirY <? 0)%float then -1 else 1.

(** The state before the first iteration: the camera's cell and the
    distance to the first boundary on each axis. *)
Definition ddaInit : DDA :=
  let mx := int rayPosX in
  let my := int rayPosY in
  {| mapX := mx;
     mapY := my;
     sideDistX :=
       if (rayDirX <? 0)%float
       then ((rayPosX - float_of_int mx) * deltaDistX)%float
       else ((float_of_int mx + 1.0 - rayPosX) * deltaDistX)%float;
     sideDistY :=
       if (rayDirY <? 0)%float
       then ((rayPosY - float_of_int my) * deltaDistY)%float
       else ((float_of_int my + 1.0 - rayPosY) * deltaDistY)%float;
     hit := 0;
     side := -1 |}.

(** "jump to next map square, OR in x-direction, OR in y-direction" *)
Definition ddaJump (s : DDA) : DDA :=
  if (sideDistX s <? sideDistY s)%float
  then {| mapX := int_add (mapX s) stepX;
          mapY := mapY s;
          sideDistX := (sideDistX s + deltaDistX)%float;
          sideDistY := sideDistY s;
          hit := hit s;
          side := 0 |}
  else {| mapX := mapX s;
          mapY := int_add (mapY s) stepY;
          sideDistX := sideDistX s;
          sideDistY := (sideDistY s + deltaDistY)%float;
          hit := hit s;
          side := 1 |}.

(** "prevent out of range errors, needs to be improved" *)
Definition clampCell (m : Z) : Z :=
  if m <? 0 then 0 else if m >? 23 then 23 else m.

(** "Check if ray has hit a wall" *)
Definition ddaCheck (s : DDA) : res DDA :=
  if (mapX s <? 24) && (mapY s <? 24) && (mapX s >? 0) && (mapY s >? 0)
  then
    row ← index grid (mapX s);
    cell ← index row (mapY s);
    Ok (if cell >? 0
        then {| mapX := mapX s; mapY := mapY s;
                sideDistX := sideDistX s; sideDistY := sideDistY s;
                hit := 1; side := side s |}
        else s)
  else
    Ok {| mapX := clampCell (mapX s); mapY := clampCell (mapY s);
          sideDistX := sideDistX s; sideDistY := sideDistY s;
          hit := 2; side := side s |}.

(** One iteration of the body of [for hit == 0]. *)
Definition ddaStep (s : DDA) : res DDA := ddaCheck (ddaJump s).

(** [for hit == 0 { ... }] *)
Fixpoint ddaLoop (fuel : nat) (s : DDA) : res DDA :=
  if hit s =? 0
  then match fuel with
       | O => OutOfFuel
       | S fuel' => s' ← ddaStep s; ddaLoop fuel' s'
       end
  else Ok s.

(** "Calculate distance of perpendicular ray (oblique distance will give
    fisheye effect!)" *)
Definition perpWallDist (s : DDA) : float :=
  if side s =? 0
  then ((float_of_int (mapX s) - rayPosX
         + (1.0 - float_of_int stepX) / 2.0) / rayDirX)%float
  else ((float_of_int (mapY s) - rayPosY
         + (1.0 - float_of_int stepY) / 2.0) / rayDirY)%float.

End Ray.

(** "some supid hacks to make the houses render correctly": the table
    the texture id goes through when the X side was hit. *)
Definition remapTex (texNum : Z) : Z :=
  let texNum :=
    if texNum =? 3 then 4
    else if texNum =? 4 then 3
    else texNum in
  if texNum =? 1 then 4
  else if texNum =? 2 then 3
  else texNum.

(** The texture of the cell the ray stopped at. *)
Definition wallTexNum (grid : list (list Z)) (s : DDA) : res Z :=
  row ← index grid (mapX s);
  cell ← index row (mapY s);
  let texNum := int_sub cell 1 in
  let texNum := if texNum <? 0 then 0 else texNum in
  Ok (if side s =? 0 then remapTex texNum else texNum).

(** "add a bit of tint to differentiate between walls of a corner" *)
Definition wallTint (sd : Z) : color.RGBA :=
  let white := {| color.R := 255; color.G := 255; color.B := 255; color.A := 255 |} in
  if sd =? 1
  then {| color.R := byte (color.R white - byte 12);
          color.G := byte (color.G white - byte 12);
          color.B := byte (color.B white - byte 12);
          color.A := color.A white |}
  else white.

(** [castLevel] for column [x] of level [levelNum] over [grid]: the
    values it computes for the column.  The stores of these values into
    the slices of the level and into [zBuffer], the reads of the texture
    tables ([c.tex.Textures[texNum]], [c.s[texX]]), which live outside
    [Camera.go], and the floor caster spawned for level 0 are not part of
    this model. *)
Definition castLevel (c : Camera) (x : Z) (grid : list (list Z))
    (levelNum : Z) (fuel : nat) : res Column :=
  cameraX ← index (camX c) x;
  let rayDirX := (X (dir c) + X (plane c) * cameraX)%float in
  let rayDirY := (Y (dir c) + Y (plane c) * cameraX)%float in
  let rayPosX := X (pos c) in
  let rayPosY := Y (pos c) in
  s ← ddaLoop grid rayDirX rayDirY fuel (ddaInit rayDirX rayDirY rayPosX rayPosY);
  let perp := perpWallDist rayDirX rayDirY rayPosX rayPosY s in
  let lineHeight := int (float_of_int (h c) / perp)%float in
  let drawStart :=
    int_sub (int_add (Z.quot (int_neg lineHeight) 2) (Z.quot (h c) 2))
            (int_mul lineHeight levelNum) in
  let drawEnd := int_add drawStart lineHeight in
  texNum ← wallTexNum grid s;
  let wallX :=
    if side s =? 0
    then (rayPosY + perp * rayDirY)%float
    else (rayPosX + perp * rayDirX)%float in
  let wallX := (wallX - floor wallX)%float in
  let texX := int (wallX * float_of_int (texWidth c))%float in
  let texX :=
    if (side s =? 0) && (0 <? rayDirX)%float
    then int_sub (int_sub (texWidth c) texX) 1 else texX in
  let texX :=
    if (side s =? 1) && (rayDirY <? 0)%float
    then int_sub (int_sub (texWidth c) texX) 1 else texX in
  Ok {| col_hit := hit s;
        col_side := side s;
        col_mapX := mapX s;
        col_mapY := mapY s;
        col_perpWallDist := perp;
        col_lineHeight := lineHeight;
        col_drawStart := drawStart;
        col_drawEnd := drawEnd;
        col_texNum := texNum;
        col_texX := texX;
        col_tint := shadeRGBA (wallTint (side s)) perp |}.

(** ** The sprite caster *)

(** [SliceView] and [MakeSlices] build the per-column screen rectangles
    and the per-texture-column slices; they are defined with [Level],
    outside [Camera.go], and are parameters here. *)
Variable SliceView : Z -> Z -> list image.Rectangle.
Variable MakeSlices : Z -> Z -> list image.Rectangle.

(** The sprite in camera space and its bounding box on the screen: the
    values [castSprite] computes before its loop. *)
Record Billboard := {
  transformX : float;
  transformY : float;
  spriteScreenX : Z;
  vMoveScreen : Z;
  spriteHeight : Z;
  drawStartY : Z;
  drawEndY : Z;
  spriteWidth : Z;
  drawStartX : Z;
  drawEndX : Z
}.

Definition uDiv : Z := 1.
Definition vDiv : Z := 1.
Definition vMove : float := 0.0%float.

Definition project (c : Camera) (sp : Sprite) : Billboard :=
  let rayPosX := X (pos c) in
  let rayPosY := Y (pos c) in
  let spriteX := (X (sprite_pos sp) - rayPosX)%float in
  let spriteY := (Y (sprite_pos sp) - rayPosY)%float in
  let invDet :=
    (1.0 / (X (plane c) * Y (dir c) - X (dir c) * Y (plane c)))%float in
  let tX := (invDet * (Y (dir c) * spriteX - X (dir c) * spriteY))%float in
  let tY :=
    (invDet * (- Y (plane c) * spriteX + X (plane c) * spriteY))%float in
  let ssx := int (float_of_int (w c) / 2 * (1 + tX / tY))%float in
  let vms := int (vMove / tY)%float in
  let sh := int (PrimFloat.abs (float_of_int (h c) / tY) / float_of_int vDiv)%float in
  let dsy := int_add (int_add (Z.quot (int_neg sh) 2) (Z.quot (h c) 2)) vms in
  let dsy := if dsy <? 0 then 0 else dsy in
  let dey := int_add (int_add (Z.quot sh 2) (Z.quot (h c) 2)) vms in
  let dey := if dey >=? h c then int_sub (h c) 1 else dey in
  let sw := int (PrimFloat.abs (float_of_int (h c) / tY) / float_of_int uDiv)%float in
  let dsx := int_add (Z.quot (int_neg sw) 2) ssx in
  let dex := int_add (Z.quot sw 2) ssx in
  let dsx := if dsx <? 0 then 0 else dsx in
  let dex := if dex >=? w c then int_sub (w c) 1 else dex in
  {| transformX := tX; transformY := tY;
     spriteScreenX := ssx; vMoveScreen := vms;
     spriteHeight := sh; drawStartY := dsy; drawEndY := dey;
     spriteWidth := sw; drawStartX := dsx; drawEndX := dex |}.

(** [make([]T, n)] with every element [nil]; a negative length panics. *)
Definition make {A} (n : Z) : res (list (option A)) :=
  if n <? 0 then Panic else Ok (replicate (Z.to_nat n) None).

(** [makeSpriteLevel]: a new level, stored in the sprite's slot. *)
Definition makeSpriteLevel (c : Camera) (lvls : list (option Level))
    (spriteOrdIndex : Z) : res (Level * list (option Level)) :=
  cts ← make (w c);
  st ← make (w c);
  currTex ← make (w c);
  let spriteLvl :=
    {| Sv := SliceView (w c) (h c); Cts := cts; St := st; CurrTex := currTex |} in
  lvls ← store lvls spriteOrdIndex (Some spriteLvl);
  Ok (spriteLvl, lvls).

(** [clearSpriteLevel]: the slot is set to [nil]. *)
Definition clearSpriteLevel (lvls : list (option Level))
    (spriteOrdIndex : Z) : res (list (option Level)) :=
  store lvls spriteOrdIndex None.

(** What the stripe loop of [castSprite] updates: the flag, the level
    slots of the camera and the slices of the sprite's texture. *)
Record Stripes := {
  renderSprite : bool;
  lvls : list (option Level);
  spriteSlices : list image.Rectangle
}.

Definition setY (r : image.Rectangle) (minY maxY : Z) : image.Rectangle :=
  {| image.Min := {| image.X := image.X (image.Min r); image.Y := minY |};
     image.Max := {| image.X := image.X (image.Max r); image.Y := maxY |} |}.

Definition white : color.RGBA :=
  {| color.R := 255; color.G := 255; color.B := 255; color.A := 255 |}.

(** The four conditions of the loop's [if]: in front of the camera
    plane, on the screen (left, right), nearer than the wall. *)
Definition visible (c : Camera) (b : Billboard) (stripe : Z) : res bool :=
  if (0 <? transformY b)%float && (stripe >? 0) && (stripe <? w c)
  then z ← index (zBuffer c) stripe; Ok (transformY b <? z)%float
  else Ok false.

(** The slice written for an accepted stripe, once the texture column
    [texX] and the rows [texStartY], [texEndY] passed their checks.  The
    rectangle of [spriteSlices[texX]] is shared by every stripe that shows
    this texture column and is updated in place; all of them store the
    same rows.  The capacity of the slices is their length. *)
Definition writeStripe (c : Camera) (b : Billboard) (tex : ebiten.Image)
    (spriteOrdIndex stripe texX texStartY texEndY : Z)
    (spriteLvl : option Level) (s : Stripes) : res Stripes :=
  spriteLvl ← deref spriteLvl;
  r ← index (spriteSlices s) texX;
  let r := setY r (int_add texStartY 1) texEndY in
  slices ← store (spriteSlices s) texX r;
  cts ← store (Cts spriteLvl) stripe (Some r);
  currTex ← store (CurrTex spriteLvl) stripe (Some tex);
  v ← index (Sv spriteLvl) stripe;
  sv ← store (Sv spriteLvl) stripe
        (setY v (int_add (drawStartY b) 1) (drawEndY b));
  st ← store (St spriteLvl) stripe (Some (shadeRGBA white (transformY b)));
  lvls ← store (lvls s) spriteOrdIndex
          (Some {| Sv := sv; Cts := cts; St := st; CurrTex := currTex |});
  Ok {| renderSprite := renderSprite s; lvls := lvls; spriteSlices := slices |}.

(** The level an accepted stripe writes to: made on the first accepted
    stripe, together with the slices of the texture, and read back from
    the sprite's slot afterwards. *)
Definition spriteLevelOf (c : Camera) (tex : ebiten.Image)
    (spriteOrdIndex : Z) (s : Stripes) : res (option Level * Stripes) :=
  if renderSprite s
  then l ← index (lvls s) spriteOrdIndex; Ok (l, s)
  else '(l, ls) ← makeSpriteLevel c (lvls s) spriteOrdIndex;
       let '(spriteW, spriteH) := ebiten.Size tex in
       Ok (Some l, {| renderSprite := true; lvls := ls;
                      spriteSlices := MakeSlices spriteW spriteH |}).

(** [texX := int(256*(stripe-(-spriteWidth/2+spriteScreenX))*c.texWidth/spriteWidth) / 256] *)
Definition texColumn (c : Camera) (b : Billboard) (stripe : Z) : res Z :=
  q ← int_div
        (int_mul
           (int_mul 256
              (int_sub stripe
                 (int_add (Z.quot (int_neg (spriteWidth b)) 2)
                          (spriteScreenX b))))
           (texWidth c))
        (spriteWidth b);
  Ok (Z.quot q 256).

(** The texture row of the screen row [y]:
    [d := (y-vMoveScreen)*256 - c.h*128 + spriteHeight*128] and then
    [((d * c.texWidth) / spriteHeight) / 256]. *)
Definition texRow (c : Camera) (b : Billboard) (y : Z) : res Z :=
  let d :=
    int_add
      (int_sub (int_mul (int_sub y (vMoveScreen b)) 256) (int_mul (h c) 128))
      (int_mul (spriteHeight b) 128) in
  q ← int_div (int_mul d (texWidth c)) (spriteHeight b);
  Ok (Z.quot q 256).

(** The body of [for stripe := drawStartX; stripe < drawEndX; stripe++]. *)
Definition castStripe (c : Camera) (b : Billboard) (tex : ebiten.Image)
    (spriteOrdIndex : Z) (s : Stripes) (stripe : Z) : res Stripes :=
  ok ← visible c b stripe;
  if ok : bool then
    '(spriteLvl, s) ← spriteLevelOf c tex spriteOrdIndex s;
    texX ← texColumn c b stripe;
    if (texX <? 0) || (texX >=? Z.of_nat (length (spriteSlices s)))
    then Ok s
    else
      texStartY ← texRow c b (drawStartY b);
      texEndY ← texRow c b (int_sub (drawEndY b) 1);
      if (texStartY <? 0) || (texStartY >=? texEndY) || (texEndY >=? texWidth c)
      then Ok s
      else writeStripe c b tex spriteOrdIndex stripe texX texStartY texEndY
             spriteLvl s
  else Ok s.

(** The values of a loop variable running from [lo] up to, not
    including, [hi]. *)
Definition range (lo hi : Z) : list Z :=
  map (fun k => lo + Z.of_nat k) (seq 0 (Z.to_nat (hi - lo))).

(** Running a loop body over the values of its variable. *)
Fixpoint forEach {S} (body : S -> Z -> res S) (s : S) (l : list Z) : res S :=
  match l with
  | [] => Ok s
  | i :: l' => s' ← body s i; forEach body s' l'
  end.

(** [castSprite]: the camera after the sprite at position
    [spriteOrdIndex] of the sorted order was cast. *)
Definition castSprite (c : Camera) (spriteOrdIndex : Z) : res Camera :=
  o ← index (spriteOrder c) spriteOrdIndex;
  sp ← index (sprite c) o;
  let spriteTex := GetTexture sp in
  let b := project c sp in
  s ← forEach (castStripe c b spriteTex spriteOrdIndex)
        {| renderSprite := false; lvls := spriteLvls c; spriteSlices := [] |}
        (range (drawStartX b) (drawEndX b));
  lvls ←
    (if renderSprite s then Ok (lvls s)
     else clearSpriteLevel (lvls s) spriteOrdIndex);
  Ok {| pos := pos c; dir := dir c; plane := plane c;
        w := w c; h := h c; targetTPS := targetTPS c;
        worldMap := worldMap c; upMap := upMap c; midMap := midMap c;
        texWidth := texWidth c; camX := camX c; camY := camY c;
        zBuffer := zBuffer c; sprite := sprite c;
        spriteOrder := spriteOrder c; spriteDistance := spriteDistance c;
        spriteLvls := lvls |}.

End Casters.

(** ** The sprite sorter *)

(** One comparison of the inner loop of [combSort]: the pair at [i] and
    [j = i + gap] is exchanged in both slices when [dist[i] < dist[j]]. *)
Definition combCompare (gap : Z) (s : list Z * list float * bool) (i : Z)
    : res (list Z * list float * bool) :=
  let '(order, dist, swapped) := s in
  let j := int_add i gap in
  di ← index dist i;
  dj ← index dist j;
  if (di <? dj)%float then
    dist ← store dist i dj;
    dist ← store dist j di;
    oi ← index order i;
    oj ← index order j;
    order ← store order i oj;
    order ← store order j oi;
    Ok (order, dist, true)
  else Ok s.

(** The gap of the next pass: "shrink factor 1.3", 9 and 10 become 11,
    never below 1. *)
Definition nextGap (gap : Z) : Z :=
  let gap := Z.quot (int_mul gap 10) 13 in
  let gap := if (gap =? 9) || (gap =? 10) then 11 else gap in
  if gap <? 1 then 1 else gap.

(** [for gap > 1 || swapped { ... }] *)
Fixpoint combLoop (fuel : nat) (amount gap : Z) (swapped : bool)
    (order : list Z) (dist : list float) : res (list Z * list float) :=
  if (gap >? 1) || swapped
  then match fuel with
       | O => OutOfFuel
       | S fuel' =>
           let gap := nextGap gap in
           '(order, dist, swapped) ←
             forEach (combCompare gap) (order, dist, false)
                     (range 0 (int_sub amount gap));
           combLoop fuel' amount gap swapped order dist
       end
  else Ok (order, dist).

Definition combSort (order : list Z) (dist : list float) (amount : Z)
    (fuel : nat) : res (list Z * list float) :=
  combLoop fuel amount amount false order dist.

(** ** Movement *)

Section Movement.

Variable indefinite : float -> Z.
Abbreviation int := (int_of_float indefinite).

(** "normalize speed based on a constant input rate" *)
Definition getNormalSpeed (c : Camera) (speed : float) : float :=
  (speed * movementTPS / float_of_int (targetTPS c))%float.

Definition setPos (c : Camera) (p : Vector2) : Camera :=
  {| pos := p; dir := dir c; plane := plane c;
     w := w c; h := h c; targetTPS := targetTPS c;
     worldMap := worldMap c; upMap := upMap c; midMap := midMap c;
     texWidth := texWidth c; camX := camX c; camY := camY c;
     zBuffer := zBuffer c; sprite := sprite c;
     spriteOrder := spriteOrder c; spriteDistance := spriteDistance c;
     spriteLvls := spriteLvls c |}.

(** [Move]: "Move camera by move speed". *)
Definition Move (c : Camera) (mSpeed : float) : res Camera :=
  let mSpeed := getNormalSpeed c mSpeed in
  row ← index (worldMap c) (int (X (pos c) + X (dir c) * mSpeed * 12)%float);
  cell ← index row (int (Y (pos c)));
  let c :=
    if cell <=? 0
    then setPos c (mkVector2 (X (pos c) + X (dir c) * mSpeed)%float (Y (pos c)))
    else c in
  row ← index (worldMap c) (int (X (pos c)));
  cell ← index row (int (Y (pos c) + Y (dir c) * mSpeed * 12)%float);
  Ok (if cell <=? 0
      then setPos c (mkVector2 (X (pos c)) (Y (pos c) + Y (dir c) * mSpeed)%float)
      else c).

(** [Strafe]: "Strafe camera by strafe speed". *)
Definition Strafe (c : Camera) (sSpeed : float) : res Camera :=
  let sSpeed := getNormalSpeed c sSpeed in
  row ← index (worldMap c) (int (X (pos c) + X (plane c) * sSpeed * 12)%float);
  cell ← index row (int (Y (pos c)));
  let c :=
    if cell <=? 0
    then setPos c (mkVector2 (X (pos c) + X (plane c) * sSpeed)%float (Y (pos c)))
    else c in
  row ← index (worldMap c) (int (X (pos c)));
  cell ← index row (int (Y (pos c) + Y (plane c) * sSpeed * 12)%float);
  Ok (if cell <=? 0
      then setPos c (mkVector2 (X (pos c)) (Y (pos c) + Y (plane c) * sSpeed)%float)
      else c).

End Movement.

(** ** Turning *)

Section Turning.

(** [math.Cos] and [math.Sin] belong to Go's library; they are
    parameters of [Rotate]. *)
Variables Cos Sin : float -> float.

Definition setDirPlane (c : Camera) (d p : Vector2) : Camera :=
  {| pos := pos c; dir := d; plane := p;
     w := w c; h := h c; targetTPS := targetTPS c;
     worldMap := worldMap c; upMap := upMap c; midMap := midMap c;
     texWidth := texWidth c; camX := camX c; camY := camY c;
     zBuffer := zBuffer c; sprite := sprite c;
     spriteOrder := spriteOrder c; spriteDistance := spriteDistance c;
     spriteLvls := spriteLvls c |}.

(** [Rotate]: "both camera direction and camera plane must be rotated".
    The direction and the plane are two vectors of their own, as
    [NewCamera] makes them. *)
Definition Rotate (c : Camera) (rSpeed : float) : Camera :=
  let rSpeed := getNormalSpeed c rSpeed in
  let oldDirX := X (dir c) in
  let dirX := (X (dir c) * Cos rSpeed - Y (dir c) * Sin rSpeed)%float in
  let dirY := (oldDirX * Sin rSpeed + Y (dir c) * Cos rSpeed)%float in
  let oldPlaneX := X (plane c) in
  let planeX := (X (plane c) * Cos rSpeed - Y (plane c) * Sin rSpeed)%float in
  let planeY := (oldPlaneX * Sin rSpeed + Y (plane c) * Cos rSpeed)%float in
  setDirPlane c (mkVector2 dirX dirY) (mkVector2 planeX planeY).

End Turning.

(** The determinant of the camera matrix, as [castSprite] computes it
    to divide by it: [planeX*dirY - dirX*planeY]. *)
Definition det (c : Camera) : float :=
  (X (plane c) * Y (dir c) - X (dir c) * Y (plane c))%float.

(** The operations of the expressions of [Rotate]: rounded to binary64
    in the program, exact when the expressions are read over the real
    numbers. *)
Record Arith (T : Type) := {
  plus : T -> T -> T;
  minus : T -> T -> T;
  times : T -> T -> T
}.
Arguments plus {T}.
Arguments minus {T}.
Arguments times {T}.

Definition binary64 : Arith float :=
  {| plus := PrimFloat.add; minus := PrimFloat.sub; times := PrimFloat.mul |}.

Definition reals : Arith R :=
  {| plus := Rplus; minus := Rminus; times := Rmult |}.

(** The map [Rotate] applies to a vector [(x, y)], for a cosine [co] and
    a sine [si]: [(x*co - y*si, x*si + y*co)]. *)
Definition rotation {T} (A : Arith T) (co si : T) (v : T * T) : T * T :=
  (minus A (times A (fst v) co) (times A (snd v) si),
   plus A (times A (fst v) si) (times A (snd v) co)).

Definition coords (v : Vector2) : float * float := (X v, Y v).

(** The length of a vector, and the determinant of two vectors, over
    the real numbers. *)
Definition norm (v : R * R) : R := sqrt (fst v * fst v + snd v * snd v).

Definition cross (p d : R * R) : R := (fst p * snd d - fst d * snd p)%R.

(** ** The level pass *)

Section LevelPass.

Variable indefinite : float -> Z.

(** The grid of a level, as [asyncCastLevel] selects it: "if above lvl2
    just keep extending up". *)
Definition levelGrid (c : Camera) (levelNum : Z) : list (list Z) :=
  if levelNum =? 0 then worldMap c
  else if levelNum =? 1 then midMap c
  else upMap c.

(** The stores of [castLevel] for the column [x], into the four slices
    of the level: the texture of the wall, the slice of the texture, the
    rows of the screen and the tint.  [textures] is [c.tex.Textures] and
    [slices] is [c.s], the tables of the camera [castLevel] reads them
    from; every index is checked as Go checks it.  A level is held by
    value: its four slices and the rectangles of [Sv] are its own and no
    other level shares them. *)
Definition storeColumn (textures : list (option ebiten.Image))
    (slices : list (option image.Rectangle)) (lvl : Level) (x : Z)
    (col : Column) : res Level :=
  tex ← index textures (col_texNum col);
  currTex ← store (CurrTex lvl) x tex;
  slice ← index slices (col_texX col);
  cts ← store (Cts lvl) x slice;
  v ← index (Sv lvl) x;
  sv ← store (Sv lvl) x (setY v (col_drawStart col) (col_drawEnd col));
  st ← store (St lvl) x (Some (col_tint col));
  Ok {| Sv := sv; Cts := cts; St := st; CurrTex := currTex |}.

(** One iteration of the loop of [asyncCastLevel]: the call
    [c.castLevel(x, rMap, c.lvls[levelNum], levelNum, wg)].  The state is
    the levels [c.lvls] and the depth buffer; the call reads the level of
    [levelNum], which panics when there is none, computes the column,
    stores it in the level and, for level 0, stores the wall distance in
    the depth buffer.  The floor caster that follows for level 0 writes
    to the floor buffer only; it is [castFloor] below. *)
Definition castColumn (c : Camera) (textures : list (option ebiten.Image))
    (slices : list (option image.Rectangle)) (levelNum : Z) (fuel : nat)
    (s : list (option Level) * list float) (x : Z)
    : res (list (option Level) * list float) :=
  let '(lvls, zb) := s in
  slot ← index lvls levelNum;
  lvl ← deref slot;
  col ← castLevel indefinite c x (levelGrid c levelNum) levelNum fuel;
  lvl ← storeColumn textures slices lvl x col;
  lvls ← store lvls levelNum (Some lvl);
  zb ← (if levelNum =? 0 then store zb x (col_perpWallDist col) else Ok zb);
  Ok (lvls, zb).

(** [asyncCastLevel]: every column of the viewport, from left to right,
    over the levels [lvls] of the camera. *)
Definition asyncCastLevel (c : Camera) (textures : list (option ebiten.Image))
    (slices : list (option image.Rectangle)) (lvls : list (option Level))
    (levelNum : Z) (fuel : nat) : res (list (option Level) * list float) :=
  forEach (castColumn c textures slices levelNum fuel) (lvls, zBuffer c)
    (range 0 (w c)).

End LevelPass.

(** ** The floor caster *)

(** Go's [image.RGBA]: the bytes of the pixels, four per pixel, the
    distance in bytes between two rows, and the bounds. *)
Record RGBAImage := { Pix : list Z; Stride : Z; Rect : image.Rectangle }.

(** [PixOffset] of [image.RGBA]:
    [(y-p.Rect.Min.Y)*p.Stride + (x-p.Rect.Min.X)*4]. *)
Definition PixOffset (p : RGBAImage) (x y : Z) : Z :=
  int_add (int_mul (int_sub y (image.Y (image.Min (Rect p)))) (Stride p))
          (int_mul (int_sub x (image.X (image.Min (Rect p)))) 4).

(** The horizontal level of the camera, as far as the floor caster uses
    it: the floor textures and the buffer the floor is drawn into. *)
Record HorLevel := { TexRGBA : list RGBAImage; HorBuffer : RGBAImage }.

(** [a % b]: the remainder has the sign of the dividend; a zero divisor
    panics. *)
Definition int_rem (a b : Z) : res Z :=
  if b =? 0 then Panic else Ok (Z.rem a b).

Section FloorCaster.

Variable indefinite : float -> Z.
Abbreviation int := (int_of_float indefinite).

(** [uint8(f)] of a float; the floor caster applies it to products of
    two bytes divided by 256, which lie between 0 and 255. *)
Definition uint8 (f : float) : Z := byte (int f).

(** "4 different wall directions possible": the point of the floor at
    the foot of the wall. *)
Definition floorWall (side mapX mapY : Z) (rayDirX rayDirY wallX : float)
    : float * float :=
  if (side =? 0) && (0 <? rayDirX)%float
  then (float_of_int mapX, (float_of_int mapY + wallX)%float)
  else if (side =? 0) && (rayDirX <? 0)%float
  then ((float_of_int mapX + 1.0)%float, (float_of_int mapY + wallX)%float)
  else if (side =? 1) && (0 <? rayDirY)%float
  then ((float_of_int mapX + wallX)%float, float_of_int mapY)
  else ((float_of_int mapX + wallX)%float, (float_of_int mapY + 1.0)%float).

(** The body of the loop "draw the floor from drawEnd to the bottom of
    the screen", for the row [y] of the column [x]; the state is the
    bytes of the buffer. *)
Definition floorPixel (c : Camera) (horLvl : HorLevel) (x : Z)
    (floorXWall floorYWall distWall : float) (pix : list Z) (y : Z)
    : res (list Z) :=
  let distPlayer := 0%float in
  currentDist ← index (camY c) y;
  let weight := ((currentDist - distPlayer) / (distWall - distPlayer))%float in
  let currentFloorX :=
    (weight * floorXWall + (1.0 - weight) * X (pos c))%float in
  let currentFloorY :=
    (weight * floorYWall + (1.0 - weight) * Y (pos c))%float in
  floorTexX ←
    int_rem (int (currentFloorX * float_of_int (texWidth c))%float) (texWidth c);
  floorTexY ←
    int_rem (int (currentFloorY * float_of_int (texWidth c))%float) (texWidth c);
  floorTex ← index (TexRGBA horLvl) 0;
  let pxOffset := PixOffset floorTex floorTexX floorTexY in
  r ← index (Pix floorTex) pxOffset;
  g ← index (Pix floorTex) (int_add pxOffset 1);
  b ← index (Pix floorTex) (int_add pxOffset 2);
  a ← index (Pix floorTex) (int_add pxOffset 3);
  let pixelSt :=
    shadeRGBA indefinite
      {| color.R := 255; color.G := 255; color.B := 255; color.A := 255 |}
      currentDist in
  let r := uint8 (float_of_int r * float_of_int (color.R pixelSt) / 256)%float in
  let g := uint8 (float_of_int g * float_of_int (color.G pixelSt) / 256)%float in
  let b := uint8 (float_of_int b * float_of_int (color.B pixelSt) / 256)%float in
  let pxOffset := PixOffset (HorBuffer horLvl) x y in
  pix ← store pix pxOffset r;
  pix ← store pix (int_add pxOffset 1) g;
  pix ← store pix (int_add pxOffset 2) b;
  store pix (int_add pxOffset 3) a.

(** The first row of the floor: "becomes < 0 when the integer
    overflows". *)
Definition floorStart (c : Camera) (drawEnd : Z) : Z :=
  let drawEnd := if drawEnd <? 0 then h c else drawEnd in
  int_add drawEnd 1.

(** The floor caster of [castLevel], which runs for level 0: the rows
    below the wall of column [x], drawn into the buffer of the horizontal
    level.  The goroutine and the semaphore it runs under are not part of
    the model: this is what one column does to the buffer. *)
Definition castFloor (c : Camera) (horLvl : HorLevel) (x : Z)
    (side mapX mapY : Z) (rayDirX rayDirY wallX perpWallDist : float)
    (drawEnd : Z) : res HorLevel :=
  let '(floorXWall, floorYWall) :=
    floorWall side mapX mapY rayDirX rayDirY wallX in
  pix ← forEach (floorPixel c horLvl x floorXWall floorYWall perpWallDist)
        (Pix (HorBuffer horLvl)) (range (floorStart c drawEnd) (h c));
  Ok {| TexRGBA := TexRGBA horLvl;
        HorBuffer := {| Pix := pix;
                        Stride := Stride (HorBuffer horLvl);
                        Rect := Rect (HorBuffer horLvl) |} |}.

End FloorCaster.

(** ** The sprite passes *)

(** The camera with other sprite levels. *)
Definition setSpriteLvls (c : Camera) (ls : list (option Level)) : Camera :=
  {| pos := pos c; dir := dir c; plane := plane c;
     w := w c; h := h c; targetTPS := targetTPS c;
     worldMap := worldMap c; upMap := upMap c; midMap := midMap c;
     texWidth := texWidth c; camX := camX c; camY := camY c;
     zBuffer := zBuffer c; sprite := sprite c;
     spriteOrder := spriteOrder c; spriteDistance := spriteDistance c;
     spriteLvls := ls |}.

(** The sprite passes of [raycast]: "after sorting the sprites, do the
    projection and draw them".  [raycast] starts one goroutine per sprite
    ([asyncCastSprite], which calls [castSprite] under the semaphore) and
    waits for all of them; this is the schedule in which the passes run
    one after the other, in the order they are started. *)
Definition castSprites (indefinite : float -> Z)
    (SliceView MakeSlices : Z -> Z -> list image.Rectangle)
    (c : Camera) (numSprites : Z) : res Camera :=
  forEach (castSprite indefinite SliceView MakeSlices) c (range 0 numSprites).

(** ** Sorting the sprites *)

(** The squared distance of a sprite from the camera: "sqrt not taken,
    unneeded". *)
Definition sqDistance (c : Camera) (sp : Sprite) : float :=
  ((X (pos c) - X (sprite_pos sp)) * (X (pos c) - X (sprite_pos sp))
   + (Y (pos c) - Y (sprite_pos sp)) * (Y (pos c) - Y (sprite_pos sp)))%float.

(** The body of the loop of [raycast] that fills the two slices of the
    sorter. *)
Definition sortEntry (c : Camera) (s : list Z * list float) (i : Z)
    : res (list Z * list float) :=
  let '(order, dist) := s in
  order ← store order i i;
  sp ← index (sprite c) i;
  dist ← store dist i (sqDistance c sp);
  Ok (order, dist).

Definition setSpriteOrder (c : Camera) (order : list Z) (dist : list float)
    : Camera :=
  {| pos := pos c; dir := dir c; plane := plane c;
     w := w c; h := h c; targetTPS := targetTPS c;
     worldMap := worldMap c; upMap := upMap c; midMap := midMap c;
     texWidth := texWidth c; camX := camX c; camY := camY c;
     zBuffer := zBuffer c; sprite := sprite c;
     spriteOrder := order; spriteDistance := dist;
     spriteLvls := spriteLvls c |}.

(** "sort sprites from far to close": the part of [raycast] between the
    level passes and the sprite passes.  [numSprites] is
    [c.mapObj.numSprites], a field of the map. *)
Definition sortSprites (c : Camera) (numSprites : Z) (fuel : nat)
    : res Camera :=
  '(order, dist) ← forEach (sortEntry c) (spriteOrder c, spriteDistance c)
                     (range 0 numSprites);
  '(order, dist) ← combSort order dist numSprites fuel;
  Ok (setSpriteOrder c order dist).

(** ** Worlds and cameras to run the casters on *)

(** A grid of [n] by [n] empty cells in which the cells of [walls] hold
    the value 1. *)
Definition gridWith (n : nat) (walls : list (nat * nat)) : list (list Z) :=
  foldr (fun '(i, j) g => alter (fun row => <[j := 1]> row) i g)
        (replicate n (replicate n 0)) walls.

(** The camera of the end-to-end scenario: at [p], facing east over
    [grid], with a viewport 320 columns wide. *)
Definition eastCamera (p : Vector2) (grid : list (list Z)) : Camera :=
  {| pos := p;
     dir := mkVector2 1 0;
     plane := mkVector2 0 0.66;
     w := 320; h := 200; targetTPS := 60;
     worldMap := grid; upMap := grid; midMap := grid;
     texWidth := 64;
     camX := preCalcCamX 320; camY := preCalcCamY 200;
     zBuffer := replicate 320 0%float;
     sprite := []; spriteOrder := []; spriteDistance := [];
     spriteLvls := [] |}.

(** ** Predicates of the statements *)

(** A grid "of dimension at least 24 by 24". *)
Definition wellFormedGrid (grid : list (list Z)) : Prop :=
  (24 <= length grid)%nat /\ Forall (fun row => (24 <= length row)%nat) grid.

(** The cell of the state lies strictly inside the bound the loop tests. *)
Definition interior (s : DDA) : Prop :=
  0 < mapX s < 24 /\ 0 < mapY s < 24.

(** The cell of the state is a valid index pair of a 24 by 24 grid. *)
Definition onGrid (s : DDA) : Prop :=
  0 <= mapX s <= 23 /\ 0 <= mapY s <= 23.

(** The value of the grid at the cell of the state is [v]. *)
Definition cellIs (grid : list (list Z)) (s : DDA) (v : Z) : Prop :=
  exists row, grid !! Z.to_nat (mapX s) = Some row
              /\ row !! Z.to_nat (mapY s) = Some v.

(** How a state leaves the loop: a wall hit inside the bound, or a
    boundary hit with the cell clamped onto the grid. *)
Definition stopped (grid : list (list Z)) (s : DDA) : Prop :=
  (hit s = 1 /\ interior s /\ exists v, cellIs grid s v /\ 0 < v)
  \/ (hit s = 2 /\ onGrid s).

(** The number of cells a ray can still cross inside the bound before
    one of its coordinates reaches 0 or 24. *)
Definition remaining (rayDirX rayDirY : float) (s : DDA) : Z :=
  (if stepX rayDirX =? 1 then 24 - mapX s else mapX s)
  + (if stepY rayDirY =? 1 then 24 - mapY s else mapY s).

(** A camera facing east with the default field of view and a viewport
    320 columns wide. *)
Definition lookingEast (c : Camera) : Prop :=
  dir c = mkVector2 1 0 /\ plane c = mkVector2 0 0.66
  /\ w c = 320 /\ camX c = preCalcCamX (w c).

(** The state of a ray stopped at the cell [(x, y)] on side [sd]. *)
Definition stoppedAt (x y sd : Z) : DDA :=
  {| mapX := x; mapY := y; sideDistX := 0; sideDistY := 0;
     hit := 1; side := sd |}.

(** A stripe passes the four conditions of the stripe loop. *)
Definition accepts (c : Camera) (b : Billboard) (stripe : Z) : Prop :=
  visible c b stripe = Ok true.

(** The level [makeSpriteLevel] allocates. *)
Definition newLevel (SliceView : Z -> Z -> list image.Rectangle)
    (c : Camera) : Level :=
  {| Sv := SliceView (w c) (h c);
     Cts := replicate (Z.to_nat (w c)) None;
     St := replicate (Z.to_nat (w c)) None;
     CurrTex := replicate (Z.to_nat (w c)) None |}.

(** Two levels hold the same at column [x]. *)
Definition agreeAt (l l' : Level) (x : nat) : Prop :=
  Sv l !! x = Sv l' !! x /\ Cts l !! x = Cts l' !! x
  /\ St l !! x = St l' !! x /\ CurrTex l !! x = CurrTex l' !! x.

(** A level allocated in this call: as long as a new level, and equal
    to it at every column that is not an accepted stripe of [columns]. *)
Definition freshLevel (SliceView : Z -> Z -> list image.Rectangle)
    (c : Camera) (b : Billboard) (columns : list Z) (l : Level) : Prop :=
  length (Cts l) = Z.to_nat (w c)
  /\ length (St l) = Z.to_nat (w c)
  /\ length (CurrTex l) = Z.to_nat (w c)
  /\ length (Sv l) = length (SliceView (w c) (h c))
  /\ forall x,
       (exists stripe, stripe ∈ columns /\ x = Z.to_nat stripe
                       /\ accepts c b stripe)
       \/ agreeAt l (newLevel SliceView c) x.

(** The invariant of the stripe loop after the stripes [done]: only the
    slot of the sprite has changed; once a stripe was accepted the slot
    holds a fresh level, and before that the slots are as they were. *)
Definition stripesInv (SliceView : Z -> Z -> list image.Rectangle)
    (c : Camera) (b : Billboard) (spriteOrdIndex : Z)
    (done : list Z) (s : Stripes) : Prop :=
  length (lvls s) = length (spriteLvls c)
  /\ (forall j, j <> Z.to_nat spriteOrdIndex ->
        lvls s !! j = spriteLvls c !! j)
  /\ if renderSprite s
     then (exists stripe, stripe ∈ done /\ accepts c b stripe)
          /\ exists l, lvls s !! Z.to_nat spriteOrdIndex = Some (Some l)
                       /\ freshLevel SliceView c b done l
     else lvls s = spriteLvls c
          /\ forall stripe, stripe ∈ done -> ~ accepts c b stripe.

(** The slices of the camera fit the sprite caster: the sprite has a
    slot, and the depth buffer and the screen rectangles of a level cover
    the width of the viewport. *)
Definition wellFormedSprites (SliceView : Z -> Z -> list image.Rectangle)
    (c : Camera) (spriteOrdIndex : Z) : Prop :=
  0 <= spriteOrdIndex < Z.of_nat (length (spriteLvls c))
  /\ w c <= Z.of_nat (length (zBuffer c))
  /\ w c <= Z.of_nat (length (SliceView (w c) (h c))).

(** The number of entries of [l] above [x]. *)
Fixpoint countLt (x : float) (l : list float) : nat :=
  match l with
  | [] => 0
  | y :: l' => (if (x <? y)%float then 1 else 0) + countLt x l'
  end.

(** The number of pairs of positions that stand in ascending order. *)
Fixpoint ascents (d : list float) : nat :=
  match d with
  | [] => 0
  | x :: l => countLt x l + ascents l
  end.

(** No entry is followed by a larger one. *)
Definition adjSorted (d : list float) : Prop :=
  forall i a b, d !! i = Some a -> d !! S i = Some b -> (a <? b)%float = false.

(** The slices [order], [dist] of length [n] hold the pairs of [order0],
    [dist0], in some order. *)
Definition paired (n : nat) (order0 : list Z) (dist0 : list float)
    (order : list Z) (dist : list float) : Prop :=
  length order = n /\ length dist = n /\ zip order dist ≡ₚ zip order0 dist0.

(** The invariant of a pass of [combSort] after the positions [done]:
    the slices hold the pairs the pass started from; a pass of gap 1 that
    exchanged a pair has removed an ascent; a pass that exchanged nothing
    has found every visited pair in order. *)
Definition passInv (n : nat) (gap : Z) (order0 : list Z) (dist0 : list float)
    (done : list Z) (s : list Z * list float * bool) : Prop :=
  let '(order, dist, swapped) := s in
  paired n order0 dist0 order dist
  /\ (gap = 1 ->
      (ascents dist + (if swapped then 1 else 0) <= ascents dist0)%nat)
  /\ (swapped = false ->
      order = order0 /\ dist = dist0
      /\ forall i, i ∈ done ->
           exists a b, dist0 !! Z.to_nat i = Some a
                       /\ dist0 !! Z.to_nat (i + gap) = Some b
                       /\ (a <? b)%float = false).

(** The cell of [grid] under the point [(x, y)] holds [v]. *)
Definition cellUnder (indefinite : float -> Z) (grid : list (list Z))
    (x y : float) (v : Z) : Prop :=
  exists row, index grid (int_of_float indefinite x) = Ok row
              /\ index row (int_of_float indefinite y) = Ok v.

(** The coordinate after a guarded step: moved by [delta] when the cell
    looked at is empty. *)
Definition guarded (v : Z) (coord delta : float) : float :=
  if v <=? 0 then (coord + delta)%float else coord.

(** The states the loop of [castLevel] passes through, one per
    iteration, the answer last. *)
Fixpoint ddaTrace (grid : list (list Z)) (rayDirX rayDirY : float)
    (fuel : nat) (s : DDA) : list DDA :=
  if hit s =? 0
  then match fuel with
       | O => []
       | S fuel' =>
           match ddaStep grid rayDirX rayDirY s with
           | Ok s' => s' :: ddaTrace grid rayDirX rayDirY fuel' s'
           | _ => []
           end
       end
  else [].

(** The cell of the state lies on the border of the 24 by 24 grid. *)
Definition onBorder (s : DDA) : Prop :=
  mapX s = 0 \/ mapX s = 23 \/ mapY s = 0 \/ mapY s = 23.

(** What [castLevel] has stored at column [x] of the level [lvl], which
    was [lvl0] before: the values of the column it computes. *)
Definition wallColumn (indefinite : float -> Z) (c : Camera)
    (textures : list (option ebiten.Image))
    (slices : list (option image.Rectangle)) (levelNum : Z) (fuel : nat)
    (lvl0 lvl : Level) (x : Z) : Prop :=
  exists col tex slice v,
    castLevel indefinite c x (levelGrid c levelNum) levelNum fuel = Ok col
    /\ index textures (col_texNum col) = Ok tex
    /\ CurrTex lvl !! Z.to_nat x = Some tex
    /\ index slices (col_texX col) = Ok slice
    /\ Cts lvl !! Z.to_nat x = Some slice
    /\ Sv lvl0 !! Z.to_nat x = Some v
    /\ Sv lvl !! Z.to_nat x
       = Some (setY v (col_drawStart col) (col_drawEnd col))
    /\ St lvl !! Z.to_nat x = Some (Some (col_tint col)).

(** The depth buffer [zb] holds at [x] the wall distance of the column,
    when the level is level 0. *)
Definition depthAt (indefinite : float -> Z) (c : Camera) (levelNum : Z)
    (fuel : nat) (zb : list float) (x : Z) : Prop :=
  exists col,
    castLevel indefinite c x (levelGrid c levelNum) levelNum fuel = Ok col
    /\ (levelNum = 0 -> zb !! Z.to_nat x = Some (col_perpWallDist col)).

(** The invariant of the loop of [asyncCastLevel] after the columns
    [done]: only the level of [levelNum] and, for level 0, the depth
    buffer have changed, and only at the columns done. *)
Definition columnsInv (indefinite : float -> Z) (c : Camera)
    (textures : list (option ebiten.Image))
    (slices : list (option image.Rectangle)) (lvls : list (option Level))
    (levelNum : Z) (fuel : nat) (done : list Z)
    (s : list (option Level) * list float) : Prop :=
  let '(ls, zb) := s in
  length ls = length lvls
  /\ length zb = length (zBuffer c)
  /\ (forall j, j <> Z.to_nat levelNum -> ls !! j = lvls !! j)
  /\ (forall x, x ∈ done -> 0 <= x /\ depthAt indefinite c levelNum fuel zb x)
  /\ (forall j, (forall x, x ∈ done -> j <> Z.to_nat x) ->
        zb !! j = zBuffer c !! j)
  /\ (levelNum <> 0 -> zb = zBuffer c)
  /\ (done = [] -> ls = lvls)
  /\ (done <> [] ->
      exists lvl0 lvl,
        lvls !! Z.to_nat levelNum = Some (Some lvl0)
        /\ ls !! Z.to_nat levelNum = Some (Some lvl)
        /\ (forall x, x ∈ done ->
              wallColumn indefinite c textures slices levelNum fuel lvl0 lvl x)
        /\ forall k, (forall x, x ∈ done -> k <> Z.to_nat x) ->
                     agreeAt lvl lvl0 k).

(** The buffer is laid out as [image.NewRGBA] makes it for a viewport
    of [w] by [h]: rows of [w] pixels from the origin. *)
Definition viewportBuffer (c : Camera) (buf : RGBAImage) : Prop :=
  image.X (image.Min (Rect buf)) = 0 /\ image.Y (image.Min (Rect buf)) = 0
  /\ Stride buf = 4 * w c
  /\ 0 < w c /\ 4 * w c * h c <= max_int.

(** The bytes of [pix'] and [pix] agree at the four bytes of the pixel
    [(x, y)] of a buffer of width [width]. *)
Definition samePixel (width : Z) (pix pix' : list Z) (x y : Z) : Prop :=
  forall k, 0 <= k < 4 ->
    pix' !! Z.to_nat (4 * (y * width + x) + k)
    = pix !! Z.to_nat (4 * (y * width + x) + k).

(** The invariant of the floor loop after the rows [done]: they were
    rows of the camera table, and every byte outside their pixels is as
    it was. *)
Definition floorInv (c : Camera) (buf : RGBAImage) (x : Z) (pix0 : list Z)
    (done : list Z) (pix : list Z) : Prop :=
  length pix = length pix0
  /\ (forall y, y ∈ done -> 0 <= y)
  /\ forall o : Z, 0 <= o ->
       (forall y k, y ∈ done -> 0 <= k < 4 -> o <> PixOffset buf x y + k) ->
       pix !! Z.to_nat o = pix0 !! Z.to_nat o.

(** The texel the floor caster reads: four bytes, each between 0 and
    255, at an offset of the texture. *)
Definition texelAt (tex : RGBAImage) (t r g b a : Z) : Prop :=
  0 <= t
  /\ Pix tex !! Z.to_nat t = Some r /\ Pix tex !! Z.to_nat (t + 1) = Some g
  /\ Pix tex !! Z.to_nat (t + 2) = Some b
  /\ Pix tex !! Z.to_nat (t + 3) = Some a.

(** What an accepted stripe leaves at column [x] of the sprite's level
    [l], [r] being the texture slice stored there: the rows of the
    texture, which passed the checks of the loop, the texture, the tint
    and the rows of the screen. *)
Definition sliceOf (indefinite : float -> Z) (c : Camera) (sp : Sprite)
    (l : Level) (x : nat) (r : image.Rectangle) : Prop :=
  let b := project indefinite c sp in
  exists texStartY texEndY v,
    texRow c b (drawStartY b) = Ok texStartY
    /\ texRow c b (int_sub (drawEndY b) 1) = Ok texEndY
    /\ 0 <= texStartY < texEndY /\ texEndY < texWidth c
    /\ image.Y (image.Min r) = texStartY + 1
    /\ image.Y (image.Max r) = texEndY
    /\ St l !! x = Some (Some (shadeRGBA indefinite white (transformY b)))
    /\ CurrTex l !! x = Some (Some (GetTexture sp))
    /\ Sv l !! x = Some v
    /\ image.Y (image.Min v) = int_add (drawStartY b) 1
    /\ image.Y (image.Max v) = drawEndY b.

(** The invariant of the stripe loop on what the slices hold: once a
    level was made, every slice of it is one an accepted stripe left. *)
Definition contentInv (indefinite : float -> Z) (c : Camera) (sp : Sprite)
    (spriteOrdIndex : Z) (s : Stripes) : Prop :=
  renderSprite s = true ->
  exists l, lvls s !! Z.to_nat spriteOrdIndex = Some (Some l)
            /\ forall x r, Cts l !! x = Some (Some r) ->
                           sliceOf indefinite c sp l x r.

(** Two states of the stripe loop that differ only in what the slots
    held before the sprite's level was made. *)
Definition sameStripes (spriteOrdIndex : Z) (s t : Stripes) : Prop :=
  renderSprite s = renderSprite t
  /\ spriteSlices s = spriteSlices t
  /\ length (lvls s) = length (lvls t)
  /\ (renderSprite s = true ->
      lvls s !! Z.to_nat spriteOrdIndex = lvls t !! Z.to_nat spriteOrdIndex).

(** The invariant of the sprite passes after the sprites [done]: the
    slot of each holds what its pass leaves when it runs alone on the
    camera [c] the passes started from, and nothing else has changed. *)
Definition passesInv (indefinite : float -> Z)
    (SliceView MakeSlices : Z -> Z -> list image.Rectangle)
    (c : Camera) (done : list Z) (ck : Camera) : Prop :=
  ck = setSpriteLvls c (spriteLvls ck)
  /\ length (spriteLvls ck) = length (spriteLvls c)
  /\ (forall i, i ∈ done ->
        0 <= i
        /\ exists ci,
             castSprite indefinite SliceView MakeSlices c i = Ok ci
             /\ spriteLvls ck !! Z.to_nat i = spriteLvls ci !! Z.to_nat i)
  /\ forall k, (forall i, i ∈ done -> k <> Z.to_nat i) ->
               spriteLvls ck !! k = spriteLvls c !! k.

(** No entry of [d] is smaller than a later one: what [combSort] tests
    for, which NaN entries pass wherever they stand. *)
Definition noAscent (d : list float) : Prop :=
  forall i j a b, (i < j)%nat -> d !! i = Some a -> d !! j = Some b ->
                  (a <? b)%float = false.

(** The invariant of the filling loop after the positions [done]. *)
Definition entriesInv (c : Camera) (n : nat) (done : list Z)
    (s : list Z * list float) : Prop :=
  let '(order, dist) := s in
  length order = n /\ length dist = n
  /\ (forall i, i ∈ done -> 0 <= i)
  /\ forall i, i ∈ done ->
       order !! Z.to_nat i = Some i
       /\ exists sp, sprite c !! Z.to_nat i = Some sp
                     /\ dist !! Z.to_nat i = Some (sqDistance c sp).

(** ** Scenes for the examples *)

(** A camera at (1.5,1.5) moving along the diagonal, with a wall at the
    cell (2,7). *)
Definition slideCamera : Camera :=
  {| pos := mkVector2 1.5 1.5;
     dir := mkVector2 1 1;
     plane := mkVector2 1 1;
     w := 320; h := 200; targetTPS := 60;
     worldMap := gridWith 24 [(2, 7)%nat];
     upMap := []; midMap := [];
     texWidth := 64;
     camX := []; camY := [];
     zBuffer := [];
     sprite := []; spriteOrder := []; spriteDistance := [];
     spriteLvls := [] |}.

(** Modelled from the spec: [SliceView] and [MakeSlices] are defined
    outside [Camera.go]; the specification sizes the column arrays of a
    level to the viewport width and counts one slice per texture column.
    [columns n height] is such a list: [n] rectangles one column wide and
    [height] rows high. *)
Definition columns (n height : Z) : list image.Rectangle :=
  map (fun x => {| image.Min := {| image.X := x; image.Y := 0 |};
                   image.Max := {| image.X := x + 1; image.Y := height |} |})
      (upto n).

(** A viewport of 8 by 6 with one sprite at [(sx, sy)], seen from
    (4.5,4.5) facing east, every wall at distance [wall]. *)
Definition spriteScene (wall : float) (sx sy : float) : Camera :=
  {| pos := mkVector2 4.5 4.5;
     dir := mkVector2 1 0;
     plane := mkVector2 0 0.66;
     w := 8; h := 6; targetTPS := 60;
     worldMap := []; upMap := []; midMap := [];
     texWidth := 4;
     camX := preCalcCamX 8; camY := preCalcCamY 6;
     zBuffer := replicate 8 wall;
     sprite := [ {| sprite_pos := mkVector2 sx sy;
                    GetTexture := {| ebiten.Size := (4, 4) |} |} ];
     spriteOrder := [0]; spriteDistance := [0%float];
     spriteLvls := [None] |}.

(** A floor texture of 4 by 4 grey pixels and an empty buffer for the
    viewport of 8 by 6 of [spriteScene]. *)
Definition floorLevel : HorLevel :=
  {| TexRGBA :=
       [ {| Pix := replicate 64 200; Stride := 16;
            Rect := {| image.Min := {| image.X := 0; image.Y := 0 |};
                       image.Max := {| image.X := 4; image.Y := 4 |} |} |} ];
     HorBuffer :=
       {| Pix := replicate 192 0; Stride := 32;
          Rect := {| image.Min := {| image.X := 0; image.Y := 0 |};
                     image.Max := {| image.X := 8; image.Y := 6 |} |} |} |}.

(** The viewport of [spriteScene] with a second sprite behind the
    first, the sprites in the order of their distances. *)
Definition twoSprites : Camera :=
  setSpriteLvls
    {| pos := mkVector2 4.5 4.5;
       dir := mkVector2 1 0;
       plane := mkVector2 0 0.66;
       w := 8; h := 6; targetTPS := 60;
       worldMap := []; upMap := []; midMap := [];
       texWidth := 4;
       camX := preCalcCamX 8; camY := preCalcCamY 6;
       zBuffer := replicate 8 18.5%float;
       sprite := [ {| sprite_pos := mkVector2 6.5 4.5;
                      GetTexture := {| ebiten.Size := (4, 4) |} |};
                   {| sprite_pos := mkVector2 7.5 4.5;
                      GetTexture := {| ebiten.Size := (4, 4) |} |} ];
       spriteOrder := [1; 0]; spriteDistance := [9%float; 4%float];
       spriteLvls := [] |}
    [None; None].

(** A viewport of 8 by 6 in front of the wall block (5,5), seen from
    (4.5,5.5) facing east, the same grid on every level. *)
Definition wallScene : Camera :=
  {| pos := mkVector2 4.5 5.5;
     dir := mkVector2 1 0;
     plane := mkVector2 0 0.66;
     w := 8; h := 6; targetTPS := 60;
     worldMap := gridWith 24 [(5, 5)%nat];
     upMap := gridWith 24 [(5, 5)%nat];
     midMap := gridWith 24 [(5, 5)%nat];
     texWidth := 4;
     camX := preCalcCamX 8; camY := preCalcCamY 6;
     zBuffer := replicate 8 0%float;
     sprite := []; spriteOrder := []; spriteDistance := [];
     spriteLvls := [] |}.

(** A camera whose direction and plane are linearly independent and
    close to parallel. *)
Definition narrowCamera : Camera :=
  {| pos := mkVector2 22.5 11.5;
     dir := mkVector2 1 0;
     plane := mkVector2 1 1e-17;
     w := 8; h := 6; targetTPS := 60;
     worldMap := []; upMap := []; midMap := [];
     texWidth := 4;
     camX := []; camY := [];
     zBuffer := [];
     sprite := []; spriteOrder := []; spriteDistance := [];
     spriteLvls := [] |}.

(** * Properties *)

(** ** Integers and slices *)

Lemma wrap_range z : min_int <= wrap z <= max_int.
Proof.
  unfold wrap, min_int, max_int.
  pose proof (Z.mod_pos_bound (z + 2 ^ 63) (2 ^ 64) ltac:(lia)). lia.
Qed.

Lemma wrap_id z : min_int <= z <= max_int -> wrap z = z.
Proof.
  unfold wrap, min_int, max_int. intros Hz.
  rewrite Z.mod_small by lia. lia.
Qed.

Lemma index_Ok {A} (l : list A) (i : Z) (a : A) :
  index l i = Ok a <-> 0 <= i /\ l !! Z.to_nat i = Some a.
Proof.
  unfold index. destruct (Z.ltb_spec i 0) as [Hi | Hi].
  - split; [discriminate | lia].
  - destruct (l !! Z.to_nat i) as [b |]; split.
    + intros [= ->]. auto.
    + intros [_ [= ->]]. reflexivity.
    + discriminate.
    + intros [_ [=]].
Qed.

Lemma index_in_range {A} (l : list A) (i : Z) :
  0 <= i < Z.of_nat (length l) -> exists a, index l i = Ok a.
Proof.
  intros Hi. destruct (lookup_lt_is_Some_2 l (Z.to_nat i)) as [a Ha]; [lia |].
  exists a. apply index_Ok. split; [lia | exact Ha].
Qed.

Lemma store_Ok {A} (l : list A) (i : Z) (a : A) :
  0 <= i < Z.of_nat (length l) -> store l i a = Ok (<[Z.to_nat i := a]> l).
Proof.
  intros Hi. unfold store.
  destruct (Z.ltb_spec i 0); [lia |].
  destruct (Z.ltb_spec i (Z.of_nat (length l))); [reflexivity | lia].
Qed.

Lemma store_inv {A} (l l' : list A) (i : Z) (a : A) :
  store l i a = Ok l' ->
  0 <= i < Z.of_nat (length l) /\ l' = <[Z.to_nat i := a]> l.
Proof.
  unfold store.
  destruct (Z.ltb_spec i 0); [discriminate |].
  destruct (Z.ltb_spec i (Z.of_nat (length l))); [| discriminate].
  intros [= <-]. split; [lia | reflexivity].
Qed.

Lemma bind_Ok {A B} (r : res A) (k : A -> res B) (b : B) :
  r ≫= k = Ok b <-> exists a, r = Ok a /\ k a = Ok b.
Proof.
  destruct r as [a | |]; simpl; split.
  - eauto.
  - intros (a' & [= ->] & Hk). exact Hk.
  - discriminate.
  - intros (a' & [=] & _).
  - discriminate.
  - intros (a' & [=] & _).
Qed.

(** ** The wall caster: the DDA loop *)

Section DDALoop.

Variable grid : list (list Z).
Variables rayDirX rayDirY : float.

Abbreviation step := (ddaStep grid rayDirX rayDirY).
Abbreviation loop := (ddaLoop grid rayDirX rayDirY).

Lemma stepX_cases : stepX rayDirX = 1 \/ stepX rayDirX = -1.
Proof. unfold stepX. destruct (rayDirX <? 0)%float; auto. Qed.

Lemma stepY_cases : stepY rayDirY = 1 \/ stepY rayDirY = -1.
Proof. unfold stepY. destruct (rayDirY <? 0)%float; auto. Qed.

(** The jump moves exactly one coordinate by its step and leaves [hit]
    alone. *)
Lemma ddaJump_cases (s : DDA) :
  hit (ddaJump rayDirX rayDirY s) = hit s
  /\ ((mapX (ddaJump rayDirX rayDirY s) = int_add (mapX s) (stepX rayDirX)
       /\ mapY (ddaJump rayDirX rayDirY s) = mapY s
       /\ side (ddaJump rayDirX rayDirY s) = 0)
      \/ (mapX (ddaJump rayDirX rayDirY s) = mapX s
          /\ mapY (ddaJump rayDirX rayDirY s) = int_add (mapY s) (stepY rayDirY)
          /\ side (ddaJump rayDirX rayDirY s) = 1)).
Proof.
  unfold ddaJump. destruct (sideDistX s <? sideDistY s)%float; simpl; auto.
Qed.

Lemma clampCell_range m : 0 <= clampCell m <= 23.
Proof.
  unfold clampCell.
  destruct (Z.ltb_spec m 0); [lia |].
  destruct (Z.gtb_spec m 23); lia.
Qed.

(** What the check after a jump can answer, when it answers. *)
Lemma ddaCheck_cases (s s' : DDA) :
  ddaCheck grid s = Ok s' ->
  side s' = side s
  /\ ((interior s /\ mapX s' = mapX s /\ mapY s' = mapY s
       /\ ((hit s' = hit s /\ exists v, cellIs grid s v /\ v <= 0)
           \/ (hit s' = 1 /\ exists v, cellIs grid s v /\ 0 < v)))
      \/ (~ interior s /\ hit s' = 2
          /\ mapX s' = clampCell (mapX s) /\ mapY s' = clampCell (mapY s))).
Proof.
  unfold ddaCheck, interior.
  destruct (Z.ltb_spec (mapX s) 24), (Z.ltb_spec (mapY s) 24),
    (Z.gtb_spec (mapX s) 0), (Z.gtb_spec (mapY s) 0); simpl;
    try (intros [= <-]; simpl; split; [reflexivity | right; repeat split; lia]).
  intros H3. apply bind_Ok in H3 as (row & Hrow & H3).
  apply bind_Ok in H3 as (v & Hv & H3).
  apply index_Ok in Hrow as [_ Hrow]. apply index_Ok in Hv as [_ Hv].
  assert (Hcell : cellIs grid s v) by (exists row; auto).
  destruct (Z.gtb_spec v 0); injection H3 as <-; simpl;
    (split; [reflexivity | left; repeat split; try lia]);
    [right | left]; split; eauto; exists v; split; auto; lia.
Qed.

(** On a grid of at least 24 by 24 cells the check reads inside the
    grid, so it answers. *)
Lemma ddaCheck_returns (s : DDA) :
  wellFormedGrid grid -> exists s', ddaCheck grid s = Ok s'.
Proof.
  intros [Hrows Hcols]. unfold ddaCheck.
  destruct (Z.ltb_spec (mapX s) 24), (Z.ltb_spec (mapY s) 24),
    (Z.gtb_spec (mapX s) 0), (Z.gtb_spec (mapY s) 0); simpl; eauto.
  destruct (index_in_range grid (mapX s)) as [row Hrow]; [lia |].
  rewrite Hrow. simpl.
  assert (24 <= length row)%nat.
  { apply index_Ok in Hrow as [_ Hrow].
    rewrite Forall_forall in Hcols. apply Hcols.
    apply list_elem_of_lookup. eauto. }
  destruct (index_in_range row (mapY s)) as [v Hv]; [lia |].
  rewrite Hv. simpl. eauto.
Qed.

(** One iteration from a state inside the bound: the ray stops, or it
    stays inside the bound with one cell less to cross. *)
Lemma ddaStep_interior (s s' : DDA) :
  interior s -> step s = Ok s' ->
  stopped grid s'
  \/ (hit s' = hit s /\ interior s'
      /\ remaining rayDirX rayDirY s' = remaining rayDirX rayDirY s - 1).
Proof.
  intros [HX HY] Hs. unfold ddaStep in Hs.
  apply ddaCheck_cases in Hs as [_ Hs].
  destruct (ddaJump_cases s) as [Hh Hj].
  assert (HwX : int_add (mapX s) (stepX rayDirX) = mapX s + stepX rayDirX).
  { apply wrap_id. unfold min_int, max_int.
    destruct stepX_cases as [-> | ->]; lia. }
  assert (HwY : int_add (mapY s) (stepY rayDirY) = mapY s + stepY rayDirY).
  { apply wrap_id. unfold min_int, max_int.
    destruct stepY_cases as [-> | ->]; lia. }
  destruct Hs as [(Hi & HmX & HmY & Hhit) | (Hn & Hhit & HmX & HmY)].
  - assert (Hi' : interior s') by (unfold interior in *; rewrite HmX, HmY; exact Hi).
    destruct Hhit as [[Hhit _] | [Hhit Hv]].
    + right. split; [congruence |]. split; [exact Hi' |].
      unfold remaining. rewrite HmX, HmY.
      destruct Hj as [(-> & -> & _) | (-> & -> & _)].
      * rewrite HwX. destruct stepX_cases as [-> | ->]; simpl; lia.
      * rewrite HwY. destruct stepY_cases as [-> | ->]; simpl; lia.
    + left. left. split; [exact Hhit |]. split; [exact Hi' |].
      destruct Hv as (v & (row & Hrow & Hv) & Hpos).
      exists v. split; [| exact Hpos]. exists row. rewrite HmX, HmY. auto.
  - left. right. split; [exact Hhit |]. unfold onGrid. rewrite HmX, HmY.
    split; apply clampCell_range.
Qed.

(** One iteration from any state: the ray stops or is inside the
    bound. *)
Lemma ddaStep_any (s s' : DDA) :
  step s = Ok s' ->
  stopped grid s' \/ (hit s' = hit s /\ interior s').
Proof.
  intros Hs. unfold ddaStep in Hs.
  apply ddaCheck_cases in Hs as [_ Hs].
  destruct (ddaJump_cases s) as [Hh _].
  destruct Hs as [(Hi & HmX & HmY & Hhit) | (Hn & Hhit & HmX & HmY)].
  - assert (Hi' : interior s') by (unfold interior in *; rewrite HmX, HmY; exact Hi).
    destruct Hhit as [[Hhit _] | [Hhit Hv]].
    + right. split; [congruence | exact Hi'].
    + left. left. split; [exact Hhit |]. split; [exact Hi' |].
      destruct Hv as (v & (row & Hrow & Hv) & Hpos).
      exists v. split; [| exact Hpos]. exists row. rewrite HmX, HmY. auto.
  - left. right. split; [exact Hhit |]. unfold onGrid. rewrite HmX, HmY.
    split; apply clampCell_range.
Qed.

Lemma remaining_interior (s : DDA) :
  interior s -> 2 <= remaining rayDirX rayDirY s <= 46.
Proof.
  intros [HX HY]. unfold remaining.
  destruct (stepX rayDirX =? 1), (stepY rayDirY =? 1); lia.
Qed.

(** Whenever the loop answers, it answers a stopped state. *)
Lemma ddaLoop_stopped (fuel : nat) (s s' : DDA) :
  hit s = 0 -> loop fuel s = Ok s' -> stopped grid s'.
Proof.
  revert s. induction fuel as [| fuel IH]; intros s Hhit; simpl; rewrite Hhit; simpl.
  - discriminate.
  - intros H. apply bind_Ok in H as (s1 & Hstep & Hloop).
    destruct (ddaStep_any _ _ Hstep) as [Hstop | [Hh _]].
    + assert (hit s1 <> 0) by (destruct Hstop as [[-> _] | [-> _]]; lia).
      destruct fuel; simpl in Hloop;
        (destruct (Z.eqb_spec (hit s1) 0); [lia |]); congruence.
    + apply (IH s1); [congruence | exact Hloop].
Qed.

Section Total.

Hypothesis grid_wf : wellFormedGrid grid.

(** From inside the bound the loop needs at most one iteration per cell
    the ray can still cross. *)
Lemma ddaLoop_interior (fuel : nat) (s : DDA) :
  hit s = 0 -> interior s ->
  remaining rayDirX rayDirY s <= Z.of_nat fuel + 1 ->
  exists s', loop fuel s = Ok s'.
Proof.
  revert s. induction fuel as [| fuel IH]; intros s Hhit Hi Hrem.
  - pose proof (remaining_interior s Hi). lia.
  - simpl. rewrite Hhit. simpl.
    destruct (ddaCheck_returns (ddaJump rayDirX rayDirY s) grid_wf)
      as [s1 Hs1].
    fold (step s) in Hs1. rewrite Hs1. simpl.
    destruct (ddaStep_interior s s1 Hi Hs1) as [Hstop | (Hh & Hi1 & Hr)].
    + exists s1.
      assert (hit s1 <> 0) by (destruct Hstop as [[-> _] | [-> _]]; lia).
      destruct fuel; simpl; (destruct (Z.eqb_spec (hit s1) 0); [lia | reflexivity]).
    + apply IH; [congruence | exact Hi1 | lia].
Qed.

(** The loop ends within 46 iterations from every state. *)
Lemma ddaLoop_returns (fuel : nat) (s : DDA) :
  (46 <= fuel)%nat -> exists s', loop fuel s = Ok s'.
Proof.
  intros Hfuel. destruct fuel as [| fuel]; [lia |].
  simpl. destruct (Z.eqb_spec (hit s) 0) as [Hhit | Hhit]; [| eauto].
  destruct (ddaCheck_returns (ddaJump rayDirX rayDirY s) grid_wf)
    as [s1 Hs1].
  fold (step s) in Hs1. rewrite Hs1. simpl.
  destruct (ddaStep_any s s1 Hs1) as [Hstop | (Hh & Hi1)].
  - exists s1.
    assert (hit s1 <> 0) by (destruct Hstop as [[-> _] | [-> _]]; lia).
    destruct fuel; simpl; (destruct (Z.eqb_spec (hit s1) 0); [lia | reflexivity]).
  - apply ddaLoop_interior; [congruence | exact Hi1 |].
    pose proof (remaining_interior s1 Hi1). lia.
Qed.

End Total.

End DDALoop.

(** More fuel does not change an answer. *)
Lemma ddaLoop_fuel_mono grid rayDirX rayDirY (n m : nat) (s s' : DDA) :
  ddaLoop grid rayDirX rayDirY n s = Ok s' -> (n <= m)%nat ->
  ddaLoop grid rayDirX rayDirY m s = Ok s'.
Proof.
  revert m s. induction n as [| n IH]; intros m s; simpl.
  - destruct (hit s =? 0) eqn:Hhit; [discriminate |].
    intros H _. destruct m; simpl; rewrite Hhit; exact H.
  - destruct (hit s =? 0) eqn:Hhit.
    + intros H Hm. destruct m as [| m]; [lia |]. simpl. rewrite Hhit.
      apply bind_Ok in H as (s1 & Hs1 & H). rewrite Hs1. simpl.
      apply IH; [exact H | lia].
    + intros H _. destruct m; simpl; rewrite Hhit; exact H.
Qed.

(** The texture lookup after the loop reads the cell the loop stopped
    at, which is on the grid. *)
Lemma wallTexNum_returns grid (s : DDA) :
  wellFormedGrid grid -> onGrid s ->
  exists cell texNum, cellIs grid s cell /\ wallTexNum grid s = Ok texNum.
Proof.
  intros [Hrows Hcols] [HX HY]. unfold wallTexNum.
  destruct (index_in_range grid (mapX s)) as [row Hrow]; [lia |].
  assert (24 <= length row)%nat.
  { apply index_Ok in Hrow as [_ Hrow].
    rewrite Forall_forall in Hcols. apply Hcols.
    apply list_elem_of_lookup. eauto. }
  destruct (index_in_range row (mapY s)) as [cell Hcell]; [lia |].
  rewrite Hrow. simpl. rewrite Hcell. simpl.
  exists cell. eexists. split; [| reflexivity].
  apply index_Ok in Hrow as [_ Hrow]. apply index_Ok in Hcell as [_ Hcell].
  exists row. auto.
Qed.

Lemma stopped_onGrid grid (s : DDA) : stopped grid s -> onGrid s.
Proof.
  intros [(_ & [HX HY] & _) | [_ H]]; [| exact H].
  unfold onGrid. lia.
Qed.

(** [castLevel] in terms of its parts: the column it answers holds what
    the loop and the texture lookup found. *)
Lemma castLevel_of_ray indefinite (c : Camera) (x : Z) grid (levelNum : Z)
    (fuel : nat) (cameraX : float) (s : DDA) (texNum : Z) :
  let rayDirX := (X (dir c) + X (plane c) * cameraX)%float in
  let rayDirY := (Y (dir c) + Y (plane c) * cameraX)%float in
  index (camX c) x = Ok cameraX ->
  ddaLoop grid rayDirX rayDirY fuel
    (ddaInit indefinite rayDirX rayDirY (X (pos c)) (Y (pos c))) = Ok s ->
  wallTexNum grid s = Ok texNum ->
  exists col,
    castLevel indefinite c x grid levelNum fuel = Ok col
    /\ col_hit col = hit s /\ col_side col = side s
    /\ col_mapX col = mapX s /\ col_mapY col = mapY s
    /\ col_perpWallDist col
       = perpWallDist rayDirX rayDirY (X (pos c)) (Y (pos c)) s
    /\ col_texNum col = texNum.
Proof.
  intros rayDirX rayDirY Hx Hloop Htex. unfold castLevel.
  rewrite Hx. simpl mbind. fold rayDirX rayDirY.
  rewrite Hloop. simpl mbind. rewrite Htex. simpl mbind.
  eexists. split; [reflexivity |]. simpl. auto 10.
Qed.

(** On a grid of at least 24 by 24 cells [castLevel] answers for every
    column of the viewport, whatever the camera. *)
Lemma castLevel_returns indefinite (c : Camera) (x : Z) grid (levelNum : Z)
    (fuel : nat) :
  wellFormedGrid grid -> 0 <= x < Z.of_nat (length (camX c)) ->
  (46 <= fuel)%nat ->
  exists col, castLevel indefinite c x grid levelNum fuel = Ok col
              /\ 0 <= col_mapX col <= 23 /\ 0 <= col_mapY col <= 23.
Proof.
  intros Hwf Hx Hfuel.
  destruct (index_in_range (camX c) x Hx) as [cameraX HcameraX].
  set (rayDirX := (X (dir c) + X (plane c) * cameraX)%float).
  set (rayDirY := (Y (dir c) + Y (plane c) * cameraX)%float).
  destruct (ddaLoop_returns grid rayDirX rayDirY Hwf fuel
              (ddaInit indefinite rayDirX rayDirY (X (pos c)) (Y (pos c))) Hfuel)
    as [s Hs].
  pose proof (ddaLoop_stopped _ _ _ _ (ddaInit indefinite rayDirX rayDirY _ _)
                _ eq_refl Hs) as Hstop.
  apply stopped_onGrid in Hstop.
  destruct (wallTexNum_returns grid s Hwf Hstop) as (cell & t & _ & Ht).
  destruct (castLevel_of_ray indefinite c x grid levelNum fuel cameraX s t
              HcameraX Hs Ht) as (col & Hcol & _ & _ & HmX & HmY & _).
  exists col. rewrite HmX, HmY. auto.
Qed.

(** C2: from every camera position and for every ray direction, over a
    grid of at least 24 by 24 cells, the DDA loop of [castLevel] ends
    (46 iterations are always enough); it ends with a wall hit or a
    boundary hit, with [mapX] and [mapY] between 0 and 23, and the lookup
    [grid[mapX][mapY]] of the texture selection that follows is in
    bounds. *)
Theorem castLevel_dda_ends_on_grid :
  forall (indefinite : float -> Z) (grid : list (list Z))
         (rayDirX rayDirY rayPosX rayPosY : float) (fuel : nat),
    wellFormedGrid grid -> (46 <= fuel)%nat ->
    exists s,
      ddaLoop grid rayDirX rayDirY fuel
        (ddaInit indefinite rayDirX rayDirY rayPosX rayPosY) = Ok s
      /\ (hit s = 1 \/ hit s = 2)
      /\ 0 <= mapX s <= 23 /\ 0 <= mapY s <= 23
      /\ exists cell texNum,
           cellIs grid s cell /\ wallTexNum grid s = Ok texNum.
Proof.
  intros indefinite grid rayDirX rayDirY rayPosX rayPosY fuel Hwf Hfuel.
  destruct (ddaLoop_returns grid rayDirX rayDirY Hwf fuel
              (ddaInit indefinite rayDirX rayDirY rayPosX rayPosY) Hfuel)
    as [s Hs].
  pose proof (ddaLoop_stopped _ _ _ _ (ddaInit indefinite rayDirX rayDirY _ _)
                _ eq_refl Hs) as Hstop.
  exists s. split; [exact Hs |]. split.
  - destruct Hstop as [[H _] | [H _]]; auto.
  - pose proof (stopped_onGrid _ _ Hstop) as Hon.
    destruct Hon as [HX HY]. do 2 (split; [assumption |]).
    apply wallTexNum_returns; [exact Hwf | split; assumption].
Qed.

Lemma castLevel_dda_ends_on_grid_witness :
  wellFormedGrid (gridWith 24 [(5, 5)%nat])
  /\ exists s,
      ddaLoop (gridWith 24 [(5, 5)%nat]) 1 0 46
        (ddaInit indefinite_amd64 1 0 4.5 4.5) = Ok s
      /\ (hit s = 1 \/ hit s = 2)
      /\ 0 <= mapX s <= 23 /\ 0 <= mapY s <= 23
      /\ exists cell texNum,
           cellIs (gridWith 24 [(5, 5)%nat]) s cell
           /\ wallTexNum (gridWith 24 [(5, 5)%nat]) s = Ok texNum.
Proof.
  assert (Hgrid : wellFormedGrid (gridWith 24 [(5, 5)%nat])).
  { split; [vm_compute; lia |]. vm_compute. repeat constructor. }
  split; [exact Hgrid |].
  apply (castLevel_dda_ends_on_grid indefinite_amd64
           (gridWith 24 [(5, 5)%nat]) 1 0 4.5 4.5 46%nat); [exact Hgrid | lia].
Defined.

(** C10: the loop reports a wall hit ([hit == 1]) only at cells with
    both coordinates between 1 and 23; when the cell the ray jumps to has
    [mapX == 0] or [mapY == 0] the loop ends there as a boundary hit
    ([hit == 2]) without reading the grid, so a wall in row or column 0 is
    never detected as a wall. *)
Theorem dda_wall_hit_only_inside_bound :
  forall (grid : list (list Z)) (rayDirX rayDirY : float) (s : DDA),
    hit s = 0 ->
    (forall fuel s',
        ddaLoop grid rayDirX rayDirY fuel s = Ok s' -> hit s' = 1 ->
        1 <= mapX s' <= 23 /\ 1 <= mapY s' <= 23)
    /\ (mapX (ddaJump rayDirX rayDirY s) = 0
        \/ mapY (ddaJump rayDirX rayDirY s) = 0 ->
        forall fuel, exists s',
          ddaLoop grid rayDirX rayDirY (S fuel) s = Ok s'
          /\ hit s' = 2
          /\ mapX s' = clampCell (mapX (ddaJump rayDirX rayDirY s))
          /\ mapY s' = clampCell (mapY (ddaJump rayDirX rayDirY s))).
Proof.
  intros grid rayDirX rayDirY s Hhit. split.
  - intros fuel s' Hloop H1.
    destruct (ddaLoop_stopped _ _ _ _ _ _ Hhit Hloop)
      as [(_ & [HX HY] & _) | [H2 _]]; lia.
  - intros Hzero fuel. simpl. rewrite Hhit. simpl.
    unfold ddaStep, ddaCheck.
    set (j := ddaJump rayDirX rayDirY s) in *.
    assert (Hout : (mapX j <? 24) && (mapY j <? 24) && (mapX j >? 0)
                   && (mapY j >? 0) = false).
    { destruct Hzero as [-> | ->]; simpl.
      - rewrite andb_false_r. reflexivity.
      - rewrite andb_false_r. reflexivity. }
    rewrite Hout. simpl. eexists. split.
    + destruct fuel; reflexivity.
    + simpl. auto.
Qed.

(** A wall in column 0, at the cell (0,4), seen from (1.5,4.5) looking
    west: the first jump reaches it and the loop ends as a boundary hit. *)
Lemma dda_wall_hit_only_inside_bound_witness :
  hit (ddaInit indefinite_amd64 (-1) 0 1.5 4.5) = 0
  /\ (forall fuel s',
         ddaLoop (gridWith 24 [(0, 4)%nat]) (-1) 0 fuel
           (ddaInit indefinite_amd64 (-1) 0 1.5 4.5) = Ok s' ->
         hit s' = 1 -> 1 <= mapX s' <= 23 /\ 1 <= mapY s' <= 23)
  /\ (mapX (ddaJump (-1) 0 (ddaInit indefinite_amd64 (-1) 0 1.5 4.5)) = 0
      \/ mapY (ddaJump (-1) 0 (ddaInit indefinite_amd64 (-1) 0 1.5 4.5)) = 0)
  /\ forall fuel, exists s',
       ddaLoop (gridWith 24 [(0, 4)%nat]) (-1) 0 (S fuel)
         (ddaInit indefinite_amd64 (-1) 0 1.5 4.5) = Ok s'
       /\ hit s' = 2
       /\ mapX s' = clampCell (mapX (ddaJump (-1) 0
                                       (ddaInit indefinite_amd64 (-1) 0 1.5 4.5)))
       /\ mapY s' = clampCell (mapY (ddaJump (-1) 0
                                       (ddaInit indefinite_amd64 (-1) 0 1.5 4.5))).
Proof.
  pose proof (dda_wall_hit_only_inside_bound (gridWith 24 [(0, 4)%nat]) (-1) 0
                (ddaInit indefinite_amd64 (-1) 0 1.5 4.5) eq_refl) as [H1 H2].
  assert (H0 : mapX (ddaJump (-1) 0 (ddaInit indefinite_amd64 (-1) 0 1.5 4.5)) = 0).
  { vm_compute. reflexivity. }
  split; [reflexivity |]. split; [exact H1 |]. split; [left; exact H0 |].
  apply H2. left. exact H0.
Defined.

(** ** The wall caster: the end-to-end scenario *)

(** The central column looks straight along the direction vector. *)
Lemma camX_centre : index (preCalcCamX 320) 160 = Ok 0%float.
Proof. vm_compute. reflexivity. Qed.

(** From [(4.5, 4.5)] the central ray crosses row 4 up to the bound. *)
Lemma east_ray_row4 indefinite :
  ddaLoop (gridWith 24 [(5, 5)%nat]) 1 0 20 (ddaInit indefinite 1 0 4.5 4.5)
  = Ok {| mapX := 23; mapY := 4; sideDistX := 20.5; sideDistY := infinity;
          hit := 2; side := 0 |}.
Proof. vm_compute. reflexivity. Qed.

(** From [(4.5, 5.5)] it enters the block in the first iteration. *)
Lemma east_ray_row5 indefinite :
  ddaLoop (gridWith 24 [(5, 5)%nat]) 1 0 20 (ddaInit indefinite 1 0 4.5 5.5)
  = Ok {| mapX := 5; mapY := 5; sideDistX := 1.5; sideDistY := infinity;
          hit := 1; side := 0 |}.
Proof. vm_compute. reflexivity. Qed.

Lemma east_scenario indefinite (c : Camera) (p : Vector2) (levelNum : Z)
    (fuel : nat) (s : DDA) :
  lookingEast c -> (20 <= fuel)%nat ->
  ddaLoop (gridWith 24 [(5, 5)%nat]) 1 0 20 (ddaInit indefinite 1 0 (X p) (Y p))
  = Ok s ->
  exists col,
    castLevel indefinite (setPos c p) 160 (gridWith 24 [(5, 5)%nat])
      levelNum fuel = Ok col
    /\ col_hit col = hit s /\ col_side col = side s
    /\ col_mapX col = mapX s /\ col_mapY col = mapY s
    /\ col_perpWallDist col = perpWallDist 1 0 (X p) (Y p) s.
Proof.
  intros (Hdir & Hplane & Hw & HcamX) Hfuel Hs.
  assert (Hgrid : wellFormedGrid (gridWith 24 [(5, 5)%nat])).
  { split; [vm_compute; lia |]. vm_compute. repeat constructor. }
  assert (Hon : onGrid s).
  { eapply stopped_onGrid, ddaLoop_stopped; [| exact Hs]. reflexivity. }
  destruct (wallTexNum_returns _ s Hgrid Hon) as (cell & t & _ & Ht).
  destruct (castLevel_of_ray indefinite (setPos c p) 160
              (gridWith 24 [(5, 5)%nat]) levelNum fuel 0%float s t)
    as (col & Hcol & Hh & Hsd & HmX & HmY & Hperp & _).
  - simpl. rewrite HcamX, Hw. exact camX_centre.
  - simpl. rewrite Hdir, Hplane. simpl.
    apply ddaLoop_fuel_mono with (n := 20%nat); [exact Hs | exact Hfuel].
  - exact Ht.
  - exists col. split; [exact Hcol |].
    simpl in Hperp. rewrite Hdir, Hplane in Hperp. simpl in Hperp. auto 10.
Qed.

(** C1 (amended): in a 24 by 24 grid whose only wall is the cell (5,5),
    for a camera facing east (direction (1,0), plane (0,0.66), viewport
    320 columns wide), the central column 160 casts a ray along the row of
    the camera.  From (4.5,4.5) the ray runs in row 4, misses the block and
    ends as a boundary hit at the clamped cell (23,4), on the X side, at
    perpendicular distance 18.5.  From (4.5,5.5), in the row of the block,
    it hits the cell (5,5) on the X side at perpendicular distance 0.5. *)
Theorem castLevel_east_central_column :
  forall (indefinite : float -> Z) (c : Camera) (levelNum : Z) (fuel : nat),
    lookingEast c -> (20 <= fuel)%nat ->
    (exists col,
        castLevel indefinite (setPos c (mkVector2 4.5 4.5)) 160
          (gridWith 24 [(5, 5)%nat]) levelNum fuel = Ok col
        /\ col_hit col = 2 /\ col_mapX col = 23 /\ col_mapY col = 4
        /\ col_side col = 0 /\ col_perpWallDist col = 18.5%float)
    /\ (exists col,
          castLevel indefinite (setPos c (mkVector2 4.5 5.5)) 160
            (gridWith 24 [(5, 5)%nat]) levelNum fuel = Ok col
          /\ col_hit col = 1 /\ col_mapX col = 5 /\ col_mapY col = 5
          /\ col_side col = 0 /\ col_perpWallDist col = 0.5%float).
Proof.
  intros indefinite c levelNum fuel Hc Hfuel. split.
  - destruct (east_scenario indefinite c (mkVector2 4.5 4.5) levelNum fuel _
                Hc Hfuel (east_ray_row4 indefinite))
      as (col & Hcol & Hh & Hsd & HmX & HmY & Hperp).
    exists col. repeat split; assumption.
  - destruct (east_scenario indefinite c (mkVector2 4.5 5.5) levelNum fuel _
                Hc Hfuel (east_ray_row5 indefinite))
      as (col & Hcol & Hh & Hsd & HmX & HmY & Hperp).
    exists col. repeat split; assumption.
Qed.

Lemma castLevel_fuel_mono indefinite (c : Camera) (x : Z) grid (levelNum : Z)
    (n m : nat) (col : Column) :
  castLevel indefinite c x grid levelNum n = Ok col -> (n <= m)%nat ->
  castLevel indefinite c x grid levelNum m = Ok col.
Proof.
  unfold castLevel. intros H Hm.
  apply bind_Ok in H as (cameraX & Hx & H). rewrite Hx. simpl mbind.
  apply bind_Ok in H as (s & Hs & H).
  rewrite (ddaLoop_fuel_mono _ _ _ _ _ _ _ Hs Hm). exact H.
Qed.

Lemma eastCamera_lookingEast p grid : lookingEast (eastCamera p grid).
Proof. repeat split. Qed.

(** The scenario as the specification words it fails: with the camera at
    (4.5,4.5) the central column does not report the cell (5,5), however
    long the loop may run. *)
Lemma castLevel_east_misses_block :
  ~ exists fuel col,
      castLevel indefinite_amd64
        (eastCamera (mkVector2 4.5 4.5) (gridWith 24 [(5, 5)%nat])) 160
        (gridWith 24 [(5, 5)%nat]) 0 fuel = Ok col
      /\ col_mapX col = 5 /\ col_mapY col = 5 /\ col_side col = 0.
Proof.
  intros (fuel & col & Hcol & HmX & _).
  apply castLevel_fuel_mono with (m := (fuel + 20)%nat) in Hcol; [| lia].
  destruct (east_scenario indefinite_amd64
              (eastCamera (mkVector2 4.5 4.5) (gridWith 24 [(5, 5)%nat]))
              (mkVector2 4.5 4.5) 0 (fuel + 20)%nat _
              (eastCamera_lookingEast _ _) ltac:(lia)
              (east_ray_row4 indefinite_amd64))
    as (col' & Hcol' & _ & _ & HmX' & _).
  change (setPos (eastCamera (mkVector2 4.5 4.5) (gridWith 24 [(5, 5)%nat]))
            (mkVector2 4.5 4.5))
    with (eastCamera (mkVector2 4.5 4.5) (gridWith 24 [(5, 5)%nat])) in Hcol'.
  rewrite Hcol in Hcol'. injection Hcol' as <-.
  rewrite HmX in HmX'. discriminate.
Qed.

Lemma castLevel_east_central_column_witness :
  lookingEast (eastCamera (mkVector2 0 0) [])
  /\ (20 <= 20)%nat
  /\ (exists col,
         castLevel indefinite_amd64
           (setPos (eastCamera (mkVector2 0 0) []) (mkVector2 4.5 4.5)) 160
           (gridWith 24 [(5, 5)%nat]) 0 20 = Ok col
         /\ col_hit col = 2 /\ col_mapX col = 23 /\ col_mapY col = 4
         /\ col_side col = 0 /\ col_perpWallDist col = 18.5%float)
  /\ (exists col,
        castLevel indefinite_amd64
          (setPos (eastCamera (mkVector2 0 0) []) (mkVector2 4.5 5.5)) 160
          (gridWith 24 [(5, 5)%nat]) 0 20 = Ok col
        /\ col_hit col = 1 /\ col_mapX col = 5 /\ col_mapY col = 5
        /\ col_side col = 0 /\ col_perpWallDist col = 0.5%float).
Proof.
  split; [repeat split |]. split; [lia |].
  apply (castLevel_east_central_column indefinite_amd64
           (eastCamera (mkVector2 0 0) []) 0 20%nat);
    [repeat split | lia].
Defined.

(** ** The wall caster: texture selection *)

Lemma remapTex_table (t : Z) :
  (t = 1 -> remapTex t = 4) /\ (t = 2 -> remapTex t = 3)
  /\ (t = 3 -> remapTex t = 4) /\ (t = 4 -> remapTex t = 3)
  /\ (t < 1 \/ 4 < t -> remapTex t = t).
Proof.
  unfold remapTex. repeat split; try (intros ->; reflexivity).
  intros Ht.
  destruct (Z.eqb_spec t 3); [lia |]. destruct (Z.eqb_spec t 4); [lia |].
  destruct (Z.eqb_spec t 1); [lia |]. destruct (Z.eqb_spec t 2); [lia |].
  reflexivity.
Qed.

(** C6 (amended): the texture id is [cellValue - 1], raised to 0 when
    negative.  When the hit was on the X-stepped side ([side == 0]) the id
    is sent through a fixed table, 1 to 4, 2 to 3, 3 to 4 and 4 to 3, all
    other ids unchanged: only 3 and 4 are exchanged, 1 and 2 are replaced
    one way.  On the Y-stepped side the id is used as it is. *)
Theorem wallTexNum_side_table :
  forall (grid : list (list Z)) (s : DDA) (row : list Z) (cell : Z),
    index grid (mapX s) = Ok row -> index row (mapY s) = Ok cell ->
    min_int < cell <= max_int ->
    exists t,
      wallTexNum grid s = Ok t
      /\ (side s = 0 ->
          (Z.max 0 (cell - 1) = 1 -> t = 4)
          /\ (Z.max 0 (cell - 1) = 2 -> t = 3)
          /\ (Z.max 0 (cell - 1) = 3 -> t = 4)
          /\ (Z.max 0 (cell - 1) = 4 -> t = 3)
          /\ (Z.max 0 (cell - 1) < 1 \/ 4 < Z.max 0 (cell - 1) ->
              t = Z.max 0 (cell - 1)))
      /\ (side s <> 0 -> t = Z.max 0 (cell - 1)).
Proof.
  intros grid s row cell Hrow Hcell Hrange. unfold wallTexNum.
  rewrite Hrow. simpl mbind. rewrite Hcell. simpl mbind.
  assert (Hsub : int_sub cell 1 = cell - 1).
  { apply wrap_id. unfold min_int, max_int in *. lia. }
  rewrite Hsub.
  assert (Hmax : (if cell - 1 <? 0 then 0 else cell - 1) = Z.max 0 (cell - 1)).
  { destruct (Z.ltb_spec (cell - 1) 0); lia. }
  rewrite Hmax. eexists. split; [reflexivity |]. split.
  - intros ->. simpl. apply remapTex_table.
  - intros Hside. destruct (Z.eqb_spec (side s) 0); [contradiction | reflexivity].
Qed.

(** The table is not a set of exchanges: on the X side a cell of value 5
    (texture id 4) is drawn with texture 3, not with texture 1, and a cell
    of value 4 (texture id 3) with texture 4, not with texture 2. *)
Lemma wallTexNum_not_exchanges :
  ~ (wallTexNum [[0; 5; 4]] (stoppedAt 0 1 0) = Ok 1
     \/ wallTexNum [[0; 5; 4]] (stoppedAt 0 2 0) = Ok 2).
Proof. vm_compute. intros [H | H]; discriminate H. Qed.

Lemma wallTexNum_side_table_witness :
  exists t,
    wallTexNum [[0; 5; 4]] (stoppedAt 0 1 0) = Ok t
    /\ (side (stoppedAt 0 1 0) = 0 ->
        (Z.max 0 (5 - 1) = 1 -> t = 4)
        /\ (Z.max 0 (5 - 1) = 2 -> t = 3)
        /\ (Z.max 0 (5 - 1) = 3 -> t = 4)
        /\ (Z.max 0 (5 - 1) = 4 -> t = 3)
        /\ (Z.max 0 (5 - 1) < 1 \/ 4 < Z.max 0 (5 - 1) -> t = Z.max 0 (5 - 1)))
    /\ (side (stoppedAt 0 1 0) <> 0 -> t = Z.max 0 (5 - 1)).
Proof.
  apply (wallTexNum_side_table [[0; 5; 4]] (stoppedAt 0 1 0) [0; 5; 4] 5).
  - reflexivity.
  - reflexivity.
  - unfold min_int, max_int. lia.
Defined.

(** ** The order of [float64] *)

Ltac compare_cases :=
  repeat match goal with
         | |- context [Z.compare ?x ?y] => destruct (Z.compare_spec x y)
         | |- context [Pos.compare_cont Eq ?x ?y] =>
             change (Pos.compare_cont Eq x y) with (Pos.compare x y);
             destruct (Pos.compare_spec x y)
         end.

Lemma SFcompare_antisym (x y : spec_float) :
  SFcompare y x = option_map CompOpp (SFcompare x y).
Proof.
  destruct x as [sx | sx | | sx mx ex], y as [sy | sy | | sy my ey];
    try destruct sx; try destruct sy; try reflexivity; simpl;
    compare_cases; simpl; try reflexivity; subst; lia.
Qed.

Lemma SFleb_trans (x y z : spec_float) :
  SFleb x y = true -> SFleb y z = true -> SFleb x z = true.
Proof.
  unfold SFleb.
  destruct x as [sx | sx | | sx mx ex], y as [sy | sy | | sy my ey],
    z as [sz | sz | | sz mz ez];
    try destruct sx; try destruct sy; try destruct sz; simpl;
    try discriminate; try reflexivity;
    compare_cases; simpl; try discriminate; try reflexivity;
    intros; subst; lia.
Qed.

Lemma Prim2SF_nan (f : float) :
  is_nan f = false -> Prim2SF f <> S754_nan.
Proof.
  unfold Prim2SF. intros ->.
  destruct (is_zero f); [discriminate |].
  destruct (is_infinity f); [discriminate |].
  destruct (Z.frexp f) as [r e].
  destruct (shr_fexp _ _ _ _ _) as [sh e'].
  destruct (shr_m sh); discriminate.
Qed.

(** [<] is asymmetric, also on NaN. *)
Lemma ltb_asym (x y : float) : (x <? y)%float = true -> (y <? x)%float = false.
Proof.
  rewrite !ltb_spec. unfold SFltb. rewrite (SFcompare_antisym (Prim2SF x)).
  destruct (SFcompare (Prim2SF x) (Prim2SF y)) as [[] |]; simpl; congruence.
Qed.

(** [x <= y] excludes [y < x]. *)
Lemma leb_not_ltb (x y : float) : (x <=? y)%float = true -> (y <? x)%float = false.
Proof.
  rewrite ltb_spec, leb_spec. unfold SFltb, SFleb.
  rewrite (SFcompare_antisym (Prim2SF x)).
  destruct (SFcompare (Prim2SF x) (Prim2SF y)) as [[] |]; simpl; congruence.
Qed.

(** Away from NaN the order is total. *)
Lemma not_ltb_leb (x y : float) :
  is_nan x = false -> is_nan y = false ->
  (x <? y)%float = false -> (y <=? x)%float = true.
Proof.
  intros Hx%Prim2SF_nan Hy%Prim2SF_nan.
  rewrite ltb_spec, leb_spec. unfold SFltb, SFleb.
  rewrite (SFcompare_antisym (Prim2SF x)).
  destruct (Prim2SF x) as [sx | sx | | sx mx ex];
    destruct (Prim2SF y) as [sy | sy | | sy my ey]; try congruence;
    destruct (SFcompare _ _) as [[] |] eqn:Hc; simpl; try congruence;
    discriminate Hc.
Qed.

Lemma leb_trans (x y z : float) :
  (x <=? y)%float = true -> (y <=? z)%float = true -> (x <=? z)%float = true.
Proof. rewrite !leb_spec. apply SFleb_trans. Qed.

(** ** Loops over a range *)

Lemma elem_of_range (lo hi x : Z) : x ∈ range lo hi <-> lo <= x < hi.
Proof.
  unfold range. rewrite list_elem_of_fmap. split.
  - intros (k & -> & Hk). apply elem_of_seq in Hk. lia.
  - intros Hx. exists (Z.to_nat (x - lo)). split; [lia |].
    apply elem_of_seq. lia.
Qed.

(** An invariant of the loop body, indexed by the values already
    visited, holds of the state the loop answers. *)
Lemma forEach_invariant {S} (body : S -> Z -> res S)
    (I : list Z -> S -> Prop) (Q : Z -> Prop) (l : list Z) :
  (forall done s x s',
      Q x -> I done s -> body s x = Ok s' -> I (done ++ [x]) s') ->
  Forall Q l ->
  forall done s s', I done s -> forEach body s l = Ok s' -> I (done ++ l) s'.
Proof.
  intros Hstep. induction l as [| x l IH]; intros HQ done s s' HI; simpl.
  - intros [= <-]. rewrite app_nil_r. exact HI.
  - intros H. apply bind_Ok in H as (s1 & Hs1 & H).
    apply Forall_cons in HQ as [Hx HQ].
    replace (done ++ x :: l) with ((done ++ [x]) ++ l)
      by (rewrite <- app_assoc; reflexivity).
    apply (IH HQ _ s1); [| exact H].
    apply (Hstep done s); assumption.
Qed.

(** When the body also answers from every state of the invariant, so
    does the loop. *)
Lemma forEach_returns {S} (body : S -> Z -> res S)
    (I : list Z -> S -> Prop) (Q : Z -> Prop) (l : list Z) :
  (forall done s x s',
      Q x -> I done s -> body s x = Ok s' -> I (done ++ [x]) s') ->
  (forall done s x, Q x -> I done s -> exists s', body s x = Ok s') ->
  Forall Q l ->
  forall done s, I done s -> exists s', forEach body s l = Ok s'.
Proof.
  intros Hstep Hret. induction l as [| x l IH]; intros HQ done s HI; simpl.
  - eauto.
  - apply Forall_cons in HQ as [Hx HQ].
    destruct (Hret done s x Hx HI) as [s1 Hs1]. rewrite Hs1. simpl.
    apply (IH HQ (done ++ [x])). apply (Hstep done s); assumption.
Qed.

(** ** The sprite caster *)

Lemma int_of_float_range indefinite f :
  min_int <= int_of_float indefinite f <= max_int.
Proof.
  unfold int_of_float. destruct (Prim2SF f) as [sg | sg | | sg m e];
    try apply wrap_range.
  - unfold min_int, max_int. lia.
  - set (z := if sg then _ else _).
    destruct (Z.leb_spec min_int z), (Z.leb_spec z max_int); simpl;
      try apply wrap_range. lia.
Qed.

Lemma visible_true (c : Camera) (b : Billboard) (stripe : Z) :
  accepts c b stripe <->
  (0 <? transformY b)%float = true /\ 0 < stripe < w c
  /\ exists z, zBuffer c !! Z.to_nat stripe = Some z
               /\ (transformY b <? z)%float = true.
Proof.
  unfold accepts, visible.
  destruct (0 <? transformY b)%float; simpl;
    [| split; [discriminate | intros [[=] _]]].
  destruct (Z.gtb_spec stripe 0); simpl;
    [| split; [discriminate | lia]].
  destruct (Z.ltb_spec stripe (w c)); simpl;
    [| split; [discriminate | lia]].
  split.
  - intros H1. apply bind_Ok in H1 as (z & Hz & [= Hlt]).
    apply index_Ok in Hz as [_ Hz]. repeat split; try lia. eauto.
  - intros (_ & _ & z & Hz & Hlt).
    assert (Hi : index (zBuffer c) stripe = Ok z) by (apply index_Ok; split; [lia | exact Hz]).
    rewrite Hi. simpl. rewrite Hlt. reflexivity.
Qed.

Section SpriteCaster.

Variable indefinite : float -> Z.
Variables SliceView MakeSlices : Z -> Z -> list image.Rectangle.
Variable c : Camera.
Variable spriteOrdIndex : Z.
Variable sp : Sprite.

Abbreviation b := (project indefinite c sp).
Abbreviation slot := (Z.to_nat spriteOrdIndex).
Abbreviation Inv := (stripesInv SliceView c b spriteOrdIndex).
Abbreviation body :=
  (castStripe indefinite SliceView MakeSlices c b (GetTexture sp) spriteOrdIndex).

Lemma freshLevel_mono (done done' : list Z) (l : Level) :
  (forall x, x ∈ done -> x ∈ done') ->
  freshLevel SliceView c b done l -> freshLevel SliceView c b done' l.
Proof.
  intros Hsub (H1 & H2 & H3 & H4 & H5). repeat split; try assumption.
  intros x. destruct (H5 x) as [(stripe & Hin & Heq & Hacc) | Hagree];
    [left; exists stripe; auto | right; exact Hagree].
Qed.

(** The level of an accepted stripe: the one in the slot, which is the
    new one when the stripe is the first to be accepted. *)
Lemma spriteLevelOf_inv (done : list Z) (s s1 : Stripes) (stripe : Z)
    (ol : option Level) :
  Inv done s -> accepts c b stripe ->
  spriteLevelOf SliceView MakeSlices c (GetTexture sp) spriteOrdIndex s
  = Ok (ol, s1) ->
  renderSprite s1 = true /\ Inv (done ++ [stripe]) s1
  /\ exists l, ol = Some l /\ lvls s1 !! slot = Some (Some l).
Proof.
  intros (Hlen & Hother & Hrender) Hacc. unfold spriteLevelOf.
  destruct (renderSprite s) eqn:Hr.
  - intros H1. apply bind_Ok in H1 as (l0 & Hl0 & [= -> <-]).
    destruct Hrender as ((st0 & Hin0 & Hacc0) & l & Hl & Hfresh).
    apply index_Ok in Hl0 as [_ Hl0]. rewrite Hl in Hl0. injection Hl0 as <-.
    split; [exact Hr |]. split; [| eauto].
    split; [exact Hlen |]. split; [exact Hother |]. rewrite Hr. split.
    + exists st0. split; [apply elem_of_app; auto | exact Hacc0].
    + exists l. split; [exact Hl |].
      apply (freshLevel_mono done); [| exact Hfresh].
      intros x Hx. apply elem_of_app. auto.
  - intros H1. apply bind_Ok in H1 as ([l ls] & Hmk & H1).
    destruct (ebiten.Size (GetTexture sp)) as [spriteW spriteH].
    injection H1 as <- <-.
    unfold makeSpriteLevel in Hmk.
    apply bind_Ok in Hmk as (cts & Hcts & Hmk).
    apply bind_Ok in Hmk as (st & Hst & Hmk).
    apply bind_Ok in Hmk as (currTex & HcurrTex & Hmk).
    apply bind_Ok in Hmk as (ls' & Hls & [= <- <-]).
    apply store_inv in Hls as [Hslot ->].
    unfold make in Hcts, Hst, HcurrTex.
    destruct (Z.ltb_spec (w c) 0); [discriminate |].
    injection Hcts as <-. injection Hst as <-. injection HcurrTex as <-.
    simpl. split; [reflexivity |].
    assert (Hat : <[slot := Some {| Sv := SliceView (w c) (h c);
                                    Cts := replicate (Z.to_nat (w c)) None;
                                    St := replicate (Z.to_nat (w c)) None;
                                    CurrTex := replicate (Z.to_nat (w c)) None |}]>
                    (lvls s) !! slot
                  = Some (Some {| Sv := SliceView (w c) (h c);
                                  Cts := replicate (Z.to_nat (w c)) None;
                                  St := replicate (Z.to_nat (w c)) None;
                                  CurrTex := replicate (Z.to_nat (w c)) None |})).
    { apply list_lookup_insert_eq. lia. }
    split; [| eauto].
    split; [simpl; rewrite length_insert; exact Hlen |].
    split; [intros j Hj; simpl; rewrite list_lookup_insert_ne by congruence;
            apply Hother; exact Hj |].
    simpl. split.
    + exists stripe. split; [apply elem_of_app; right; apply list_elem_of_singleton; reflexivity | exact Hacc].
    + eexists. split; [exact Hat |].
      repeat split; simpl; try apply length_replicate.
      intros x. right. repeat split.
Qed.

(** Writing the slice of an accepted stripe keeps the invariant. *)
Lemma writeStripe_inv (done : list Z) (s1 s' : Stripes) (l : Level)
    (stripe texX texStartY texEndY : Z) :
  Inv done s1 -> renderSprite s1 = true ->
  lvls s1 !! slot = Some (Some l) ->
  accepts c b stripe -> stripe ∈ done ->
  writeStripe indefinite c b (GetTexture sp) spriteOrdIndex stripe texX
    texStartY texEndY (Some l) s1 = Ok s' ->
  renderSprite s' = true /\ Inv done s'.
Proof.
  intros (Hlen & Hother & Hrender) Hr Hl Hacc Hin. rewrite Hr in Hrender.
  destruct Hrender as (Hsome & l' & Hl' & Hfresh).
  rewrite Hl in Hl'. injection Hl' as <-.
  destruct Hfresh as (HCts & HSt & HCurr & HSv & Hcols).
  unfold writeStripe. simpl deref. intros H1.
  apply bind_Ok in H1 as (l0 & [= <-] & H1).
  apply bind_Ok in H1 as (r & _ & H1).
  apply bind_Ok in H1 as (slices & _ & H1).
  apply bind_Ok in H1 as (cts & Hcts & H1).
  apply bind_Ok in H1 as (currTex & HcurrTex & H1).
  apply bind_Ok in H1 as (v & _ & H1).
  apply bind_Ok in H1 as (sv & Hsv & H1).
  apply bind_Ok in H1 as (st & Hst & H1).
  apply bind_Ok in H1 as (ls & Hls & [= <-]).
  apply store_inv in Hcts as [_ ->]. apply store_inv in HcurrTex as [_ ->].
  apply store_inv in Hsv as [_ ->]. apply store_inv in Hst as [_ ->].
  apply store_inv in Hls as [Hslot ->].
  simpl. split; [exact Hr |].
  split; [simpl; rewrite length_insert; exact Hlen |].
  split; [intros j Hj; simpl; rewrite list_lookup_insert_ne by congruence;
          apply Hother; exact Hj |].
  simpl. rewrite Hr. split; [exact Hsome |].
  eexists. split; [apply list_lookup_insert_eq; lia |].
  repeat split; simpl; rewrite ?length_insert; try assumption.
  intros x.
  destruct (decide (x = Z.to_nat stripe)) as [-> | Hne].
  - left. exists stripe. auto.
  - destruct (Hcols x) as [Hw | (A1 & A2 & A3 & A4)]; [left; exact Hw |].
    right. unfold agreeAt. simpl.
    rewrite !list_lookup_insert_ne by congruence. auto.
Qed.

(** The invariant of the stripe loop. *)
Lemma castStripe_inv (done : list Z) (s s' : Stripes) (stripe : Z) :
  Inv done s -> body s stripe = Ok s' -> Inv (done ++ [stripe]) s'.
Proof.
  intros HI. unfold castStripe. intros H1.
  apply bind_Ok in H1 as (ok & Hok & H1). destruct ok.
  - assert (Hacc : accepts c b stripe) by exact Hok.
    apply bind_Ok in H1 as ([ol s1] & Hlvl & H1).
    destruct (spriteLevelOf_inv done s s1 stripe ol HI Hacc Hlvl)
      as (Hr & HI1 & l & -> & Hl).
    apply bind_Ok in H1 as (texX & _ & H1).
    destruct ((texX <? 0) || (texX >=? Z.of_nat (length (spriteSlices s1))));
      [injection H1 as <-; exact HI1 |].
    apply bind_Ok in H1 as (texStartY & _ & H1).
    apply bind_Ok in H1 as (texEndY & _ & H1).
    destruct ((texStartY <? 0) || (texStartY >=? texEndY)
              || (texEndY >=? texWidth c));
      [injection H1 as <-; exact HI1 |].
    eapply writeStripe_inv; [exact HI1 | exact Hr | exact Hl | exact Hacc | | exact H1].
    apply elem_of_app. right. apply list_elem_of_singleton. reflexivity.
  - injection H1 as <-.
    destruct HI as (Hlen & Hother & Hrender).
    split; [exact Hlen |]. split; [exact Hother |].
    destruct (renderSprite s).
    + destruct Hrender as ((st0 & Hin0 & Hacc0) & l & Hl & Hfresh). split.
      * exists st0. split; [apply elem_of_app; auto | exact Hacc0].
      * exists l. split; [exact Hl |].
        apply (freshLevel_mono done); [| exact Hfresh].
        intros x Hx. apply elem_of_app. auto.
    + destruct Hrender as [Heq Hnone]. split; [exact Heq |].
      intros st0 Hin0. apply elem_of_app in Hin0 as [Hin0 | Hin0].
      * apply Hnone. exact Hin0.
      * apply list_elem_of_singleton in Hin0 as ->.
        unfold accepts. rewrite Hok. discriminate.
Qed.

(** No stripe is accepted while the sprite has no width on the screen:
    the loop divides by [spriteWidth] only when it is not zero. *)
Lemma spriteWidth_nonzero (stripe : Z) :
  accepts c b stripe -> stripe ∈ range (drawStartX b) (drawEndX b) ->
  spriteWidth b <> 0.
Proof.
  intros Hacc Hin Hzero.
  apply visible_true in Hacc as (_ & Hstripe & _).
  apply elem_of_range in Hin.
  pose proof (int_of_float_range indefinite
    (float_of_int (w c) / 2 * (1 + transformX b / transformY b))%float) as Hssx.
  change (int_of_float indefinite _) with (spriteScreenX b) in Hssx.
  change (drawStartX b) with
    (let dsx := int_add (Z.quot (int_neg (spriteWidth b)) 2) (spriteScreenX b) in
     if dsx <? 0 then 0 else dsx) in Hin.
  change (drawEndX b) with
    (let dex := int_add (Z.quot (spriteWidth b) 2) (spriteScreenX b) in
     if dex >=? w c then int_sub (w c) 1 else dex) in Hin.
  rewrite Hzero in Hin. cbv zeta in Hin.
  change (Z.quot (int_neg 0) 2) with 0 in Hin.
  change (Z.quot 0 2) with 0 in Hin.
  unfold int_add in Hin. rewrite Z.add_0_l, wrap_id in Hin by exact Hssx.
  destruct (Z.ltb_spec (spriteScreenX b) 0),
    (Z.geb_spec (spriteScreenX b) (w c)); lia.
Qed.

Lemma texColumn_returns (stripe : Z) :
  spriteWidth b <> 0 -> exists texX, texColumn c b stripe = Ok texX.
Proof.
  intros Hsw. unfold texColumn, int_div.
  destruct (Z.eqb_spec (spriteWidth b) 0); [contradiction |].
  simpl. eauto.
Qed.

Lemma texRow_returns (y : Z) :
  spriteWidth b <> 0 -> exists t, texRow c b y = Ok t.
Proof.
  intros Hsw. change (spriteWidth b) with (spriteHeight b) in Hsw.
  unfold texRow, int_div.
  destruct (Z.eqb_spec (spriteHeight b) 0); [contradiction |].
  simpl. eauto.
Qed.

Section Total.

Hypothesis sprites_wf : wellFormedSprites SliceView c spriteOrdIndex.

Lemma visible_returns (stripe : Z) : exists ok, visible c b stripe = Ok ok.
Proof.
  destruct sprites_wf as (_ & Hz & _). unfold visible.
  destruct (0 <? transformY b)%float; simpl; [| eauto].
  destruct (Z.gtb_spec stripe 0); simpl; [| eauto].
  destruct (Z.ltb_spec stripe (w c)); simpl; [| eauto].
  destruct (index_in_range (zBuffer c) stripe) as [z Hzb]; [lia |].
  rewrite Hzb. simpl. eauto.
Qed.

Lemma spriteLevelOf_returns (done : list Z) (s : Stripes) (stripe : Z) :
  Inv done s -> accepts c b stripe ->
  exists ol s1,
    spriteLevelOf SliceView MakeSlices c (GetTexture sp) spriteOrdIndex s
    = Ok (ol, s1).
Proof.
  intros (Hlen & _ & _) Hacc. destruct sprites_wf as (Hslot & _ & _).
  apply visible_true in Hacc as (_ & Hstripe & _).
  unfold spriteLevelOf. destruct (renderSprite s).
  - destruct (index_in_range (lvls s) spriteOrdIndex) as [l Hl]; [lia |].
    rewrite Hl. simpl. eauto.
  - unfold makeSpriteLevel, make.
    destruct (Z.ltb_spec (w c) 0); [lia |]. simpl.
    rewrite store_Ok by lia. simpl.
    destruct (ebiten.Size (GetTexture sp)). eauto.
Qed.

Lemma writeStripe_returns (done : list Z) (s1 : Stripes) (l : Level)
    (stripe texX texStartY texEndY : Z) :
  Inv done s1 -> renderSprite s1 = true ->
  lvls s1 !! slot = Some (Some l) -> accepts c b stripe ->
  0 <= texX < Z.of_nat (length (spriteSlices s1)) ->
  exists s',
    writeStripe indefinite c b (GetTexture sp) spriteOrdIndex stripe texX
      texStartY texEndY (Some l) s1 = Ok s'.
Proof.
  intros (Hlen & _ & Hrender) Hr Hl Hacc HtexX. rewrite Hr in Hrender.
  destruct Hrender as (_ & l' & Hl' & Hfresh).
  rewrite Hl in Hl'. injection Hl' as <-.
  destruct Hfresh as (HCts & HSt & HCurr & HSv & _).
  destruct sprites_wf as (Hslot & _ & Hview).
  apply visible_true in Hacc as (_ & Hstripe & _).
  unfold writeStripe. simpl.
  destruct (index_in_range (spriteSlices s1) texX HtexX) as [r Hr0].
  rewrite Hr0. simpl.
  rewrite (store_Ok (spriteSlices s1) texX) by exact HtexX. simpl.
  rewrite (store_Ok (Cts l) stripe) by lia. simpl.
  rewrite (store_Ok (CurrTex l) stripe) by lia. simpl.
  destruct (index_in_range (Sv l) stripe) as [v Hv]; [lia |].
  rewrite Hv. simpl.
  rewrite (store_Ok (Sv l) stripe) by lia. simpl.
  rewrite (store_Ok (St l) stripe) by lia. simpl.
  rewrite (store_Ok (lvls s1) spriteOrdIndex) by lia. simpl. eauto.
Qed.

(** With the slices of the camera as long as the viewport is wide, the
    body of the stripe loop never panics. *)
Lemma castStripe_returns (done : list Z) (s : Stripes) (stripe : Z) :
  stripe ∈ range (drawStartX b) (drawEndX b) -> Inv done s ->
  exists s', body s stripe = Ok s'.
Proof.
  intros Hin HI. unfold castStripe.
  destruct (visible_returns stripe) as [ok Hok]. rewrite Hok. cbn [mbind res_bind orb].
  destruct ok; [| eauto].
  assert (Hacc : accepts c b stripe) by exact Hok.
  destruct (spriteLevelOf_returns done s stripe HI Hacc) as (ol & s1 & Hlvl).
  rewrite Hlvl. cbn [mbind res_bind orb].
  destruct (spriteLevelOf_inv done s s1 stripe ol HI Hacc Hlvl)
    as (Hr & HI1 & l & -> & Hl).
  pose proof (spriteWidth_nonzero stripe Hacc Hin) as Hsw.
  destruct (texColumn_returns stripe Hsw) as [texX HtexX].
  rewrite HtexX. cbn [mbind res_bind orb].
  destruct (Z.ltb_spec texX 0); cbn [mbind res_bind orb]; [eauto |].
  destruct (Z.geb_spec texX (Z.of_nat (length (spriteSlices s1)))); cbn [mbind res_bind orb];
    [eauto |].
  destruct (texRow_returns (drawStartY b) Hsw) as [texStartY HtexStartY].
  rewrite HtexStartY. cbn [mbind res_bind orb].
  destruct (texRow_returns (int_sub (drawEndY b) 1) Hsw) as [texEndY HtexEndY].
  rewrite HtexEndY. cbn [mbind res_bind orb].
  destruct ((texStartY <? 0) || (texStartY >=? texEndY)
            || (texEndY >=? texWidth c)); [eauto |].
  apply (writeStripe_returns (done ++ [stripe])); try assumption. lia.
Qed.

End Total.

(** A slice in a fresh level stands at an accepted stripe. *)
Lemma freshLevel_slice (done : list Z) (l : Level) (x : nat)
    (r : image.Rectangle) :
  freshLevel SliceView c b done l -> Cts l !! x = Some (Some r) ->
  exists stripe, stripe ∈ done /\ x = Z.to_nat stripe /\ accepts c b stripe.
Proof.
  intros (_ & _ & _ & _ & Hcols) Hx.
  destruct (Hcols x) as [Hw | (_ & A2 & _)]; [exact Hw |].
  rewrite Hx in A2. simpl in A2. symmetry in A2.
  apply lookup_replicate in A2 as [[=] _].
Qed.

Lemma stripesInv_init : Inv [] {| renderSprite := false; lvls := spriteLvls c;
                                  spriteSlices := [] |}.
Proof.
  split; [reflexivity |]. split; [reflexivity |]. simpl.
  split; [reflexivity |]. intros stripe Hin. apply elem_of_nil in Hin as [].
Qed.

(** What [castSprite] leaves in the camera: every field but the slot of
    the sprite is as before; the slot holds a fresh level when a stripe of
    the box was accepted and [nil] when none was. *)
Lemma castSprite_inv (o : Z) (c' : Camera) :
  index (spriteOrder c) spriteOrdIndex = Ok o -> index (sprite c) o = Ok sp ->
  castSprite indefinite SliceView MakeSlices c spriteOrdIndex = Ok c' ->
  zBuffer c' = zBuffer c
  /\ length (spriteLvls c') = length (spriteLvls c)
  /\ (forall j, j <> slot -> spriteLvls c' !! j = spriteLvls c !! j)
  /\ (((exists stripe, stripe ∈ range (drawStartX b) (drawEndX b)
                       /\ accepts c b stripe)
       /\ exists l, spriteLvls c' !! slot = Some (Some l)
                    /\ freshLevel SliceView c b
                         (range (drawStartX b) (drawEndX b)) l)
      \/ ((forall stripe, stripe ∈ range (drawStartX b) (drawEndX b) ->
                          ~ accepts c b stripe)
          /\ spriteLvls c' !! slot = Some None)).
Proof.
  intros Ho Hsp. unfold castSprite. rewrite Ho. cbn [mbind res_bind].
  rewrite Hsp. cbn [mbind res_bind]. intros H1.
  apply bind_Ok in H1 as (s & Hloop & H1).
  apply bind_Ok in H1 as (ls & Hls & [= <-]). simpl.
  pose proof (forEach_invariant body Inv (fun _ => True)
                (range (drawStartX b) (drawEndX b))
                (fun done s0 x s1 _ => castStripe_inv done s0 s1 x)
                ltac:(apply Forall_forall; auto)
                [] _ s stripesInv_init Hloop) as (Hlen & Hother & Hrender).
  rewrite app_nil_l in Hrender. split; [reflexivity |].
  destruct (renderSprite s).
  - injection Hls as <-. split; [exact Hlen |]. split; [exact Hother |].
    left. exact Hrender.
  - destruct Hrender as [Heq Hnone]. rewrite Heq in Hls.
    apply store_inv in Hls as [Hslot ->].
    split; [apply length_insert |].
    split; [intros j Hj; apply list_lookup_insert_ne; congruence |].
    right. split; [exact Hnone |]. apply list_lookup_insert_eq. lia.
Qed.

(** With the slices of the camera as long as the viewport is wide,
    [castSprite] does not panic. *)
Lemma castSprite_returns (o : Z) :
  wellFormedSprites SliceView c spriteOrdIndex ->
  index (spriteOrder c) spriteOrdIndex = Ok o -> index (sprite c) o = Ok sp ->
  exists c', castSprite indefinite SliceView MakeSlices c spriteOrdIndex = Ok c'.
Proof.
  intros Hwf Ho Hsp. unfold castSprite. rewrite Ho. cbn [mbind res_bind].
  rewrite Hsp. cbn [mbind res_bind].
  assert (Hall : Forall (fun x => x ∈ range (drawStartX b) (drawEndX b))
                   (range (drawStartX b) (drawEndX b)))
    by (apply Forall_forall; auto).
  destruct (forEach_returns body Inv _ _
              (fun done s0 x s1 _ => castStripe_inv done s0 s1 x)
              (fun done s0 x Hx => castStripe_returns Hwf done s0 x Hx)
              Hall [] _ stripesInv_init) as [s Hloop].
  rewrite Hloop. cbn [mbind res_bind].
  pose proof (forEach_invariant body Inv _ _
                (fun done s0 x s1 _ => castStripe_inv done s0 s1 x)
                Hall [] _ s stripesInv_init Hloop) as (Hlen & _ & _).
  destruct (renderSprite s); cbn [mbind res_bind]; [eauto |].
  unfold clearSpriteLevel. destruct Hwf as (Hslot & _).
  rewrite store_Ok by lia. cbn [mbind res_bind]. eauto.
Qed.

End SpriteCaster.

(** C3: [castSprite] leaves a slice for the sprite at column [x] only
    if the sprite is in front of the camera ([transformY > 0]) and nearer
    than the wall of that column ([transformY < zBuffer[x]]); so a sprite
    with [transformY <= 0] has no slice at any column, and one with
    [transformY >= zBuffer[x]] has none at column [x]. *)
Theorem castSprite_slice_only_if_visible :
  forall (indefinite : float -> Z)
         (SliceView MakeSlices : Z -> Z -> list image.Rectangle)
         (c c' : Camera) (spriteOrdIndex o : Z) (sp : Sprite)
         (lvl : Level) (x : Z) (r : image.Rectangle),
    index (spriteOrder c) spriteOrdIndex = Ok o ->
    index (sprite c) o = Ok sp ->
    castSprite indefinite SliceView MakeSlices c spriteOrdIndex = Ok c' ->
    spriteLvls c' !! Z.to_nat spriteOrdIndex = Some (Some lvl) ->
    0 <= x -> Cts lvl !! Z.to_nat x = Some (Some r) ->
    exists z,
      zBuffer c !! Z.to_nat x = Some z
      /\ (0 <? transformY (project indefinite c sp))%float = true
      /\ (transformY (project indefinite c sp) <? z)%float = true
      /\ (transformY (project indefinite c sp) <=? 0)%float = false
      /\ (z <=? transformY (project indefinite c sp))%float = false.
Proof.
  intros indefinite SliceView MakeSlices c c' i o sp lvl x r Ho Hsp Hrun Hlvl Hx Hr.
  destruct (castSprite_inv indefinite SliceView MakeSlices c i sp o c' Ho Hsp Hrun)
    as (_ & _ & _ & [(_ & l & Hl & Hfresh) | (_ & Hnil)]); [| congruence].
  rewrite Hlvl in Hl. injection Hl as <-.
  destruct (freshLevel_slice indefinite SliceView c sp _ lvl _ r Hfresh Hr)
    as (stripe & _ & Heq & Hacc).
  apply visible_true in Hacc as (Hfront & Hstripe & z & Hz & Hnear).
  assert (x = stripe) as -> by lia.
  exists z. repeat (split; [assumption |]). split.
  - destruct (_ <=? 0)%float eqn:Hle; [| reflexivity].
    apply leb_not_ltb in Hle. congruence.
  - destruct (z <=? _)%float eqn:Hle; [| reflexivity].
    apply leb_not_ltb in Hle. congruence.
Qed.

(** C5: on a camera whose slices fit, [castSprite] returns, and the slot
    of the sprite then holds a level if and only if a stripe of the
    bounding box was accepted, and [nil] if and only if none was; a level
    in the slot is the one allocated in this call: outside the accepted
    stripes it is as [makeSpriteLevel] made it, whatever the slot held
    before. *)
Theorem castSprite_level_iff_accepted :
  forall (indefinite : float -> Z)
         (SliceView MakeSlices : Z -> Z -> list image.Rectangle)
         (c : Camera) (spriteOrdIndex o : Z) (sp : Sprite),
    wellFormedSprites SliceView c spriteOrdIndex ->
    index (spriteOrder c) spriteOrdIndex = Ok o ->
    index (sprite c) o = Ok sp ->
    exists c',
      castSprite indefinite SliceView MakeSlices c spriteOrdIndex = Ok c'
      /\ ((exists stripe,
              drawStartX (project indefinite c sp) <= stripe
                < drawEndX (project indefinite c sp)
              /\ accepts c (project indefinite c sp) stripe)
          <-> exists l, spriteLvls c' !! Z.to_nat spriteOrdIndex = Some (Some l))
      /\ ((forall stripe,
              drawStartX (project indefinite c sp) <= stripe
                < drawEndX (project indefinite c sp) ->
              ~ accepts c (project indefinite c sp) stripe)
          <-> spriteLvls c' !! Z.to_nat spriteOrdIndex = Some None)
      /\ (forall l,
             spriteLvls c' !! Z.to_nat spriteOrdIndex = Some (Some l) ->
             freshLevel SliceView c (project indefinite c sp)
               (range (drawStartX (project indefinite c sp))
                      (drawEndX (project indefinite c sp))) l).
Proof.
  intros indefinite SliceView MakeSlices c i o sp Hwf Ho Hsp.
  destruct (castSprite_returns indefinite SliceView MakeSlices c i sp o Hwf Ho Hsp)
    as [c' Hrun].
  exists c'. split; [exact Hrun |].
  destruct (castSprite_inv indefinite SliceView MakeSlices c i sp o c' Ho Hsp Hrun)
    as (_ & _ & _ & [((stripe & Hin & Hacc) & l & Hl & Hfresh) | (Hnone & Hnil)]).
  - apply elem_of_range in Hin. split; [| split].
    + split; [eauto | eauto].
    + split; [| congruence].
      intros Hno. exfalso. exact (Hno stripe Hin Hacc).
    + intros l' Hl'. rewrite Hl in Hl'. injection Hl' as <-. exact Hfresh.
  - split; [| split].
    + split; [| intros [l Hl]; congruence].
      intros (stripe & Hin & Hacc). exfalso.
      apply (Hnone stripe); [apply elem_of_range; exact Hin | exact Hacc].
    + split; [auto |].
      intros _ stripe Hin. apply Hnone, elem_of_range. exact Hin.
    + intros l Hl. congruence.
Qed.

Lemma castSprite_slice_only_if_visible_witness :
  exists z,
    zBuffer (spriteScene 18.5 6.5 4.5) !! Z.to_nat 3 = Some z
    /\ (0 <? 2)%float = true /\ (2 <? z)%float = true
    /\ (2 <=? 0)%float = false /\ (z <=? 2)%float = false.
Proof.
  eapply (castSprite_slice_only_if_visible indefinite_amd64 columns columns
            (spriteScene 18.5 6.5 4.5) _ 0 0
            {| sprite_pos := mkVector2 6.5 4.5;
               GetTexture := {| ebiten.Size := (4, 4) |} |} _ 3).
  - reflexivity.
  - reflexivity.
  - vm_compute. reflexivity.
  - vm_compute. reflexivity.
  - lia.
  - vm_compute. reflexivity.
Defined.

Lemma castSprite_level_iff_accepted_witness :
  exists c',
    castSprite indefinite_amd64 columns columns (spriteScene 18.5 6.5 4.5) 0
    = Ok c'.
Proof.
  destruct (castSprite_level_iff_accepted indefinite_amd64 columns columns
              (spriteScene 18.5 6.5 4.5) 0 0
              {| sprite_pos := mkVector2 6.5 4.5;
                 GetTexture := {| ebiten.Size := (4, 4) |} |})
    as (c' & Hrun & _).
  - repeat split; vm_compute; congruence.
  - reflexivity.
  - reflexivity.
  - exists c'. exact Hrun.
Defined.

(** ** The sprite sorter *)

Lemma countLt_swap (x a b : float) (l1 l2 : list float) :
  countLt x (l1 ++ b :: a :: l2) = countLt x (l1 ++ a :: b :: l2).
Proof. induction l1 as [| y l1 IH]; simpl; lia. Qed.

(** Exchanging an ascending neighbour pair removes one ascent. *)
Lemma ascents_swap (a b : float) (l1 l2 : list float) :
  (a <? b)%float = true ->
  S (ascents (l1 ++ b :: a :: l2)) = ascents (l1 ++ a :: b :: l2).
Proof.
  intros Hab. induction l1 as [| y l1 IH]; simpl.
  - rewrite Hab, (ltb_asym _ _ Hab). lia.
  - rewrite (countLt_swap y a b). lia.
Qed.

Lemma swap_adjacent {A} (d : list A) (i : nat) (a b : A) :
  d !! i = Some a -> d !! S i = Some b ->
  d = take i d ++ a :: b :: drop (S (S i)) d
  /\ <[S i := a]> (<[i := b]> d) = take i d ++ b :: a :: drop (S (S i)) d.
Proof.
  revert i. induction d as [| x d IH]; intros [| i] Ha Hb; try discriminate.
  - destruct d as [| y d]; [discriminate |].
    injection Ha as ->. injection Hb as ->. simpl. rewrite drop_0. auto.
  - simpl in Ha, Hb. destruct (IH i Ha Hb) as [H1 H2]. simpl. split.
    + f_equal. exact H1.
    + f_equal. exact H2.
Qed.

Lemma quot_neg_nonpos (v : Z) : v < 0 -> Z.quot v 13 <= 0.
Proof.
  intros Hv. replace v with (- - v) by lia.
  rewrite Z.quot_opp_l by lia.
  pose proof (Z.quot_pos (- v) 13). lia.
Qed.

Lemma nextGap_lower (g : Z) : 1 <= nextGap g.
Proof.
  unfold nextGap. set (q := Z.quot _ 13).
  destruct ((q =? 9) || (q =? 10)); [simpl; lia |].
  destruct (Z.ltb_spec q 1); lia.
Qed.

Lemma nextGap_upper (g : Z) : nextGap g <= max_int.
Proof.
  unfold nextGap, int_mul. pose proof (wrap_range (g * 10)) as Hw.
  set (v := wrap (g * 10)) in *. unfold min_int, max_int in *.
  assert (Z.quot v 13 <= 2 ^ 63 - 1).
  { destruct (Z.le_gt_cases 0 v).
    - rewrite Z.quot_div_nonneg by lia.
      apply Z.div_le_upper_bound; lia.
    - pose proof (quot_neg_nonpos v). lia. }
  destruct ((Z.quot v 13 =? 9) || (Z.quot v 13 =? 10)); [simpl; lia |].
  destruct (Z.ltb_spec (Z.quot v 13) 1); lia.
Qed.

(** While the gap exceeds 1 it shrinks, also when [gap * 10] wraps. *)
Lemma nextGap_shrinks (g : Z) : 2 <= g -> nextGap g < g.
Proof.
  intros Hg. unfold nextGap, int_mul.
  pose proof (wrap_range (g * 10)) as Hw.
  destruct (Z.le_gt_cases (g * 10) max_int) as [Hsmall | Hbig].
  - rewrite wrap_id by (unfold min_int, max_int in *; lia).
    rewrite Z.quot_div_nonneg by lia.
    assert (g * 10 / 13 < g) by (apply Z.div_lt_upper_bound; lia).
    destruct (Z.eqb_spec (g * 10 / 13) 9) as [H9 | H9];
      [| destruct (Z.eqb_spec (g * 10 / 13) 10) as [H10 | H10]]; simpl.
    + pose proof (Z.mul_div_le (g * 10) 13 ltac:(lia)). lia.
    + pose proof (Z.mul_div_le (g * 10) 13 ltac:(lia)). lia.
    + destruct (Z.ltb_spec (g * 10 / 13) 1); lia.
  - set (v := wrap (g * 10)) in *. unfold min_int, max_int in *.
    assert (Z.quot v 13 < g).
    { destruct (Z.le_gt_cases 0 v).
      - rewrite Z.quot_div_nonneg by lia.
        apply Z.div_lt_upper_bound; lia.
      - pose proof (quot_neg_nonpos v). lia. }
    destruct ((Z.quot v 13 =? 9) || (Z.quot v 13 =? 10)); [simpl; lia |].
    destruct (Z.ltb_spec (Z.quot v 13) 1); lia.
Qed.

Section Pass.

Variable n : nat.
Hypothesis n_int : Z.of_nat n <= max_int.
Variable gap : Z.
Hypothesis gap_range : 1 <= gap <= max_int.

(** One comparison inside the slices: the pair is exchanged in both
    slices exactly when it ascends. *)
Lemma combCompare_cases (order : list Z) (dist : list float) (swapped : bool)
    (i : Z) :
  length order = n -> length dist = n ->
  0 <= i < Z.of_nat n - gap ->
  exists a b oi oj,
    dist !! Z.to_nat i = Some a /\ dist !! Z.to_nat (i + gap) = Some b
    /\ order !! Z.to_nat i = Some oi /\ order !! Z.to_nat (i + gap) = Some oj
    /\ combCompare gap (order, dist, swapped) i
       = Ok (if (a <? b)%float
             then (<[Z.to_nat (i + gap) := oi]> (<[Z.to_nat i := oj]> order),
                   <[Z.to_nat (i + gap) := a]> (<[Z.to_nat i := b]> dist),
                   true)
             else (order, dist, swapped)).
Proof.
  intros Ho Hd Hi.
  destruct (lookup_lt_is_Some_2 dist (Z.to_nat i)) as [a Ha]; [lia |].
  destruct (lookup_lt_is_Some_2 dist (Z.to_nat (i + gap))) as [b Hb]; [lia |].
  destruct (lookup_lt_is_Some_2 order (Z.to_nat i)) as [oi Hoi]; [lia |].
  destruct (lookup_lt_is_Some_2 order (Z.to_nat (i + gap))) as [oj Hoj]; [lia |].
  exists a, b, oi, oj. repeat (split; [assumption |]).
  unfold combCompare, int_add.
  rewrite (wrap_id (i + gap)) by (unfold min_int, max_int in *; lia).
  assert (Hia : index dist i = Ok a) by (apply index_Ok; split; [lia | exact Ha]).
  assert (Hib : index dist (i + gap) = Ok b)
    by (apply index_Ok; split; [lia | exact Hb]).
  assert (Hioi : index order i = Ok oi)
    by (apply index_Ok; split; [lia | exact Hoi]).
  assert (Hioj : index order (i + gap) = Ok oj)
    by (apply index_Ok; split; [lia | exact Hoj]).
  rewrite Hia. cbn [mbind res_bind]. rewrite Hib. cbn [mbind res_bind].
  destruct (a <? b)%float; [| reflexivity].
  rewrite (store_Ok dist i) by lia. cbn [mbind res_bind].
  rewrite (store_Ok (<[Z.to_nat i := b]> dist) (i + gap))
    by (rewrite length_insert; lia).
  cbn [mbind res_bind]. rewrite Hioi. cbn [mbind res_bind].
  rewrite Hioj. cbn [mbind res_bind].
  rewrite (store_Ok order i) by lia. cbn [mbind res_bind].
  rewrite (store_Ok (<[Z.to_nat i := oj]> order) (i + gap))
    by (rewrite length_insert; lia).
  reflexivity.
Qed.

Variable order0 : list Z.
Variable dist0 : list float.

Abbreviation PassInv := (passInv n gap order0 dist0).

Lemma combCompare_inv (done : list Z) (s s' : list Z * list float * bool)
    (i : Z) :
  0 <= i < Z.of_nat n - gap -> PassInv done s ->
  combCompare gap s i = Ok s' -> PassInv (done ++ [i]) s'.
Proof.
  destruct s as [[order dist] swapped].
  intros Hi ((Ho & Hd & Hperm) & Hasc & Hsame).
  destruct (combCompare_cases order dist swapped i Ho Hd Hi)
    as (a & b & oi & oj & Ha & Hb & Hoi & Hoj & ->).
  destruct (a <? b)%float eqn:Hab; intros [= <-].
  - split; [| split].
    + split; [rewrite !length_insert; exact Ho |].
      split; [rewrite !length_insert; exact Hd |].
      rewrite <- Hperm.
      rewrite <- !(insert_zip_with pair).
      apply Permutation_insert_swap.
      * apply lookup_zip_with_Some. eauto.
      * apply lookup_zip_with_Some. eauto.
    + intros ->. replace (Z.to_nat (i + 1)) with (S (Z.to_nat i)) in * by lia.
      destruct (swap_adjacent dist (Z.to_nat i) a b Ha Hb) as [H1 H2].
      rewrite H2.
      pose proof (ascents_swap a b (take (Z.to_nat i) dist)
                    (drop (S (S (Z.to_nat i))) dist) Hab) as H3.
      rewrite <- H1 in H3. specialize (Hasc eq_refl).
      destruct swapped; lia.
    + discriminate.
  - split; [| split].
    + repeat split; assumption.
    + exact Hasc.
    + intros Hsw. destruct (Hsame Hsw) as (-> & -> & Hdone).
      repeat split. intros j Hj. apply elem_of_app in Hj as [Hj | Hj].
      * apply Hdone. exact Hj.
      * apply list_elem_of_singleton in Hj as ->. eauto.
Qed.

Lemma combCompare_returns (done : list Z) (s : list Z * list float * bool)
    (i : Z) :
  0 <= i < Z.of_nat n - gap -> PassInv done s ->
  exists s', combCompare gap s i = Ok s'.
Proof.
  destruct s as [[order dist] swapped].
  intros Hi ((Ho & Hd & _) & _).
  destruct (combCompare_cases order dist swapped i Ho Hd Hi)
    as (a & b & oi & oj & _ & _ & _ & _ & ->). eauto.
Qed.

(** A whole pass over slices of length [n]. *)
Lemma pass_spec :
  length order0 = n -> length dist0 = n ->
  exists order dist swapped,
    forEach (combCompare gap) (order0, dist0, false)
      (range 0 (int_sub (Z.of_nat n) gap)) = Ok (order, dist, swapped)
    /\ paired n order0 dist0 order dist
    /\ (swapped = false ->
        order = order0 /\ dist = dist0 /\ (gap = 1 -> adjSorted dist0))
    /\ (gap = 1 -> swapped = true -> (ascents dist < ascents dist0)%nat).
Proof.
  intros Ho Hd.
  assert (Hsub : int_sub (Z.of_nat n) gap = Z.of_nat n - gap).
  { apply wrap_id. unfold min_int, max_int in *. lia. }
  rewrite Hsub.
  assert (Hall : Forall (fun i => 0 <= i < Z.of_nat n - gap)
                   (range 0 (Z.of_nat n - gap))).
  { apply Forall_forall. intros i Hin. apply elem_of_range in Hin. exact Hin. }
  assert (Hinit : PassInv [] (order0, dist0, false)).
  { split; [split; [exact Ho | split; [exact Hd | reflexivity]] |].
    split; [simpl; lia |].
    intros _. repeat split. intros i Hin. apply elem_of_nil in Hin as []. }
  destruct (forEach_returns (combCompare gap) PassInv _ _
              (fun done s i s' Hi => combCompare_inv done s s' i Hi)
              (fun done s i Hi => combCompare_returns done s i Hi)
              Hall [] _ Hinit) as [[[order dist] swapped] Hrun].
  pose proof (forEach_invariant (combCompare gap) PassInv _ _
                (fun done s i s' Hi => combCompare_inv done s s' i Hi)
                Hall [] _ _ Hinit Hrun) as (Hpaired & Hasc & Hsame).
  exists order, dist, swapped. split; [exact Hrun |].
  split; [exact Hpaired |]. split.
  - intros Hsw. destruct (Hsame Hsw) as (-> & -> & Hdone).
    repeat split. intros ->. intros i a b Ha Hb.
    destruct (Hdone (Z.of_nat i)) as (a' & b' & Ha' & Hb' & Hlt).
    { apply elem_of_range. apply lookup_lt_Some in Hb. lia. }
    replace (Z.to_nat (Z.of_nat i + 1)) with (S i) in Hb' by lia.
    rewrite Nat2Z.id in Ha'. congruence.
  - intros Hg ->. specialize (Hasc Hg). lia.
Qed.

End Pass.

Lemma combLoop_S (fuel : nat) (amount gap : Z) (swapped : bool)
    (order : list Z) (dist : list float) :
  (gap >? 1) || swapped = true ->
  combLoop (S fuel) amount gap swapped order dist
  = forEach (combCompare (nextGap gap)) (order, dist, false)
      (range 0 (int_sub amount (nextGap gap)))
    ≫= fun '(order, dist, swapped) =>
          combLoop fuel amount (nextGap gap) swapped order dist.
Proof. intros H. simpl. rewrite H. reflexivity. Qed.

Lemma combLoop_exit (fuel : nat) (amount gap : Z) (swapped : bool)
    (order : list Z) (dist : list float) :
  (gap >? 1) || swapped = false ->
  combLoop fuel amount gap swapped order dist = Ok (order, dist).
Proof. intros H. destruct fuel; simpl; rewrite H; reflexivity. Qed.

(** More fuel does not change an answer. *)
Lemma combLoop_fuel_mono (n m : nat) (amount gap : Z) (swapped : bool)
    (order : list Z) (dist : list float) (r : list Z * list float) :
  combLoop n amount gap swapped order dist = Ok r -> (n <= m)%nat ->
  combLoop m amount gap swapped order dist = Ok r.
Proof.
  revert m gap swapped order dist.
  induction n as [| n IH]; intros m gap swapped order dist.
  - destruct ((gap >? 1) || swapped) eqn:Hc.
    + simpl. rewrite Hc. discriminate.
    + rewrite !combLoop_exit by exact Hc. auto.
  - destruct ((gap >? 1) || swapped) eqn:Hc.
    + intros H Hm. destruct m as [| m]; [lia |].
      rewrite combLoop_S in * by exact Hc.
      apply bind_Ok in H as ([[o d] sw] & Hpass & H). rewrite Hpass.
      cbn [mbind res_bind]. apply IH; [exact H | lia].
    + rewrite !combLoop_exit by exact Hc. auto.
Qed.

Lemma paired_trans (n : nat) (o0 o1 o2 : list Z) (d0 d1 d2 : list float) :
  paired n o0 d0 o1 d1 -> paired n o1 d1 o2 d2 -> paired n o0 d0 o2 d2.
Proof.
  intros (_ & _ & H1) (Ho & Hd & H2). repeat split; try assumption.
  rewrite H2. exact H1.
Qed.

Section Sort.

Variable n : nat.
Hypothesis n_int : Z.of_nat n <= max_int.
Variable order0 : list Z.
Variable dist0 : list float.

Abbreviation sortedFrom gap swapped order dist :=
  (exists fuel0, forall fuel, (fuel0 <= fuel)%nat ->
     exists order' dist',
       combLoop fuel (Z.of_nat n) gap swapped order dist = Ok (order', dist')
       /\ paired n order0 dist0 order' dist' /\ adjSorted dist').

(** The passes of gap 1: each one that exchanges a pair removes an
    ascent, so there are at most as many as ascents, and one more. *)
Lemma bubble_phase (k : nat) :
  forall gap swapped order dist,
    nextGap gap = 1 -> (gap >? 1) || swapped = true ->
    paired n order0 dist0 order dist -> (ascents dist <= k)%nat ->
    sortedFrom gap swapped order dist.
Proof.
  induction k as [| k IH]; intros gap swapped order dist Hg Hc Hp Hk;
    pose proof Hp as (Ho & Hd & _);
    (destruct (pass_spec n n_int 1 ltac:(unfold max_int; lia) order dist Ho Hd)
      as (o1 & d1 & sw1 & Hrun & Hp1 & Hsame & Hdec));
    pose proof (paired_trans _ _ _ _ _ _ _ Hp Hp1) as Hp01;
    destruct sw1.
  - specialize (Hdec eq_refl eq_refl). lia.
  - destruct (Hsame eq_refl) as (-> & -> & Hsorted).
    exists 1%nat. intros [| fuel] Hfuel; [lia |].
    rewrite combLoop_S, Hg, Hrun by exact Hc. cbn [mbind res_bind].
    rewrite combLoop_exit by reflexivity.
    exists order, dist. split; [reflexivity |].
    split; [exact Hp | exact (Hsorted eq_refl)].
  - specialize (Hdec eq_refl eq_refl).
    destruct (IH 1 true o1 d1 eq_refl eq_refl Hp01 ltac:(lia)) as [fuel0 Hfuel0].
    exists (S fuel0). intros [| fuel] Hfuel; [lia |].
    rewrite combLoop_S, Hg, Hrun by exact Hc. cbn [mbind res_bind].
    apply Hfuel0. lia.
  - destruct (Hsame eq_refl) as (-> & -> & Hsorted).
    exists 1%nat. intros [| fuel] Hfuel; [lia |].
    rewrite combLoop_S, Hg, Hrun by exact Hc. cbn [mbind res_bind].
    rewrite combLoop_exit by reflexivity.
    exists order, dist. split; [reflexivity |].
    split; [exact Hp | exact (Hsorted eq_refl)].
Qed.

(** The passes of wider gaps: the gap shrinks until it is 1. *)
Lemma shrink_phase (m : nat) :
  forall gap swapped order dist,
    (Z.to_nat gap <= m)%nat -> 2 <= gap ->
    paired n order0 dist0 order dist ->
    sortedFrom gap swapped order dist.
Proof.
  induction m as [| m IH]; intros gap swapped order dist Hm Hgap Hp; [lia |].
  assert (Hc : (gap >? 1) || swapped = true).
  { destruct (Z.gtb_spec gap 1); [reflexivity | lia]. }
  destruct (Z.eq_dec (nextGap gap) 1) as [Hone | Hmore].
  - apply (bubble_phase (ascents dist)); auto.
  - pose proof (nextGap_lower gap). pose proof (nextGap_upper gap).
    pose proof (nextGap_shrinks gap Hgap).
    pose proof Hp as (Ho & Hd & _).
    destruct (pass_spec n n_int (nextGap gap) ltac:(lia) order dist Ho Hd)
      as (o1 & d1 & sw1 & Hrun & Hp1 & _).
    pose proof (paired_trans _ _ _ _ _ _ _ Hp Hp1) as Hp01.
    destruct (IH (nextGap gap) sw1 o1 d1 ltac:(lia) ltac:(lia) Hp01)
      as [fuel0 Hfuel0].
    exists (S fuel0). intros [| fuel] Hfuel; [lia |].
    rewrite combLoop_S, Hrun by exact Hc. cbn [mbind res_bind].
    apply Hfuel0. lia.
Qed.

End Sort.

(** [combSort] ends on slices of equal length, whatever they hold: the
    pairs are permuted together and no distance is followed by a larger
    one. *)
Lemma combSort_returns (order : list Z) (dist : list float) :
  length order = length dist -> Z.of_nat (length dist) <= max_int ->
  exists fuel0, forall fuel, (fuel0 <= fuel)%nat ->
    exists order' dist',
      combSort order dist (Z.of_nat (length dist)) fuel = Ok (order', dist')
      /\ paired (length dist) order dist order' dist' /\ adjSorted dist'.
Proof.
  intros Ho Hint. unfold combSort.
  assert (Hp : paired (length dist) order dist order dist)
    by (repeat split; [exact Ho | reflexivity]).
  destruct (Z.le_gt_cases 2 (Z.of_nat (length dist))) as [Hlong | Hshort].
  - apply (shrink_phase _ Hint order dist (length dist)); [lia | exact Hlong | exact Hp].
  - exists 0%nat. intros fuel _.
    rewrite combLoop_exit
      by (destruct (Z.gtb_spec (Z.of_nat (length dist)) 1); [lia | reflexivity]).
    exists order, dist. split; [reflexivity |]. split; [exact Hp |].
    intros i a b Ha Hb. apply lookup_lt_Some in Hb. lia.
Qed.

(** Without NaN, a slice in which no entry is followed by a larger one
    is in descending order. *)
Lemma adjSorted_descending (d : list float) :
  Forall (fun x => is_nan x = false) d -> adjSorted d ->
  forall i j a b, (i < j)%nat -> d !! i = Some a -> d !! j = Some b ->
                  (b <=? a)%float = true.
Proof.
  intros Hnan Hadj i j. revert i.
  induction j as [| j IH]; intros i a b Hij Ha Hb; [lia |].
  destruct (lookup_lt_is_Some_2 d j) as [x Hx];
    [apply lookup_lt_Some in Hb; lia |].
  pose proof (Hadj j x b Hx Hb) as Hxb.
  assert (Hbx : (b <=? x)%float = true).
  { apply not_ltb_leb; [| | exact Hxb].
    - exact (proj1 (Forall_lookup _ _) Hnan j x Hx).
    - exact (proj1 (Forall_lookup _ _) Hnan (S j) b Hb). }
  destruct (decide (i = j)) as [-> | Hne].
  - rewrite Ha in Hx. injection Hx as ->. exact Hbx.
  - apply (leb_trans b x a); [exact Hbx |].
    apply (IH i a x); [lia | exact Ha | exact Hx].
Qed.

(** C4 (amended): on an order slice and a distance slice of equal length
    [combSort] ends and has permuted the pairs together; when no distance
    is NaN the distances are then in descending order: for [i < j] the
    distance at [j] is at most the distance at [i]. *)
Theorem combSort_sorts_descending :
  forall (order : list Z) (dist : list float),
    length order = length dist -> Z.of_nat (length dist) <= max_int ->
    exists fuel0, forall fuel, (fuel0 <= fuel)%nat ->
      exists order' dist',
        combSort order dist (Z.of_nat (length dist)) fuel = Ok (order', dist')
        /\ zip order' dist' ≡ₚ zip order dist
        /\ (Forall (fun d => is_nan d = false) dist ->
            forall i j a b,
              (i < j)%nat -> dist' !! i = Some a -> dist' !! j = Some b ->
              (b <=? a)%float = true).
Proof.
  intros order dist Hlen Hint.
  destruct (combSort_returns order dist Hlen Hint) as [fuel0 Hfuel0].
  exists fuel0. intros fuel Hfuel.
  destruct (Hfuel0 fuel Hfuel) as (order' & dist' & Hrun & (Ho & Hd & Hperm) & Hadj).
  exists order', dist'. split; [exact Hrun |]. split; [exact Hperm |].
  intros Hnan. apply adjSorted_descending; [| exact Hadj].
  assert (Hdist : dist' ≡ₚ dist).
  { rewrite <- (snd_zip order' dist'), <- (snd_zip order dist) by lia.
    rewrite Hperm. reflexivity. }
  rewrite Hdist. exact Hnan.
Qed.

(** With NaN among the distances the order can fail also between
    numbers: the sprite at distance 2 stays behind the one at distance
    1. *)
Lemma combSort_nan_unsorted :
  ~ exists fuel order' dist',
      combSort [0; 1; 2; 3; 4] [1; nan; nan; nan; 2]%float 5 fuel
      = Ok (order', dist')
      /\ forall i j a b,
           (i < j)%nat -> dist' !! i = Some a -> dist' !! j = Some b ->
           (b <=? a)%float = true.
Proof.
  intros (fuel & order' & dist' & Hrun & Hsorted).
  assert (H3 : combSort [0; 1; 2; 3; 4] [1; nan; nan; nan; 2]%float 5 3
               = Ok ([0; 1; 2; 3; 4], [1; nan; nan; nan; 2]%float))
    by (vm_compute; reflexivity).
  assert (Hd : dist' = [1; nan; nan; nan; 2]%float).
  { destruct (le_lt_dec 3 fuel) as [Hge | Hlt].
    - unfold combSort in *.
      rewrite (combLoop_fuel_mono _ _ _ _ _ _ _ _ H3 Hge) in Hrun.
      congruence.
    - destruct fuel as [| [| [| fuel]]]; [| | | lia];
        vm_compute in Hrun; discriminate Hrun. }
  subst dist'.
  specialize (Hsorted 0%nat 4%nat 1%float 2%float ltac:(lia) eq_refl eq_refl).
  vm_compute in Hsorted. discriminate Hsorted.
Qed.

Lemma combSort_sorts_descending_witness :
  exists fuel0, forall fuel, (fuel0 <= fuel)%nat ->
    exists order' dist',
      combSort [0; 1; 2] [1; 3; 2]%float (Z.of_nat (length [1; 3; 2]%float)) fuel
      = Ok (order', dist')
      /\ zip order' dist' ≡ₚ zip [0; 1; 2] [1; 3; 2]%float
      /\ (Forall (fun d => is_nan d = false) [1; 3; 2]%float ->
          forall i j a b,
            (i < j)%nat -> dist' !! i = Some a -> dist' !! j = Some b ->
            (b <=? a)%float = true).
Proof.
  apply (combSort_sorts_descending [0; 1; 2] [1; 3; 2]%float).
  - reflexivity.
  - unfold max_int. simpl. lia.
Defined.

(** ** Lighting *)

Lemma Clamp_range (v : Z) : 0 <= Clamp v 0 255 <= 255.
Proof.
  unfold Clamp. destruct (Z.ltb_spec v 0); [lia |].
  destruct (Z.gtb_spec v 255); lia.
Qed.

Lemma Clamp_mono (u v : Z) : u <= v -> Clamp u 0 255 <= Clamp v 0 255.
Proof.
  unfold Clamp. intros Huv.
  destruct (Z.ltb_spec u 0), (Z.ltb_spec v 0); try lia;
    destruct (Z.gtb_spec u 255), (Z.gtb_spec v 255); lia.
Qed.

Lemma byte_Clamp (v : Z) : byte (Clamp v 0 255) = Clamp v 0 255.
Proof. unfold byte. pose proof (Clamp_range v). apply Z.mod_small. lia. Qed.

(** The binary64 computation stays in the range of a colour channel,
    whatever the distance (NaN and infinities included). *)
Lemma shade_range indefinite (channel : Z) (distance : float) :
  0 <= shade indefinite channel distance <= 255.
Proof. unfold shade. rewrite byte_Clamp. apply Clamp_range. Qed.

(** ** Rotation *)

Lemma rotation_norm (a : R) (v : R * R) :
  norm (rotation reals (cos a) (sin a) v) = norm v.
Proof.
  unfold norm, rotation. simpl. f_equal.
  pose proof (sin2_cos2 a) as H. unfold Rsqr in H.
  transitivity ((fst v * fst v + snd v * snd v)
                * (sin a * sin a + cos a * cos a))%R; [ring |].
  rewrite H. ring.
Qed.

Lemma rotation_cross (a : R) (p d : R * R) :
  cross (rotation reals (cos a) (sin a) p) (rotation reals (cos a) (sin a) d)
  = cross p d.
Proof.
  unfold cross, rotation. simpl.
  pose proof (sin2_cos2 a) as H. unfold Rsqr in H.
  transitivity ((fst p * snd d - fst d * snd p)
                * (sin a * sin a + cos a * cos a))%R; [ring |].
  rewrite H. ring.
Qed.

(** Whatever [math.Cos] and [math.Sin] are, once they answer the
    binary64 numbers nearest to the cosine and the sine of the angle
    0.7853981633974483, the direction (1,0) and the plane (1,1e-17) are
    turned into one and the same vector. *)
Lemma Rotate_merges_narrow (Cos Sin : float -> float) :
  Cos (getNormalSpeed narrowCamera 0.7853981633974483)
  = 0.7071067811865476%float ->
  Sin (getNormalSpeed narrowCamera 0.7853981633974483)
  = 0.7071067811865475%float ->
  dir (Rotate Cos Sin narrowCamera 0.7853981633974483)
  = plane (Rotate Cos Sin narrowCamera 0.7853981633974483)
  /\ det (Rotate Cos Sin narrowCamera 0.7853981633974483) = 0%float.
Proof.
  intros Hc Hs. unfold det, Rotate. cbv zeta.
  cbn [dir plane setDirPlane X Y]. rewrite Hc, Hs.
  split; vm_compute; reflexivity.
Qed.




(** ** Movement *)

Lemma setPos_pos (c : Camera) : setPos c (mkVector2 (X (pos c)) (Y (pos c))) = c.
Proof. destruct c as [[x y] ? ? ? ? ? ? ? ? ? ? ? ? ? ? ? ?]. reflexivity. Qed.

Lemma slide_result indefinite (vec : Camera -> Vector2) (c : Camera)
    (speed : float) (v1 v2 : Z) (r : res Camera) :
  (forall c p, vec (setPos c p) = vec c) ->
  r = (row ← index (worldMap c)
               (int_of_float indefinite (X (pos c) + X (vec c) * speed * 12)%float);
       cell ← index row (int_of_float indefinite (Y (pos c)));
       let c :=
         if cell <=? 0
         then setPos c (mkVector2 (X (pos c) + X (vec c) * speed)%float (Y (pos c)))
         else c in
       row ← index (worldMap c) (int_of_float indefinite (X (pos c)));
       cell ← index row
                (int_of_float indefinite (Y (pos c) + Y (vec c) * speed * 12)%float);
       Ok (if cell <=? 0
           then setPos c (mkVector2 (X (pos c)) (Y (pos c) + Y (vec c) * speed)%float)
           else c)) ->
  cellUnder indefinite (worldMap c)
    (X (pos c) + X (vec c) * speed * 12)%float (Y (pos c)) v1 ->
  cellUnder indefinite (worldMap c)
    (guarded v1 (X (pos c)) (X (vec c) * speed)%float)
    (Y (pos c) + Y (vec c) * speed * 12)%float v2 ->
  r = Ok (setPos c (mkVector2 (guarded v1 (X (pos c)) (X (vec c) * speed)%float)
                              (guarded v2 (Y (pos c)) (Y (vec c) * speed)%float))).
Proof.
  intros Hvec -> (row1 & Hrow1 & Hv1) (row2 & Hrow2 & Hv2).
  rewrite Hrow1. cbn [mbind res_bind]. rewrite Hv1. cbn [mbind res_bind].
  unfold guarded in *. destruct (v1 <=? 0).
  - rewrite Hvec. cbn [pos setPos X Y worldMap].
    rewrite Hrow2. cbn [mbind res_bind].
    rewrite Hv2. cbn [mbind res_bind]. destruct (v2 <=? 0); reflexivity.
  - rewrite Hrow2. cbn [mbind res_bind]. rewrite Hv2. cbn [mbind res_bind].
    destruct (v2 <=? 0); [reflexivity |]. rewrite setPos_pos. reflexivity.
Qed.

(** C9 (amended): [Move] (and [Strafe], along the plane vector) checks
    the two axes one after the other.  [pos.X] is moved by
    [dir.X * speed] exactly when the cell under
    [(pos.X + dir.X * speed * 12, pos.Y)] is empty; [pos.Y] is then moved
    by [dir.Y * speed] exactly when the cell under
    [(pos.X', pos.Y + dir.Y * speed * 12)] is empty, where [pos.X'] is the
    X coordinate after the first step.  A blocked axis keeps its
    coordinate while the other one still moves. *)
Theorem Move_Strafe_axes_in_sequence :
  forall (indefinite : float -> Z) (c : Camera) (speed : float) (v1 v2 : Z),
    (cellUnder indefinite (worldMap c)
       (X (pos c) + X (dir c) * getNormalSpeed c speed * 12)%float
       (Y (pos c)) v1 ->
     cellUnder indefinite (worldMap c)
       (guarded v1 (X (pos c)) (X (dir c) * getNormalSpeed c speed)%float)
       (Y (pos c) + Y (dir c) * getNormalSpeed c speed * 12)%float v2 ->
     Move indefinite c speed
     = Ok (setPos c
             (mkVector2
                (guarded v1 (X (pos c)) (X (dir c) * getNormalSpeed c speed)%float)
                (guarded v2 (Y (pos c)) (Y (dir c) * getNormalSpeed c speed)%float))))
    /\ (cellUnder indefinite (worldMap c)
          (X (pos c) + X (plane c) * getNormalSpeed c speed * 12)%float
          (Y (pos c)) v1 ->
        cellUnder indefinite (worldMap c)
          (guarded v1 (X (pos c)) (X (plane c) * getNormalSpeed c speed)%float)
          (Y (pos c) + Y (plane c) * getNormalSpeed c speed * 12)%float v2 ->
        Strafe indefinite c speed
        = Ok (setPos c
                (mkVector2
                   (guarded v1 (X (pos c))
                      (X (plane c) * getNormalSpeed c speed)%float)
                   (guarded v2 (Y (pos c))
                      (Y (plane c) * getNormalSpeed c speed)%float)))).
Proof.
  intros indefinite c speed v1 v2. split.
  - apply (slide_result indefinite dir c); reflexivity.
  - apply (slide_result indefinite plane c); reflexivity.
Qed.

(** Read with the X coordinate from before the call, the rule for the Y
    axis fails: from (1.5,1.5) the cell under (1.5,7.5) is empty, and
    [pos.Y] is not moved, because the X step went first and the cell under
    (2,7.5) is a wall. *)
Lemma Move_Y_check_reads_moved_X :
  ~ forall c',
      Move indefinite_amd64 slideCamera 0.5 = Ok c' ->
      cellUnder indefinite_amd64 (worldMap slideCamera)
        (X (pos slideCamera))
        (Y (pos slideCamera)
         + Y (dir slideCamera) * getNormalSpeed slideCamera 0.5 * 12)%float 0 ->
      Y (pos c')
      = (Y (pos slideCamera)
         + Y (dir slideCamera) * getNormalSpeed slideCamera 0.5)%float.
Proof.
  intros H.
  specialize (H (setPos slideCamera (mkVector2 2 1.5))
                ltac:(vm_compute; reflexivity)).
  assert (Hcell : cellUnder indefinite_amd64 (worldMap slideCamera)
                    (X (pos slideCamera))
                    (Y (pos slideCamera)
                     + Y (dir slideCamera) * getNormalSpeed slideCamera 0.5 * 12)%float 0).
  { eexists. split; vm_compute; reflexivity. }
  apply H in Hcell.
  apply (f_equal (fun f => (f <? 2)%float)) in Hcell.
  vm_compute in Hcell. discriminate Hcell.
Qed.

Lemma Move_Strafe_axes_in_sequence_witness :
  Move indefinite_amd64 slideCamera 0.5
  = Ok (setPos slideCamera
          (mkVector2
             (guarded 0 (X (pos slideCamera))
                (X (dir slideCamera) * getNormalSpeed slideCamera 0.5)%float)
             (guarded 1 (Y (pos slideCamera))
                (Y (dir slideCamera) * getNormalSpeed slideCamera 0.5)%float))).
Proof.
  apply (proj1 (Move_Strafe_axes_in_sequence indefinite_amd64 slideCamera 0.5 0 1)).
  - eexists. split; vm_compute; reflexivity.
  - eexists. split; vm_compute; reflexivity.
Defined.

(** * Further properties of the code *)

(** ** [Clamp] *)

(** X1: for bounds [min <= max], [Clamp] answers a value between the
    bounds; it returns its argument exactly when the argument lies
    between them; clamping twice is clamping once; and a larger argument
    never gets a smaller answer. *)
Theorem Clamp_within_bounds :
  forall v u lo hi : Z,
    lo <= hi ->
    lo <= Clamp v lo hi <= hi
    /\ (Clamp v lo hi = v <-> lo <= v <= hi)
    /\ Clamp (Clamp v lo hi) lo hi = Clamp v lo hi
    /\ (u <= v -> Clamp u lo hi <= Clamp v lo hi).
Proof.
  intros v u lo hi Hlohi. unfold Clamp.
  repeat match goal with
         | |- context [?a <? ?b] => destruct (Z.ltb_spec a b)
         | |- context [?a >? ?b] => destruct (Z.gtb_spec a b)
         end; repeat split; intros; lia.
Qed.

Lemma Clamp_within_bounds_witness :
  0 <= Clamp 300 0 255 <= 255
  /\ (Clamp 300 0 255 = 300 <-> 0 <= 300 <= 255)
  /\ Clamp (Clamp 300 0 255) 0 255 = Clamp 300 0 255
  /\ (-7 <= 300 -> Clamp (-7) 0 255 <= Clamp 300 0 255).
Proof. apply (Clamp_within_bounds 300 (-7) 0 255). lia. Defined.

(** ** The wall caster: the shape of the answer *)

(** The answer of the loop is what one iteration made of a state that
    had not stopped. *)
Lemma ddaLoop_last_step grid rayDirX rayDirY (fuel : nat) (s s' : DDA) :
  hit s = 0 -> ddaLoop grid rayDirX rayDirY fuel s = Ok s' ->
  exists s0, hit s0 = 0 /\ ddaStep grid rayDirX rayDirY s0 = Ok s'
             /\ hit s' <> 0.
Proof.
  revert s. induction fuel as [| fuel IH]; intros s Hhit; simpl; rewrite Hhit; simpl.
  - discriminate.
  - intros H. apply bind_Ok in H as (s1 & Hstep & Hloop).
    destruct (Z.eq_dec (hit s1) 0) as [H1 | H1].
    + apply (IH s1 H1 Hloop).
    + exists s. split; [exact Hhit |].
      assert (s' = s1) as ->.
      { destruct fuel; simpl in Hloop;
          (destruct (Z.eqb_spec (hit s1) 0); [lia |]); congruence. }
      auto.
Qed.

Lemma clampCell_border m : ~ 0 < m < 24 -> clampCell m = 0 \/ clampCell m = 23.
Proof.
  unfold clampCell. intros Hm.
  destruct (Z.ltb_spec m 0); [auto |].
  destruct (Z.gtb_spec m 23); [auto |]. lia.
Qed.

Lemma clampCell_inside m : 0 <= m <= 23 -> clampCell m = m.
Proof.
  unfold clampCell. intros Hm.
  destruct (Z.ltb_spec m 0); [lia |].
  destruct (Z.gtb_spec m 23); lia.
Qed.

(** What the loop answers: the side last stepped, and a wall cell
    strictly inside the bound or a cell on the border of the grid. *)
Lemma ddaLoop_answer grid rayDirX rayDirY (fuel : nat) (s s' : DDA) :
  hit s = 0 -> ddaLoop grid rayDirX rayDirY fuel s = Ok s' ->
  (side s' = 0 \/ side s' = 1)
  /\ ((hit s' = 1 /\ interior s' /\ exists v, cellIs grid s' v /\ 0 < v)
      \/ (hit s' = 2 /\ onGrid s' /\ onBorder s')).
Proof.
  intros Hhit Hloop.
  destruct (ddaLoop_last_step _ _ _ _ _ _ Hhit Hloop) as (s0 & H0 & Hstep & Hne).
  unfold ddaStep in Hstep.
  destruct (ddaJump_cases rayDirX rayDirY s0) as [Hjh Hj].
  apply ddaCheck_cases in Hstep as [Hside Hcheck]. split.
  - rewrite Hside. destruct Hj as [(_ & _ & ->) | (_ & _ & ->)]; auto.
  - destruct Hcheck as [(Hi & HmX & HmY & Hcell) | (Hn & H2 & HmX & HmY)].
    + left. destruct Hcell as [[Hh _] | [Hh (v & (row & Hrow & Hv) & Hpos)]];
        [congruence |].
      split; [exact Hh |]. split.
      * unfold interior in *. rewrite HmX, HmY. exact Hi.
      * exists v. split; [| exact Hpos]. exists row. rewrite HmX, HmY. auto.
    + right. split; [exact H2 |]. split.
      * unfold onGrid. rewrite HmX, HmY. split; apply clampCell_range.
      * unfold onBorder, interior in *. rewrite HmX, HmY.
        destruct (Z.lt_ge_cases 0 (mapX (ddaJump rayDirX rayDirY s0))),
          (Z.lt_ge_cases (mapX (ddaJump rayDirX rayDirY s0)) 24).
        -- destruct (clampCell_border (mapY (ddaJump rayDirX rayDirY s0)))
             as [-> | ->]; [lia | auto | auto].
        -- destruct (clampCell_border (mapX (ddaJump rayDirX rayDirY s0)))
             as [-> | ->]; [lia | auto | auto].
        -- destruct (clampCell_border (mapX (ddaJump rayDirX rayDirY s0)))
             as [-> | ->]; [lia | auto | auto].
        -- destruct (clampCell_border (mapX (ddaJump rayDirX rayDirY s0)))
             as [-> | ->]; [lia | auto | auto].
Qed.

(** The tint of a column is an opaque grey. *)
Lemma castLevel_tint indefinite (c : Camera) (x : Z) grid (levelNum : Z)
    (fuel : nat) (col : Column) :
  castLevel indefinite c x grid levelNum fuel = Ok col ->
  color.R (col_tint col) = color.G (col_tint col)
  /\ color.G (col_tint col) = color.B (col_tint col)
  /\ 0 <= color.R (col_tint col) <= 255
  /\ color.A (col_tint col) = 255.
Proof.
  unfold castLevel. intros H.
  apply bind_Ok in H as (cameraX & _ & H).
  apply bind_Ok in H as (s & _ & H).
  apply bind_Ok in H as (texNum & _ & [= <-]).
  cbn [col_tint]. unfold shadeRGBA, wallTint. cbn [color.R color.G color.B color.A].
  destruct (side s =? 1); cbn [color.R color.G color.B color.A];
    repeat split; apply shade_range.
Qed.

(** X2: what [castLevel] answers when it returns.  The side it reports
    is 0 or 1; the ray ended either at a wall, a cell with both
    coordinates between 1 and 23 that holds a positive value, or at the
    boundary, a cell on the border of the 24 by 24 grid; and the tint of
    the column is an opaque grey: red, green and blue are equal and
    between 0 and 255, alpha is 255.  Whether [castLevel] returns is not
    part of the statement. *)
Theorem castLevel_answer_shape :
  forall (indefinite : float -> Z) (c : Camera) (x : Z)
         (grid : list (list Z)) (levelNum : Z) (fuel : nat) (col : Column),
    castLevel indefinite c x grid levelNum fuel = Ok col ->
    (col_side col = 0 \/ col_side col = 1)
    /\ ((col_hit col = 1
         /\ 1 <= col_mapX col <= 23 /\ 1 <= col_mapY col <= 23
         /\ exists row v,
              grid !! Z.to_nat (col_mapX col) = Some row
              /\ row !! Z.to_nat (col_mapY col) = Some v /\ 0 < v)
        \/ (col_hit col = 2
            /\ 0 <= col_mapX col <= 23 /\ 0 <= col_mapY col <= 23
            /\ (col_mapX col = 0 \/ col_mapX col = 23
                \/ col_mapY col = 0 \/ col_mapY col = 23)))
    /\ color.R (col_tint col) = color.G (col_tint col)
    /\ color.G (col_tint col) = color.B (col_tint col)
    /\ 0 <= color.R (col_tint col) <= 255
    /\ color.A (col_tint col) = 255.
Proof.
  intros indefinite c x grid levelNum fuel col Hcol.
  destruct (castLevel_tint indefinite c x grid levelNum fuel col Hcol)
    as (HRG & HGB & HR & HA).
  unfold castLevel in Hcol.
  apply bind_Ok in Hcol as (cameraX & _ & Hcol).
  apply bind_Ok in Hcol as (s & Hs & Hcol).
  apply bind_Ok in Hcol as (texNum & _ & [= <-]).
  cbn [col_side col_hit col_mapX col_mapY].
  apply ddaLoop_answer in Hs as [Hside Hans]; [| reflexivity].
  split; [exact Hside |]. split; [| auto].
  destruct Hans as [(H1 & [HX HY] & v & (row & Hrow & Hv) & Hpos)
                   | (H2 & [HX HY] & Hb)].
  - left. split; [exact H1 |]. split; [lia |]. split; [lia |].
    eauto.
  - right. auto.
Qed.

Lemma castLevel_answer_shape_witness :
  exists col,
    castLevel indefinite_amd64
      (eastCamera (mkVector2 4.5 5.5) (gridWith 24 [(5, 5)%nat]))
      160 (gridWith 24 [(5, 5)%nat]) 0 46 = Ok col
    /\ col_hit col = 1
    /\ (col_side col = 0 \/ col_side col = 1)
    /\ color.A (col_tint col) = 255.
Proof.
  eexists. split; [vm_compute; reflexivity |].
  split; [reflexivity |].
  destruct (castLevel_answer_shape indefinite_amd64
              (eastCamera (mkVector2 4.5 5.5) (gridWith 24 [(5, 5)%nat]))
              160 (gridWith 24 [(5, 5)%nat]) 0 46 _
              ltac:(vm_compute; reflexivity))
    as (Hside & _ & _ & _ & _ & Halpha).
  split; [exact Hside | exact Halpha].
Defined.

(** ** The wall caster: the cells the ray crosses *)

Lemma ddaLoop_stopped_state grid rayDirX rayDirY (fuel : nat) (s : DDA) :
  hit s <> 0 ->
  ddaLoop grid rayDirX rayDirY fuel s = Ok s
  /\ ddaTrace grid rayDirX rayDirY fuel s = [].
Proof.
  intros Hhit. destruct fuel; simpl;
    (destruct (Z.eqb_spec (hit s) 0); [contradiction | auto]).
Qed.

(** X3: the cells a ray crosses after its first step.  When the loop of
    [castLevel] returns, the states it went through after the first jump
    form a path: each is one step along one axis from the state before
    (by [stepX] in x or by [stepY] in y, never both), every state before
    the last lies strictly inside the bound on a cell that holds no wall
    (a value [<= 0]), and the answer is what one more iteration makes of
    the last of them.  The cell the ray starts in is never tested: a ray
    that starts inside a wall leaves it. *)
Theorem ddaLoop_crosses_empty_cells :
  forall (grid : list (list Z)) (rayDirX rayDirY : float) (fuel : nat)
         (s r : DDA),
    hit s = 0 -> ddaLoop grid rayDirX rayDirY fuel s = Ok r ->
    exists path,
      ddaTrace grid rayDirX rayDirY fuel s = path ++ [r]
      /\ hit r <> 0
      /\ ddaStep grid rayDirX rayDirY (default s (last path)) = Ok r
      /\ Forall (fun p => hit p = 0 /\ interior p
                          /\ exists v, cellIs grid p v /\ v <= 0) path
      /\ forall i p q,
           (s :: path) !! i = Some p -> path !! i = Some q ->
           (mapX q = int_add (mapX p) (stepX rayDirX) /\ mapY q = mapY p)
           \/ (mapX q = mapX p /\ mapY q = int_add (mapY p) (stepY rayDirY)).
Proof.
  intros grid rayDirX rayDirY fuel. induction fuel as [| fuel IH];
    intros s r Hhit; simpl; rewrite Hhit; simpl; [discriminate |].
  intros H. apply bind_Ok in H as (s1 & Hstep & Hloop). rewrite Hstep.
  destruct (Z.eq_dec (hit s1) 0) as [H1 | H1].
  - destruct (IH s1 r H1 Hloop) as (path & Htrace & Hr & Hlast & Hall & Hadj).
    exists (s1 :: path). rewrite Htrace. split; [reflexivity |].
    split; [exact Hr |].
    pose proof Hstep as Hcheck. unfold ddaStep in Hcheck.
    apply ddaCheck_cases in Hcheck
      as (_ & [(Hi & HmX & HmY & Hcell) | (_ & H2 & _)]); [| lia].
    destruct Hcell as [(_ & v & (row & Hrow & Hv) & Hle) | [Hh _]]; [| lia].
    split; [| split].
    + replace (default s (last (s1 :: path))) with (default s1 (last path));
        [exact Hlast |].
      rewrite last_cons. destruct (last path); reflexivity.
    + constructor; [| exact Hall].
      split; [exact H1 |]. split.
      * unfold interior in *. rewrite HmX, HmY. exact Hi.
      * exists v. split; [| exact Hle]. exists row. rewrite HmX, HmY. auto.
    + intros [| i] p q Hp Hq.
      * simpl in Hp, Hq. injection Hp as <-. injection Hq as <-.
        rewrite HmX, HmY.
        destruct (ddaJump_cases rayDirX rayDirY s)
          as (_ & [(-> & -> & _) | (-> & -> & _)]); auto.
      * simpl in Hp, Hq. exact (Hadj i p q Hp Hq).
  - destruct (ddaLoop_stopped_state grid rayDirX rayDirY fuel s1 H1)
      as [Hsame Hnil].
    rewrite Hsame in Hloop. injection Hloop as <-. rewrite Hnil.
    exists []. split; [reflexivity |]. split; [exact H1 |].
    split; [exact Hstep |]. split; [constructor |].
    intros i p q _ Hq. destruct i; discriminate Hq.
Qed.

Lemma ddaLoop_crosses_empty_cells_witness :
  exists r path,
    ddaLoop (gridWith 24 [(5, 5)%nat]) 1 0 46
      (ddaInit indefinite_amd64 1 0 5.5 5.5) = Ok r
    /\ ddaTrace (gridWith 24 [(5, 5)%nat]) 1 0 46
         (ddaInit indefinite_amd64 1 0 5.5 5.5) = path ++ [r]
    /\ hit r = 2 /\ mapX r = 23 /\ mapY r = 5.
Proof.
  eexists.
  destruct (ddaLoop_crosses_empty_cells (gridWith 24 [(5, 5)%nat]) 1 0 46
              (ddaInit indefinite_amd64 1 0 5.5 5.5) _ eq_refl
              ltac:(vm_compute; reflexivity))
    as (path & Htrace & Hhit & _).
  exists path. split; [vm_compute; reflexivity |].
  split; [exact Htrace |]. repeat split.
Defined.

(** ** The wall caster: stacked levels *)

(** Wrapping changes an integer by a multiple of [2 ^ 64]. *)
Lemma wrap_offset (a : Z) : exists k, wrap a = a + k * 2 ^ 64.
Proof.
  exists (- ((a + 2 ^ 63) / 2 ^ 64)). unfold wrap.
  pose proof (Z.div_mod (a + 2 ^ 63) (2 ^ 64) ltac:(lia)). lia.
Qed.

Lemma wrap_congr (a b k : Z) : a = b + k * 2 ^ 64 -> wrap a = wrap b.
Proof.
  intros ->. unfold wrap.
  replace (b + k * 2 ^ 64 + 2 ^ 63) with (b + 2 ^ 63 + k * 2 ^ 64) by ring.
  rewrite Z_mod_plus_full. reflexivity.
Qed.

(** X4: the levels from the second on stack without a gap.  For a
    level number [levelNum] of at least 2, [asyncCastLevel] casts the
    level and the level above it over the same grid, [upMap]; when
    [castLevel] returns for a column of both, the column of level
    [levelNum + 1] is as high as the column of level [levelNum] and ends
    at the row where that one starts (in [int] arithmetic, overflow
    included), and the two columns agree in the cell and the side of the
    hit, the wall distance, the texture, the texture column and the
    tint. *)
Theorem castLevel_levels_stack :
  forall (indefinite : float -> Z) (c : Camera) (x : Z)
         (levelNum : Z) (fuel : nat) (a b : Column),
    2 <= levelNum <= max_int ->
    castLevel indefinite c x (levelGrid c levelNum) levelNum fuel = Ok a ->
    castLevel indefinite c x (levelGrid c (int_add levelNum 1))
      (int_add levelNum 1) fuel = Ok b ->
    col_drawEnd b = col_drawStart a
    /\ col_lineHeight b = col_lineHeight a
    /\ col_hit b = col_hit a /\ col_side b = col_side a
    /\ col_mapX b = col_mapX a /\ col_mapY b = col_mapY a
    /\ col_perpWallDist b = col_perpWallDist a
    /\ col_texNum b = col_texNum a /\ col_texX b = col_texX a
    /\ col_tint b = col_tint a.
Proof.
  intros indefinite c x levelNum fuel a b Hlevel.
  assert (Hgrid : levelGrid c (int_add levelNum 1) = levelGrid c levelNum).
  { unfold levelGrid.
    assert (Hnext : int_add levelNum 1 = levelNum + 1
                    \/ int_add levelNum 1 = min_int).
    { unfold int_add. destruct (Z.eq_dec levelNum max_int) as [-> | Hne].
      - right. reflexivity.
      - left. apply wrap_id. unfold min_int, max_int in *. lia. }
    destruct (Z.eqb_spec levelNum 0); [lia |].
    destruct (Z.eqb_spec levelNum 1); [lia |].
    destruct (Z.eqb_spec (int_add levelNum 1) 0);
      [unfold min_int in *; lia |].
    destruct (Z.eqb_spec (int_add levelNum 1) 1);
      [unfold min_int in *; lia |].
    reflexivity. }
  rewrite Hgrid. unfold castLevel. intros Ha Hb.
  apply bind_Ok in Ha as (cameraX & HcameraX & Ha). rewrite HcameraX in Hb.
  cbn [mbind res_bind] in Hb.
  apply bind_Ok in Ha as (s & Hs & Ha). rewrite Hs in Hb.
  cbn [mbind res_bind] in Hb.
  apply bind_Ok in Ha as (texNum & HtexNum & [= <-]). rewrite HtexNum in Hb.
  cbn [mbind res_bind] in Hb. injection Hb as <-.
  cbn [col_lineHeight col_drawStart col_drawEnd col_hit col_side col_mapX
       col_mapY col_perpWallDist col_texNum col_texX col_tint].
  split; [| repeat split].
  unfold int_add, int_sub, int_mul.
  set (lh := int_of_float indefinite _).
  set (base := wrap (Z.quot (int_neg lh) 2 + Z.quot (h c) 2)).
  destruct (wrap_offset (levelNum + 1)) as [k1 ->].
  destruct (wrap_offset (lh * (levelNum + 1 + k1 * 2 ^ 64))) as [k2 ->].
  destruct (wrap_offset (lh * levelNum)) as [k3 H3].
  destruct (wrap_offset (base - (lh * (levelNum + 1 + k1 * 2 ^ 64) + k2 * 2 ^ 64))) as [k4 ->].
  rewrite H3.
  apply (wrap_congr _ _ (k4 - lh * k1 - k2 + k3)). ring.
Qed.

Lemma castLevel_levels_stack_witness :
  exists a b,
    castLevel indefinite_amd64
      (eastCamera (mkVector2 4.5 5.5) (gridWith 24 [(5, 5)%nat])) 160
      (levelGrid (eastCamera (mkVector2 4.5 5.5) (gridWith 24 [(5, 5)%nat])) 2)
      2 46 = Ok a
    /\ castLevel indefinite_amd64
         (eastCamera (mkVector2 4.5 5.5) (gridWith 24 [(5, 5)%nat])) 160
         (levelGrid (eastCamera (mkVector2 4.5 5.5) (gridWith 24 [(5, 5)%nat]))
            (int_add 2 1))
         (int_add 2 1) 46 = Ok b
    /\ col_drawEnd b = col_drawStart a
    /\ col_lineHeight b = col_lineHeight a.
Proof.
  do 2 eexists.
  split; [vm_compute; reflexivity |].
  split; [vm_compute; reflexivity |].
  destruct (castLevel_levels_stack indefinite_amd64
              (eastCamera (mkVector2 4.5 5.5) (gridWith 24 [(5, 5)%nat]))
              160 2 46 _ _ ltac:(unfold max_int; lia)
              ltac:(vm_compute; reflexivity) ltac:(vm_compute; reflexivity))
    as (Hend & Hheight & _).
  split; [exact Hend | exact Hheight].
Defined.

(** ** Loops over distinct values *)

Lemma range_NoDup (lo hi : Z) : NoDup (range lo hi).
Proof.
  unfold range. apply NoDup_fmap_2; [| apply NoDup_seq].
  intros a b H. lia.
Qed.

Lemma range_lookup (lo hi : Z) (k : nat) (x : Z) :
  range lo hi !! k = Some x <-> x = lo + Z.of_nat k /\ lo + Z.of_nat k < hi.
Proof.
  unfold range. rewrite list_lookup_fmap. split.
  - intros H. destruct (seq 0 (Z.to_nat (hi - lo)) !! k) as [j |] eqn:Hj;
      [| discriminate]. injection H as <-.
    apply lookup_seq in Hj as [-> Hk]. lia.
  - intros [-> Hk].
    rewrite (proj2 (lookup_seq 0 (Z.to_nat (hi - lo)) k k)); [reflexivity |].
    lia.
Qed.

Lemma range_length (lo hi : Z) : length (range lo hi) = Z.to_nat (hi - lo).
Proof. unfold range. rewrite length_map, length_seq. reflexivity. Qed.

(** As [forEach_invariant], for a loop over distinct values: the body
    may rely on the value being new. *)
Lemma forEach_invariant_fresh {S} (body : S -> Z -> res S)
    (I : list Z -> S -> Prop) (Q : Z -> Prop) (l : list Z) :
  (forall done s x s',
      Q x -> x ∉ done -> I done s -> body s x = Ok s' -> I (done ++ [x]) s') ->
  Forall Q l -> NoDup l ->
  forall done s s',
    (forall x, x ∈ l -> x ∉ done) ->
    I done s -> forEach body s l = Ok s' -> I (done ++ l) s'.
Proof.
  intros Hstep. induction l as [| x l IH]; intros HQ Hnd done s s' Hnew HI; simpl.
  - intros [= <-]. rewrite app_nil_r. exact HI.
  - intros H. apply bind_Ok in H as (s1 & Hs1 & H).
    apply Forall_cons in HQ as [Hx HQ]. apply NoDup_cons in Hnd as [Hxl Hnd].
    replace (done ++ x :: l) with ((done ++ [x]) ++ l)
      by (rewrite <- app_assoc; reflexivity).
    apply (IH HQ Hnd _ s1); [| | exact H].
    + intros y Hy Hin. apply elem_of_app in Hin as [Hin | Hin].
      * apply (Hnew y); [right; exact Hy | exact Hin].
      * apply list_elem_of_singleton in Hin as ->. contradiction.
    + apply (Hstep done s); [exact Hx | apply Hnew; left | exact HI | exact Hs1].
Qed.

Lemma forEach_returns_fresh {S} (body : S -> Z -> res S)
    (I : list Z -> S -> Prop) (Q : Z -> Prop) (l : list Z) :
  (forall done s x s',
      Q x -> x ∉ done -> I done s -> body s x = Ok s' -> I (done ++ [x]) s') ->
  (forall done s x, Q x -> I done s -> exists s', body s x = Ok s') ->
  Forall Q l -> NoDup l ->
  forall done s,
    (forall x, x ∈ l -> x ∉ done) ->
    I done s -> exists s', forEach body s l = Ok s'.
Proof.
  intros Hstep Hret. induction l as [| x l IH]; intros HQ Hnd done s Hnew HI; simpl.
  - eauto.
  - apply Forall_cons in HQ as [Hx HQ]. apply NoDup_cons in Hnd as [Hxl Hnd].
    destruct (Hret done s x Hx HI) as [s1 Hs1]. rewrite Hs1. simpl.
    apply (IH HQ Hnd (done ++ [x])).
    + intros y Hy Hin. apply elem_of_app in Hin as [Hin | Hin].
      * apply (Hnew y); [right; exact Hy | exact Hin].
      * apply list_elem_of_singleton in Hin as ->. contradiction.
    + apply (Hstep done s); [exact Hx | apply Hnew; left | exact HI | exact Hs1].
Qed.

(** ** The level pass *)

Section LevelPassProofs.

Variable indefinite : float -> Z.
Variable c : Camera.
Variable textures : list (option ebiten.Image).
Variable slices : list (option image.Rectangle).
Variable lvls : list (option Level).
Variable levelNum : Z.
Variable fuel : nat.

Abbreviation Inv :=
  (columnsInv indefinite c textures slices lvls levelNum fuel).

(** Storing a column changes the level at that column only. *)
Lemma storeColumn_spec (lvl lvl' : Level) (x : Z) (col : Column) :
  storeColumn textures slices lvl x col = Ok lvl' ->
  0 <= x
  /\ (exists tex slice v,
        index textures (col_texNum col) = Ok tex
        /\ CurrTex lvl' !! Z.to_nat x = Some tex
        /\ index slices (col_texX col) = Ok slice
        /\ Cts lvl' !! Z.to_nat x = Some slice
        /\ Sv lvl !! Z.to_nat x = Some v
        /\ Sv lvl' !! Z.to_nat x
           = Some (setY v (col_drawStart col) (col_drawEnd col))
        /\ St lvl' !! Z.to_nat x = Some (Some (col_tint col)))
  /\ forall k, k <> Z.to_nat x -> agreeAt lvl' lvl k.
Proof.
  unfold storeColumn. intros H.
  apply bind_Ok in H as (tex & Htex & H).
  apply bind_Ok in H as (currTex & HcurrTex & H).
  apply bind_Ok in H as (slice & Hslice & H).
  apply bind_Ok in H as (cts & Hcts & H).
  apply bind_Ok in H as (v & Hv & H).
  apply bind_Ok in H as (sv & Hsv & H).
  apply bind_Ok in H as (st & Hst & [= <-]).
  apply store_inv in HcurrTex as [R1 ->]. apply store_inv in Hcts as [R2 ->].
  apply store_inv in Hsv as [R3 ->]. apply store_inv in Hst as [R4 ->].
  apply index_Ok in Hv as [_ Hv].
  split; [lia |]. split.
  - exists tex, slice, v. cbn [Sv Cts St CurrTex].
    rewrite !list_lookup_insert_eq by lia. auto 10.
  - intros k Hk. unfold agreeAt. cbn [Sv Cts St CurrTex].
    rewrite !list_lookup_insert_ne by congruence. auto.
Qed.

Lemma castColumn_inv (done : list Z) (s s' : list (option Level) * list float)
    (x : Z) :
  x ∉ done -> Inv done s ->
  castColumn indefinite c textures slices levelNum fuel s x = Ok s' ->
  Inv (done ++ [x]) s'.
Proof.
  destruct s as [ls zb].
  intros Hnew (Hlen & Hzlen & Hother & Hdepth & Hrest & Hsame & Hnil & Hlvl).
  unfold castColumn. intros H.
  apply bind_Ok in H as (slot & Hslot & H).
  apply bind_Ok in H as (lvl & Hderef & H).
  apply bind_Ok in H as (col & Hcol & H).
  apply bind_Ok in H as (lvl' & Hstore & H).
  apply bind_Ok in H as (ls' & Hls & H).
  apply bind_Ok in H as (zb' & Hzb & [= <-]).
  destruct slot as [l |]; [| discriminate]. injection Hderef as ->.
  apply index_Ok in Hslot as [Hlevel Hslot].
  apply store_inv in Hls as [Rls ->].
  destruct (storeColumn_spec lvl lvl' x col Hstore) as (Hx & Hat & Helse).
  assert (Hzb' : length zb' = length zb
                 /\ (levelNum = 0 ->
                     0 <= x < Z.of_nat (length zb)
                     /\ zb' = <[Z.to_nat x := col_perpWallDist col]> zb)
                 /\ (levelNum <> 0 -> zb' = zb)).
  { destruct (Z.eqb_spec levelNum 0) as [H0 | H0].
    - apply store_inv in Hzb as [Hr Hzb]. rewrite Hzb, length_insert.
      split; [reflexivity |]. split; [auto | contradiction].
    - injection Hzb as <-. split; [reflexivity |]. split; [contradiction | auto]. }
  clear Hzb. destruct Hzb' as (Hl' & Hz0 & Hzn).
  assert (Hfresh : forall y, y ∈ done -> Z.to_nat x <> Z.to_nat y).
  { intros y Hy E. apply Hnew. destruct (Hdepth y Hy) as [Hy0 _].
    replace x with y by lia. exact Hy. }
  assert (Hin : forall y, y ∈ done ++ [x] -> y ∈ done \/ y = x).
  { intros y Hy. apply elem_of_app in Hy as [Hy | Hy]; [auto |].
    apply list_elem_of_singleton in Hy. auto. }
  split; [rewrite length_insert; exact Hlen |].
  split; [lia |].
  split; [intros j Hj; rewrite list_lookup_insert_ne by congruence;
          apply Hother; exact Hj |].
  split; [| split; [| split; [| split]]].
  - intros y Hy. destruct (Hin y Hy) as [Hold | ->].
    + destruct (Hdepth y Hold) as (Hy0 & col0 & Hcol0 & Hd0).
      split; [exact Hy0 |]. exists col0. split; [exact Hcol0 |].
      intros H0. destruct (Hz0 H0) as [_ ->].
      rewrite list_lookup_insert_ne by (apply Hfresh; exact Hold). auto.
    + split; [exact Hx |]. exists col. split; [exact Hcol |].
      intros H0. destruct (Hz0 H0) as [Hr ->].
      apply list_lookup_insert_eq. lia.
  - intros j Hj.
    assert (Hold : zb !! j = zBuffer c !! j).
    { apply Hrest. intros y Hy. apply Hj, elem_of_app. left. exact Hy. }
    destruct (Z.eq_dec levelNum 0) as [H0 | H0].
    + destruct (Hz0 H0) as [_ ->].
      rewrite list_lookup_insert_ne; [exact Hold |].
      intros Heq. apply (Hj x); [| auto].
      apply elem_of_app. right. apply list_elem_of_singleton. reflexivity.
    + rewrite (Hzn H0). exact Hold.
  - intros H0. rewrite (Hzn H0). auto.
  - intros Hempty. destruct done; discriminate.
  - intros _.
    assert (Hstart : exists lvl0,
               lvls !! Z.to_nat levelNum = Some (Some lvl0)
               /\ (forall y, y ∈ done ->
                     wallColumn indefinite c textures slices levelNum fuel
                       lvl0 lvl y)
               /\ forall k, (forall y, y ∈ done -> k <> Z.to_nat y) ->
                            agreeAt lvl lvl0 k).
    { destruct done as [| y0 done0] eqn:Hd.
      - rewrite (Hnil eq_refl) in Hslot. exists lvl.
        split; [exact Hslot |]. split; [intros y Hy; inversion Hy |].
        intros k _. repeat split.
      - destruct (Hlvl ltac:(discriminate)) as (lvl0 & lvl1 & H0 & H1 & Hw & Ha).
        rewrite Hslot in H1. injection H1 as <-. eauto. }
    destruct Hstart as (lvl0 & Hlvl0 & Hw & Ha).
    exists lvl0, lvl'. split; [exact Hlvl0 |].
    split; [apply list_lookup_insert_eq; lia |]. split.
    + intros y Hy. destruct (Hin y Hy) as [Hold | ->].
      * destruct (Hw y Hold)
          as (col0 & tex & slice & v & A1 & A2 & A3 & A4 & A5 & A6 & A7 & A8).
        destruct (Helse (Z.to_nat y)) as (B1 & B2 & B3 & B4);
          [intros E; exact (Hfresh y Hold (eq_sym E)) |].
        exists col0, tex, slice, v. rewrite B1, B2, B3, B4. auto 10.
      * destruct Hat as (tex & slice & v & A2 & A3 & A4 & A5 & A6 & A7 & A8).
        destruct (Ha (Z.to_nat x)) as (B1 & _);
          [intros z Hz; apply Hfresh; exact Hz |].
        exists col, tex, slice, v. rewrite <- B1. auto 10.
    + intros k Hk.
      destruct (Helse k) as (B1 & B2 & B3 & B4).
      { apply Hk, elem_of_app. right. apply list_elem_of_singleton. reflexivity. }
      destruct (Ha k) as (C1 & C2 & C3 & C4).
      { intros y Hy. apply Hk, elem_of_app. left. exact Hy. }
      unfold agreeAt. rewrite B1, B2, B3, B4. auto.
Qed.

End LevelPassProofs.

(** X5: what a level pass leaves behind when it returns.  The pass
    reads the level [c.lvls[levelNum]], the textures [c.tex.Textures] and
    the slices [c.s] and panics where an index is out of range or the
    level is missing; when it returns, the other levels are as they
    were; in the level of [levelNum] every column of the viewport holds
    the texture, the texture slice, the rows and the tint of the column
    [castLevel] computes for it, and the columns beyond the viewport are
    as they were; for level 0 the depth buffer holds the wall distance of
    every column of the viewport and is otherwise as before, and for
    every other level the depth buffer is left as it was.  A viewport
    without columns changes nothing. *)
Theorem asyncCastLevel_columns_and_depth :
  forall (indefinite : float -> Z) (c : Camera)
         (textures : list (option ebiten.Image))
         (slices : list (option image.Rectangle))
         (lvls lvls' : list (option Level)) (levelNum : Z) (fuel : nat)
         (zb : list float),
    asyncCastLevel indefinite c textures slices lvls levelNum fuel
    = Ok (lvls', zb) ->
    length lvls' = length lvls
    /\ (forall j, j <> Z.to_nat levelNum -> lvls' !! j = lvls !! j)
    /\ length zb = length (zBuffer c)
    /\ (forall x, 0 <= x < w c -> depthAt indefinite c levelNum fuel zb x)
    /\ (forall j, w c <= Z.of_nat j -> zb !! j = zBuffer c !! j)
    /\ (levelNum <> 0 -> zb = zBuffer c)
    /\ (w c <= 0 -> lvls' = lvls)
    /\ (0 < w c ->
        exists lvl0 lvl,
          lvls !! Z.to_nat levelNum = Some (Some lvl0)
          /\ lvls' !! Z.to_nat levelNum = Some (Some lvl)
          /\ (forall x, 0 <= x < w c ->
                wallColumn indefinite c textures slices levelNum fuel
                  lvl0 lvl x)
          /\ forall k, w c <= Z.of_nat k -> agreeAt lvl lvl0 k).
Proof.
  intros indefinite c textures slices lvls lvls' levelNum fuel zb Hrun.
  unfold asyncCastLevel in Hrun.
  assert (Hinit : columnsInv indefinite c textures slices lvls levelNum fuel
                    [] (lvls, zBuffer c)).
  { split; [reflexivity |]. split; [reflexivity |].
    split; [reflexivity |]. split; [intros x Hx; inversion Hx |].
    split; [reflexivity |]. split; [reflexivity |].
    split; [reflexivity |]. intros Hne. congruence. }
  assert (Hfresh : forall x : Z, x ∈ range 0 (w c) -> x ∉ []).
  { intros x _ Hx. inversion Hx. }
  pose proof (forEach_invariant_fresh
                (castColumn indefinite c textures slices levelNum fuel)
                (columnsInv indefinite c textures slices lvls levelNum fuel)
                (fun _ => True) (range 0 (w c))
                (fun done s x s' _ Hnew =>
                   castColumn_inv indefinite c textures slices lvls levelNum
                     fuel done s s' x Hnew)
                ltac:(apply Forall_forall; auto)
                (range_NoDup 0 (w c)) [] _ _ Hfresh Hinit Hrun) as Hinv.
  simpl in Hinv.
  destruct Hinv as (Hlen & Hzlen & Hother & Hdepth & Hrest & Hsame & Hnil & Hlvl).
  split; [exact Hlen |]. split; [exact Hother |]. split; [exact Hzlen |].
  split; [intros x Hx; apply Hdepth, elem_of_range; exact Hx |].
  split; [intros j Hj; apply Hrest; intros x Hx;
          apply elem_of_range in Hx; lia |].
  split; [exact Hsame |]. split.
  - intros Hw. apply Hnil. unfold range.
    replace (Z.to_nat (w c - 0)) with 0%nat by lia. reflexivity.
  - intros Hw.
    destruct Hlvl as (lvl0 & lvl & H0 & H1 & Hcols & Hagree).
    { intros Hempty.
      assert (Hin : 0 ∈ range 0 (w c)) by (apply elem_of_range; lia).
      rewrite Hempty in Hin. inversion Hin. }
    exists lvl0, lvl. split; [exact H0 |]. split; [exact H1 |]. split.
    + intros x Hx. apply Hcols, elem_of_range. exact Hx.
    + intros k Hk. apply Hagree. intros x Hx.
      apply elem_of_range in Hx. lia.
Qed.

Lemma asyncCastLevel_columns_and_depth_witness :
  exists lvls' zb col,
    asyncCastLevel indefinite_amd64 wallScene
      (replicate 5 (Some {| ebiten.Size := (4, 4) |}))
      (map Some (columns 4 4)) [Some (newLevel columns wallScene)] 0 46
    = Ok (lvls', zb)
    /\ castLevel indefinite_amd64 wallScene 4 (worldMap wallScene) 0 46
       = Ok col
    /\ zb !! 4%nat = Some (col_perpWallDist col)
    /\ length lvls' = 1%nat.
Proof.
  do 2 eexists.
  destruct (asyncCastLevel_columns_and_depth indefinite_amd64 wallScene
              (replicate 5 (Some {| ebiten.Size := (4, 4) |}))
              (map Some (columns 4 4)) [Some (newLevel columns wallScene)]
              _ 0 46 _ ltac:(vm_compute; reflexivity))
    as (Hlen & _ & _ & Hdepth & _).
  destruct (Hdepth 4 ltac:(simpl; lia)) as (col & Hcol & Hz).
  exists col. split; [vm_compute; reflexivity |].
  split; [exact Hcol |]. split; [exact (Hz eq_refl) | exact Hlen].
Defined.

(** ** The floor caster *)

Lemma int_add_small (p k : Z) :
  0 <= p <= max_int -> 0 <= k < 4 -> 0 <= int_add p k -> int_add p k = p + k.
Proof.
  intros Hp Hk Hpos. unfold int_add in *.
  destruct (Z_le_gt_dec (p + k) max_int) as [Hle | Hgt].
  - apply wrap_id. unfold min_int, max_int in *. lia.
  - exfalso.
    rewrite (wrap_congr (p + k) (p + k - 2 ^ 64) 1) in Hpos by ring.
    rewrite wrap_id in Hpos; unfold min_int, max_int in *; lia.
Qed.

Lemma store4_inv (pix pix' : list Z) (p r g b a : Z) :
  p <= max_int ->
  (pix1 ← store pix p r;
   pix2 ← store pix1 (int_add p 1) g;
   pix3 ← store pix2 (int_add p 2) b;
   store pix3 (int_add p 3) a) = Ok pix' ->
  length pix' = length pix
  /\ 0 <= p
  /\ forall o : Z, 0 <= o ->
       (forall k, 0 <= k < 4 -> o <> p + k) ->
       pix' !! Z.to_nat o = pix !! Z.to_nat o.
Proof.
  intros Hp H.
  apply bind_Ok in H as (pix1 & H1 & H).
  apply bind_Ok in H as (pix2 & H2 & H).
  apply bind_Ok in H as (pix3 & H3 & H4).
  apply store_inv in H1 as [R1 ->]. apply store_inv in H2 as [R2 ->].
  apply store_inv in H3 as [R3 ->]. apply store_inv in H4 as [R4 ->].
  rewrite !length_insert in *.
  rewrite (int_add_small p 1) in * by lia.
  rewrite (int_add_small p 2) in * by lia.
  rewrite (int_add_small p 3) in * by lia.
  split; [reflexivity |]. split; [lia |].
  intros o Ho Hne.
  pose proof (Hne 0 ltac:(lia)). pose proof (Hne 1 ltac:(lia)).
  pose proof (Hne 2 ltac:(lia)). pose proof (Hne 3 ltac:(lia)).
  rewrite !list_lookup_insert_ne by lia. reflexivity.
Qed.

Section FloorProofs.

Variable indefinite : float -> Z.
Variable c : Camera.
Variable horLvl : HorLevel.
Variable x : Z.
Variables floorXWall floorYWall distWall : float.

Lemma floorPixel_inv (done : list Z) (pix pix' : list Z) (y : Z) :
  floorInv c (HorBuffer horLvl) x (Pix (HorBuffer horLvl)) done pix ->
  floorPixel indefinite c horLvl x floorXWall floorYWall distWall pix y
  = Ok pix' ->
  floorInv c (HorBuffer horLvl) x (Pix (HorBuffer horLvl)) (done ++ [y]) pix'.
Proof.
  intros (Hlen & Hpos & Hframe). unfold floorPixel. intros H.
  apply bind_Ok in H as (currentDist & Hcd & H).
  apply bind_Ok in H as (floorTexX & _ & H).
  apply bind_Ok in H as (floorTexY & _ & H).
  apply bind_Ok in H as (floorTex & _ & H).
  apply bind_Ok in H as (r & _ & H).
  apply bind_Ok in H as (g & _ & H).
  apply bind_Ok in H as (b & _ & H).
  apply bind_Ok in H as (a & _ & H).
  apply store4_inv in H as (Hlen' & _ & Hsame);
    [| unfold PixOffset, int_add; apply wrap_range].
  apply index_Ok in Hcd as [Hy _].
  split; [lia |]. split.
  - intros y' Hy'. apply elem_of_app in Hy' as [Hy' | Hy']; [auto |].
    apply list_elem_of_singleton in Hy' as ->. exact Hy.
  - intros o Ho Hne. rewrite Hsame.
    + apply Hframe; [exact Ho |]. intros y' k Hy' Hk.
      apply Hne; [apply elem_of_app; left; exact Hy' | exact Hk].
    + exact Ho.
    + intros k Hk. apply Hne; [| exact Hk].
      apply elem_of_app. right. apply list_elem_of_singleton. reflexivity.
Qed.

End FloorProofs.

(** The offsets of a buffer laid out for the viewport. *)
Lemma PixOffset_viewport (c : Camera) (buf : RGBAImage) (x y : Z) :
  viewportBuffer c buf -> 0 <= x < w c -> 0 <= y < h c ->
  PixOffset buf x y = 4 * (y * w c + x).
Proof.
  intros (HminX & HminY & Hstride & Hw & Hsize) Hx Hy.
  unfold PixOffset, int_add, int_sub, int_mul.
  rewrite HminX, HminY, Hstride, !Z.sub_0_r.
  assert (Hyw : y * w c + x < w c * h c) by nia.
  assert (0 <= y * w c) by nia.
  rewrite (wrap_id y) by (unfold min_int, max_int in *; nia).
  rewrite (wrap_id x) by (unfold min_int, max_int in *; nia).
  rewrite (wrap_id (y * (4 * w c))) by (unfold min_int, max_int in *; nia).
  rewrite (wrap_id (x * 4)) by (unfold min_int, max_int in *; nia).
  rewrite wrap_id by (unfold min_int, max_int in *; nia).
  ring.
Qed.

(** X6: on a buffer that has the layout of the viewport, the floor
    caster of column [x] changes no pixel of another column and no pixel
    of its own column at or above the row [drawEnd] (the height of the
    viewport when [drawEnd] is negative): the textures, the stride, the
    bounds and the length of the buffer stay as they are, and the four
    bytes of every such pixel are as before.  The floor casters of
    different columns therefore write to different bytes. *)
Theorem castFloor_draws_below_the_wall_only (indefinite : float -> Z)
    (c : Camera) (horLvl horLvl' : HorLevel) (x side mapX mapY : Z)
    (rayDirX rayDirY wallX perpWallDist : float) (drawEnd : Z)
    (Hbuf : viewportBuffer c (HorBuffer horLvl))
    (Hx : 0 <= x < w c) (HdrawEnd : drawEnd <= max_int)
    (Hrun : castFloor indefinite c horLvl x side mapX mapY rayDirX rayDirY
              wallX perpWallDist drawEnd = Ok horLvl') :
  TexRGBA horLvl' = TexRGBA horLvl
  /\ Stride (HorBuffer horLvl') = Stride (HorBuffer horLvl)
  /\ Rect (HorBuffer horLvl') = Rect (HorBuffer horLvl)
  /\ length (Pix (HorBuffer horLvl')) = length (Pix (HorBuffer horLvl))
  /\ forall x' y', 0 <= x' < w c -> 0 <= y' < h c ->
       x' <> x \/ y' <= (if drawEnd <? 0 then h c else drawEnd) ->
       samePixel (w c) (Pix (HorBuffer horLvl)) (Pix (HorBuffer horLvl')) x' y'.
Proof.
  unfold castFloor in Hrun.
  destruct (floorWall side mapX mapY rayDirX rayDirY wallX)
    as [floorXWall floorYWall].
  apply bind_Ok in Hrun as (pix & Hloop & [= <-]). simpl.
  repeat (split; [reflexivity |]).
  pose proof (forEach_invariant
                (floorPixel indefinite c horLvl x floorXWall floorYWall
                   perpWallDist)
                (floorInv c (HorBuffer horLvl) x (Pix (HorBuffer horLvl)))
                (fun _ => True) (range (floorStart c drawEnd) (h c))
                (fun done s y s' _ =>
                   floorPixel_inv indefinite c horLvl x floorXWall floorYWall
                     perpWallDist done s s' y)
                ltac:(apply Forall_forall; auto) [] (Pix (HorBuffer horLvl)) pix)
    as Hinv.
  destruct Hinv as (Hlen & Hpos & Hframe); [| exact Hloop |].
  { split; [reflexivity |]. split; [intros y Hy; inversion Hy | auto]. }
  simpl in Hpos, Hframe.
  split; [exact Hlen |].
  intros x' y' Hx' Hy' Hout k Hk.
  pose proof Hbuf as (_ & _ & _ & Hw & Hsize).
  apply Hframe; [nia |].
  intros y k' Hy Hk'. pose proof (Hpos y Hy) as Hy0.
  apply elem_of_range in Hy.
  rewrite (PixOffset_viewport c _ x y Hbuf Hx) by lia.
  assert (Hstart : (if drawEnd <? 0 then h c else drawEnd) < y).
  { unfold floorStart in Hy, Hpos. cbv zeta in Hy, Hpos.
    assert (Hd : 0 <= (if drawEnd <? 0 then h c else drawEnd) <= max_int).
    { unfold max_int in *. destruct (Z.ltb_spec drawEnd 0); nia. }
    destruct (if drawEnd <? 0 then h c else drawEnd) as [| d | d] eqn:Hdef;
      try lia.
    - unfold int_add in Hy.
      rewrite wrap_id in Hy by (unfold min_int, max_int in *; lia). lia.
    - destruct (Z_le_gt_dec (Z.pos d + 1) max_int) as [Hle | Hgt].
      + unfold int_add in Hy.
        rewrite wrap_id in Hy by (unfold min_int, max_int in *; lia). lia.
      + exfalso. assert (Hmax : Z.pos d = max_int) by lia.
        rewrite Hmax in Hy, Hpos.
        assert (Hmin : int_add max_int 1 = min_int) by reflexivity.
        rewrite Hmin in Hy, Hpos.
        assert (Hin : min_int ∈ range min_int (h c))
          by (apply elem_of_range; lia).
        apply Hpos in Hin. unfold min_int in Hin. lia. }
  intros Heq.
  assert (y' * w c + x' = y * w c + x /\ k = k') as [Heq' _] by lia.
  assert (y' = y) by nia. subst y'. lia.
Qed.

Lemma castFloor_draws_below_the_wall_only_witness :
  exists horLvl',
    castFloor indefinite_amd64 (spriteScene 3 6.5 4.5) floorLevel
      2 0 7 4 1 0 0.5 3 3 = Ok horLvl'
    /\ viewportBuffer (spriteScene 3 6.5 4.5) (HorBuffer floorLevel)
    /\ Pix (HorBuffer horLvl') !! 168%nat = Some 199
    /\ samePixel 8 (Pix (HorBuffer floorLevel)) (Pix (HorBuffer horLvl')) 2 3
    /\ samePixel 8 (Pix (HorBuffer floorLevel)) (Pix (HorBuffer horLvl')) 3 5.
Proof.
  eexists. split; [vm_compute; reflexivity |].
  assert (Hbuf : viewportBuffer (spriteScene 3 6.5 4.5) (HorBuffer floorLevel)).
  { repeat split; vm_compute; congruence. }
  split; [exact Hbuf |]. split; [vm_compute; reflexivity |].
  split;
    refine (proj2 (proj2 (proj2 (proj2
      (castFloor_draws_below_the_wall_only indefinite_amd64
         (spriteScene 3 6.5 4.5) floorLevel _ 2 0 7 4 1 0 0.5 3 3
         Hbuf ltac:(simpl; lia) ltac:(vm_compute; congruence)
         ltac:(vm_compute; reflexivity))))) _ _ _ _ _);
    simpl; lia.
Defined.

(** ** The colours of the floor *)

(** The product of two bytes divided by 256 is computed exactly in
    binary64: checked for each of the 65536 pairs. *)
Lemma scale_table indefinite :
  let tbl := map (fun z => (z, float_of_int z)) (range 0 256) in
  forallb (fun '(r, fr) => forallb (fun '(st, fs) =>
     uint8 indefinite (fr * fs / 256)%float =? r * st / 256)
     tbl) tbl = true.
Proof. vm_compute. reflexivity. Qed.

Lemma scale_byte indefinite (r st : Z) :
  0 <= r <= 255 -> 0 <= st <= 255 ->
  uint8 indefinite (float_of_int r * float_of_int st / 256)%float
  = r * st / 256.
Proof.
  intros Hr Hst. pose proof (scale_table indefinite) as H. cbv zeta in H.
  assert (Hin : forall z, 0 <= z <= 255 ->
            In (z, float_of_int z)
               (map (fun z => (z, float_of_int z)) (range 0 256))).
  { intros z Hz. apply in_map_iff. exists z. split; [reflexivity |].
    apply list_elem_of_In, elem_of_range. lia. }
  rewrite forallb_forall in H.
  specialize (H (r, float_of_int r) (Hin r Hr)). cbv beta iota in H.
  rewrite forallb_forall in H.
  specialize (H (st, float_of_int st) (Hin st Hst)). cbv beta iota in H.
  apply Z.eqb_eq, H.
Qed.

Lemma store4_values (pix pix' : list Z) (p r g b a : Z) :
  p <= max_int ->
  (pix1 ← store pix p r;
   pix2 ← store pix1 (int_add p 1) g;
   pix3 ← store pix2 (int_add p 2) b;
   store pix3 (int_add p 3) a) = Ok pix' ->
  0 <= p
  /\ pix' !! Z.to_nat p = Some r
  /\ pix' !! Z.to_nat (p + 1) = Some g
  /\ pix' !! Z.to_nat (p + 2) = Some b
  /\ pix' !! Z.to_nat (p + 3) = Some a.
Proof.
  intros Hp H.
  apply bind_Ok in H as (pix1 & H1 & H).
  apply bind_Ok in H as (pix2 & H2 & H).
  apply bind_Ok in H as (pix3 & H3 & H4).
  apply store_inv in H1 as [R1 ->]. apply store_inv in H2 as [R2 ->].
  apply store_inv in H3 as [R3 ->]. apply store_inv in H4 as [R4 ->].
  rewrite !length_insert in *.
  rewrite (int_add_small p 1) in * by lia.
  rewrite (int_add_small p 2) in * by lia.
  rewrite (int_add_small p 3) in * by lia.
  split; [lia |]. repeat split.
  - rewrite !list_lookup_insert_ne by lia.
    apply list_lookup_insert_eq. lia.
  - rewrite !list_lookup_insert_ne by lia.
    apply list_lookup_insert_eq. rewrite ?length_insert. lia.
  - rewrite !list_lookup_insert_ne by lia.
    apply list_lookup_insert_eq. rewrite ?length_insert. lia.
  - apply list_lookup_insert_eq. rewrite ?length_insert. lia.
Qed.

(** X7: the colour the floor caster writes for the row [y].  With a
    floor texture that holds bytes, the pixel [(x, y)] of the buffer gets
    the red, green and blue of the texel, each multiplied by the light of
    the row's distance (a value between 0 and 255) and divided by 256,
    rounded down: the binary64 computation is exact here.  So no channel
    gets brighter than the texel's; alpha is copied. *)
Theorem floorPixel_scales_the_texel (indefinite : float -> Z) (c : Camera)
    (horLvl : HorLevel) (x y : Z) (floorXWall floorYWall distWall : float)
    (pix pix' : list Z) (tex : RGBAImage)
    (Htex : TexRGBA horLvl !! 0%nat = Some tex)
    (Hbytes : Forall (fun v => 0 <= v <= 255) (Pix tex))
    (Hrun : floorPixel indefinite c horLvl x floorXWall floorYWall distWall
              pix y = Ok pix') :
  exists currentDist t r g b a,
    index (camY c) y = Ok currentDist
    /\ texelAt tex t r g b a
    /\ let light := shade indefinite 255 currentDist in
       let o := PixOffset (HorBuffer horLvl) x y in
       0 <= light <= 255 /\ 0 <= o
       /\ pix' !! Z.to_nat o = Some (r * light / 256)
       /\ pix' !! Z.to_nat (o + 1) = Some (g * light / 256)
       /\ pix' !! Z.to_nat (o + 2) = Some (b * light / 256)
       /\ pix' !! Z.to_nat (o + 3) = Some a
       /\ r * light / 256 <= r /\ g * light / 256 <= g
       /\ b * light / 256 <= b.
Proof.
  unfold floorPixel in Hrun.
  apply bind_Ok in Hrun as (currentDist & Hcd & H).
  apply bind_Ok in H as (floorTexX & _ & H).
  apply bind_Ok in H as (floorTexY & _ & H).
  apply bind_Ok in H as (floorTex & Hft & H).
  apply index_Ok in Hft as [_ Hft]. change (Z.to_nat 0) with 0%nat in Hft.
  rewrite Htex in Hft. injection Hft as <-.
  set (t := PixOffset tex floorTexX floorTexY) in *.
  assert (Ht : t <= max_int) by (unfold t, PixOffset, int_add; apply wrap_range).
  apply bind_Ok in H as (r & Hr & H).
  apply bind_Ok in H as (g & Hg & H).
  apply bind_Ok in H as (b & Hb & H).
  apply bind_Ok in H as (a & Ha & H).
  apply index_Ok in Hr as [Ht0 Hr]. apply index_Ok in Hg as [Hg0 Hg].
  apply index_Ok in Hb as [Hb0 Hb]. apply index_Ok in Ha as [Ha0 Ha].
  rewrite (int_add_small t 1) in Hg by lia.
  rewrite (int_add_small t 2) in Hb by lia.
  rewrite (int_add_small t 3) in Ha by lia.
  pose proof (shade_range indefinite 255 currentDist) as Hlight.
  assert (Hbyte : forall k v, Pix tex !! k = Some v -> 0 <= v <= 255).
  { intros k v Hk. exact (proj1 (Forall_lookup _ _) Hbytes k v Hk). }
  pose proof (Hbyte _ _ Hr). pose proof (Hbyte _ _ Hg). pose proof (Hbyte _ _ Hb).
  cbn [shadeRGBA color.R color.G color.B color.A] in H.
  rewrite !scale_byte in H by assumption.
  apply store4_values in H as (Ho & Hw0 & Hw1 & Hw2 & Hw3);
    [| unfold PixOffset, int_add; apply wrap_range].
  exists currentDist, t, r, g, b, a.
  split; [exact Hcd |]. split; [repeat split; assumption |].
  cbv zeta. set (light := shade indefinite 255 currentDist) in *.
  assert (Hdark : forall v, 0 <= v -> v * light / 256 <= v).
  { intros v Hv. apply Z.div_le_upper_bound; nia. }
  repeat split; try assumption; try lia; apply Hdark; lia.
Qed.

Lemma floorPixel_scales_the_texel_witness :
  exists pix',
    floorPixel indefinite_amd64 (spriteScene 3 6.5 4.5) floorLevel 2 7 4.5 3
      (Pix (HorBuffer floorLevel)) 5 = Ok pix'
    /\ pix' !! 168%nat = Some 199
    /\ exists currentDist t r g b a,
         index (camY (spriteScene 3 6.5 4.5)) 5 = Ok currentDist
         /\ texelAt (Build_RGBAImage (replicate 64 200) 16
                       (image.Build_Rectangle (image.Build_Point 0 0)
                                              (image.Build_Point 4 4)))
                    t r g b a
         /\ r * shade indefinite_amd64 255 currentDist / 256 <= r.
Proof.
  eexists. split; [vm_compute; reflexivity |].
  split; [vm_compute; reflexivity |].
  destruct (floorPixel_scales_the_texel indefinite_amd64
              (spriteScene 3 6.5 4.5) floorLevel 2 5 7 4.5 3
              (Pix (HorBuffer floorLevel)) _ _ eq_refl
              ltac:(apply Forall_forall; intros v Hv;
                    apply elem_of_replicate in Hv as [-> _]; lia)
              ltac:(vm_compute; reflexivity))
    as (currentDist & t & r & g & b & a & Hcd & Htexel & Hrest).
  exists currentDist, t, r, g, b, a.
  split; [exact Hcd |]. split; [exact Htexel |].
  cbv zeta in Hrest. tauto.
Defined.

(** ** The sprite caster: where the slices lie and what they hold *)

(** X8: a slice that [castSprite] leaves for the sprite lies at a
    column of the clipped bounding box, [drawStartX <= x < drawEndX], and
    so between column 1 and column [w - 2]: neither the first nor the
    last column of the viewport ever shows a sprite. *)
Theorem castSprite_skips_the_last_column :
  forall (indefinite : float -> Z)
         (SliceView MakeSlices : Z -> Z -> list image.Rectangle)
         (c c' : Camera) (spriteOrdIndex o : Z) (sp : Sprite)
         (lvl : Level) (x : Z) (r : image.Rectangle),
    index (spriteOrder c) spriteOrdIndex = Ok o ->
    index (sprite c) o = Ok sp ->
    castSprite indefinite SliceView MakeSlices c spriteOrdIndex = Ok c' ->
    spriteLvls c' !! Z.to_nat spriteOrdIndex = Some (Some lvl) ->
    0 <= x -> Cts lvl !! Z.to_nat x = Some (Some r) ->
    drawStartX (project indefinite c sp) <= x
    /\ x < drawEndX (project indefinite c sp)
    /\ 1 <= x <= w c - 2.
Proof.
  intros indefinite SliceView MakeSlices c c' i o sp lvl x r Ho Hsp Hrun Hlvl Hx Hr.
  destruct (castSprite_inv indefinite SliceView MakeSlices c i sp o c' Ho Hsp Hrun)
    as (_ & _ & _ & [(_ & l & Hl & Hfresh) | (_ & Hnil)]); [| congruence].
  rewrite Hlvl in Hl. injection Hl as <-.
  destruct (freshLevel_slice indefinite SliceView c sp _ lvl _ r Hfresh Hr)
    as (stripe & Hin & Heq & Hacc).
  apply visible_true in Hacc as (_ & Hstripe & _).
  assert (x = stripe) as -> by lia.
  apply elem_of_range in Hin.
  split; [lia |]. split; [lia |]. split; [lia |].
  destruct Hin as [_ Hend]. revert Hend.
  change (drawEndX (project indefinite c sp)) with
    (let dex := int_add (Z.quot (spriteWidth (project indefinite c sp)) 2)
                        (spriteScreenX (project indefinite c sp)) in
     if dex >=? w c then int_sub (w c) 1 else dex).
  cbv zeta. destruct (Z.geb_spec (int_add (Z.quot (spriteWidth (project indefinite c sp)) 2)
                        (spriteScreenX (project indefinite c sp))) (w c)) as [Hge | Hlt];
    [| lia].
  intros Hend. pose proof (wrap_range (w c - 1)) as Hwr.
  unfold int_sub in Hend.
  destruct (Z_le_gt_dec (w c) max_int) as [Hle | Hgt]; [| lia].
  rewrite wrap_id in Hend by (unfold min_int, max_int in *; lia). lia.
Qed.

Lemma castSprite_skips_the_last_column_witness :
  drawStartX (project indefinite_amd64 (spriteScene 18.5 6.5 4.5)
                {| sprite_pos := mkVector2 6.5 4.5;
                   GetTexture := {| ebiten.Size := (4, 4) |} |}) <= 3
  /\ 3 < drawEndX (project indefinite_amd64 (spriteScene 18.5 6.5 4.5)
                     {| sprite_pos := mkVector2 6.5 4.5;
                        GetTexture := {| ebiten.Size := (4, 4) |} |})
  /\ 1 <= 3 <= w (spriteScene 18.5 6.5 4.5) - 2.
Proof.
  eapply (castSprite_skips_the_last_column indefinite_amd64 columns columns
            (spriteScene 18.5 6.5 4.5) _ 0 0
            {| sprite_pos := mkVector2 6.5 4.5;
               GetTexture := {| ebiten.Size := (4, 4) |} |} _ 3).
  - reflexivity.
  - reflexivity.
  - vm_compute. reflexivity.
  - vm_compute. reflexivity.
  - lia.
  - vm_compute. reflexivity.
Defined.

Lemma texRow_range (c : Camera) (b : Billboard) (y t : Z) :
  texRow c b y = Ok t -> min_int < t < max_int.
Proof.
  unfold texRow. intros H. apply bind_Ok in H as (q & Hq & [= <-]).
  unfold int_div in Hq. destruct (_ =? 0); [discriminate |].
  injection Hq as <-.
  match goal with |- _ < Z.quot (wrap ?z) 256 < _ =>
    pose proof (wrap_range z) as Hr; set (q := wrap z) in * end.
  unfold min_int, max_int in *.
  split.
  - assert (- 2 ^ 63 <= 256 * Z.quot q 256 + 255).
    { pose proof (Z.quot_rem q 256 ltac:(lia)) as E.
      pose proof (Z.rem_bound_abs q 256 ltac:(lia)). lia. }
    lia.
  - assert (256 * Z.quot q 256 - 255 <= 2 ^ 63 - 1).
    { pose proof (Z.quot_rem q 256 ltac:(lia)) as E.
      pose proof (Z.rem_bound_abs q 256 ltac:(lia)). lia. }
    lia.
Qed.

Section SpriteContent.

Variable indefinite : float -> Z.
Variables SliceView MakeSlices : Z -> Z -> list image.Rectangle.
Variable c : Camera.
Variable spriteOrdIndex : Z.
Variable sp : Sprite.

Abbreviation b := (project indefinite c sp).
Abbreviation slot := (Z.to_nat spriteOrdIndex).
Abbreviation Content := (contentInv indefinite c sp spriteOrdIndex).
Abbreviation body :=
  (castStripe indefinite SliceView MakeSlices c b (GetTexture sp) spriteOrdIndex).

(** The level of an accepted stripe holds only slices of accepted
    stripes: the one in the slot does by the invariant, a new one holds
    no slice. *)
Lemma spriteLevelOf_content (s s1 : Stripes) (ol : option Level) :
  Content s ->
  spriteLevelOf SliceView MakeSlices c (GetTexture sp) spriteOrdIndex s
  = Ok (ol, s1) ->
  renderSprite s1 = true
  /\ exists l, ol = Some l /\ lvls s1 !! slot = Some (Some l)
               /\ forall x r, Cts l !! x = Some (Some r) ->
                              sliceOf indefinite c sp l x r.
Proof.
  intros HI. unfold spriteLevelOf.
  destruct (renderSprite s) eqn:Hr.
  - intros H1. apply bind_Ok in H1 as (l0 & Hl0 & [= -> <-]).
    destruct (HI Hr) as (l & Hl & Hcontent).
    apply index_Ok in Hl0 as [_ Hl0]. rewrite Hl in Hl0. injection Hl0 as <-.
    split; [exact Hr |]. eauto.
  - intros H1. apply bind_Ok in H1 as ([l ls] & Hmk & H1).
    destruct (ebiten.Size (GetTexture sp)) as [spriteW spriteH].
    injection H1 as <- <-.
    unfold makeSpriteLevel in Hmk.
    apply bind_Ok in Hmk as (cts & Hcts & Hmk).
    apply bind_Ok in Hmk as (st & Hst & Hmk).
    apply bind_Ok in Hmk as (currTex & HcurrTex & Hmk).
    apply bind_Ok in Hmk as (ls' & Hls & [= <- <-]).
    apply store_inv in Hls as [Hslot ->].
    unfold make in Hcts. destruct (Z.ltb_spec (w c) 0); [discriminate |].
    injection Hcts as <-.
    cbn [renderSprite lvls]. split; [reflexivity |].
    eexists. split; [reflexivity |].
    split; [apply list_lookup_insert_eq; lia |].
    cbn [Cts]. intros x r Hx. apply lookup_replicate in Hx as [[=] _].
Qed.

Lemma writeStripe_content (s1 s' : Stripes) (l : Level)
    (stripe texX texStartY texEndY : Z) :
  texRow c b (drawStartY b) = Ok texStartY ->
  texRow c b (int_sub (drawEndY b) 1) = Ok texEndY ->
  0 <= texStartY < texEndY -> texEndY < texWidth c ->
  renderSprite s1 = true ->
  (forall x r, Cts l !! x = Some (Some r) -> sliceOf indefinite c sp l x r) ->
  writeStripe indefinite c b (GetTexture sp) spriteOrdIndex stripe texX
    texStartY texEndY (Some l) s1 = Ok s' ->
  Content s'.
Proof.
  intros Hts Hte Hrows Hwidth Hr Hcontent.
  unfold writeStripe. cbn [deref]. intros H1.
  apply bind_Ok in H1 as (l0 & [= <-] & H1).
  apply bind_Ok in H1 as (r0 & _ & H1).
  apply bind_Ok in H1 as (slices & _ & H1).
  apply bind_Ok in H1 as (cts & Hcts & H1).
  apply bind_Ok in H1 as (currTex & HcurrTex & H1).
  apply bind_Ok in H1 as (v & _ & H1).
  apply bind_Ok in H1 as (sv & Hsv & H1).
  apply bind_Ok in H1 as (st & Hst & H1).
  apply bind_Ok in H1 as (ls & Hls & [= <-]).
  apply store_inv in Hcts as [Rcts ->]. apply store_inv in HcurrTex as [Rcurr ->].
  apply store_inv in Hsv as [Rsv ->]. apply store_inv in Hst as [Rst ->].
  apply store_inv in Hls as [Hslot ->].
  intros _. cbn [lvls]. eexists. split; [apply list_lookup_insert_eq; lia |].
  cbn [Cts]. intros x r Hx.
  destruct (decide (x = Z.to_nat stripe)) as [-> | Hne].
  - rewrite list_lookup_insert_eq in Hx by lia. injection Hx as <-.
    exists texStartY, texEndY, (setY v (int_add (drawStartY b) 1) (drawEndY b)).
    pose proof (texRow_range _ _ _ _ Hte) as Hrange.
    split; [exact Hts |]. split; [exact Hte |].
    split; [exact Hrows |]. split; [exact Hwidth |].
    split; [unfold setY; cbn [image.Y image.Min]; unfold int_add;
            apply wrap_id; unfold min_int, max_int in *; lia |].
    split; [reflexivity |]. cbn [Sv St CurrTex].
    split; [apply list_lookup_insert_eq; lia |].
    split; [apply list_lookup_insert_eq; lia |].
    split; [apply list_lookup_insert_eq; lia |].
    split; reflexivity.
  - rewrite list_lookup_insert_ne in Hx by congruence.
    destruct (Hcontent x r Hx)
      as (ts & te & v0 & A1 & A2 & A3 & A4 & A5 & A6 & A7 & A8 & A9 & A10 & A11).
    exists ts, te, v0. cbn [Sv St CurrTex].
    rewrite !list_lookup_insert_ne by congruence.
    repeat (split; [assumption |]). assumption.
Qed.

Lemma castStripe_content (s s' : Stripes) (stripe : Z) :
  Content s -> body s stripe = Ok s' -> Content s'.
Proof.
  intros HI. unfold castStripe. intros H1.
  apply bind_Ok in H1 as (ok & Hok & H1). destruct ok;
    [| injection H1 as <-; exact HI].
  apply bind_Ok in H1 as ([ol s1] & Hlvl & H1).
  destruct (spriteLevelOf_content s s1 ol HI Hlvl)
    as (Hr & l & -> & Hl & Hcontent).
  assert (HI1 : Content s1) by (intros _; eauto).
  apply bind_Ok in H1 as (texX & _ & H1).
  destruct ((texX <? 0) || (texX >=? Z.of_nat (length (spriteSlices s1))));
    [injection H1 as <-; exact HI1 |].
  apply bind_Ok in H1 as (texStartY & Hts & H1).
  apply bind_Ok in H1 as (texEndY & Hte & H1).
  destruct (Z.ltb_spec texStartY 0); cbn [orb] in H1;
    [injection H1 as <-; exact HI1 |].
  destruct (Z.geb_spec texStartY texEndY); cbn [orb] in H1;
    [injection H1 as <-; exact HI1 |].
  destruct (Z.geb_spec texEndY (texWidth c)); cbn [orb] in H1;
    [injection H1 as <-; exact HI1 |].
  eapply (writeStripe_content s1 s' l stripe texX texStartY texEndY);
    try eassumption; lia.
Qed.

End SpriteContent.

(** X9: what a slice of the sprite holds: its texture rows run from
    [texStartY + 1] to [texEndY] with [0 <= texStartY < texEndY < texWidth],
    so they are not empty and lie inside the texture; the column also
    holds the sprite's texture, the white tint lit for the depth of the
    sprite, and the screen rows [drawStartY + 1] to [drawEndY]. *)
Theorem castSprite_slice_rows_within_texture :
  forall (indefinite : float -> Z)
         (SliceView MakeSlices : Z -> Z -> list image.Rectangle)
         (c c' : Camera) (spriteOrdIndex o : Z) (sp : Sprite)
         (lvl : Level) (x : nat) (r : image.Rectangle),
    index (spriteOrder c) spriteOrdIndex = Ok o ->
    index (sprite c) o = Ok sp ->
    castSprite indefinite SliceView MakeSlices c spriteOrdIndex = Ok c' ->
    spriteLvls c' !! Z.to_nat spriteOrdIndex = Some (Some lvl) ->
    Cts lvl !! x = Some (Some r) ->
    sliceOf indefinite c sp lvl x r
    /\ 1 <= image.Y (image.Min r) <= image.Y (image.Max r)
    /\ image.Y (image.Max r) < texWidth c.
Proof.
  intros indefinite SliceView MakeSlices c c' i o sp lvl x r Ho Hsp Hrun Hlvl Hr.
  assert (Hslice : sliceOf indefinite c sp lvl x r).
  { unfold castSprite in Hrun. rewrite Ho in Hrun. cbn [mbind res_bind] in Hrun.
    rewrite Hsp in Hrun. cbn [mbind res_bind] in Hrun.
    apply bind_Ok in Hrun as (s & Hloop & Hrun).
    apply bind_Ok in Hrun as (ls & Hls & [= <-]).
    cbn [spriteLvls] in Hlvl.
    assert (Hinit : contentInv indefinite c sp i
                      {| renderSprite := false; lvls := spriteLvls c;
                         spriteSlices := [] |})
      by (intros Hfalse; discriminate Hfalse).
    pose proof (forEach_invariant
                  (castStripe indefinite SliceView MakeSlices c
                     (project indefinite c sp) (GetTexture sp) i)
                  (fun _ => contentInv indefinite c sp i) (fun _ => True)
                  (range (drawStartX (project indefinite c sp))
                         (drawEndX (project indefinite c sp)))
                  (fun done s0 y s1 _ =>
                     castStripe_content indefinite SliceView MakeSlices c i sp
                       s0 s1 y)
                  ltac:(apply Forall_forall; auto) [] _ s Hinit Hloop)
      as Hcontent.
    destruct (renderSprite s) eqn:Hrender.
    - injection Hls as <-.
      destruct (Hcontent Hrender) as (l & Hl & Hall).
      rewrite Hlvl in Hl. injection Hl as <-. exact (Hall x r Hr).
    - unfold clearSpriteLevel in Hls. apply store_inv in Hls as [Hslot ->].
      rewrite list_lookup_insert_eq in Hlvl by lia. discriminate. }
  split; [exact Hslice |].
  destruct Hslice as (ts & te & v & _ & _ & Hrows & Hwidth & Hmin & Hmax & _).
  lia.
Qed.

Lemma castSprite_slice_rows_within_texture_witness :
  exists (c' : Camera) (lvl : Level) (r : image.Rectangle),
    castSprite indefinite_amd64 columns columns (spriteScene 18.5 6.5 4.5) 0
    = Ok c'
    /\ spriteLvls c' !! 0%nat = Some (Some lvl)
    /\ Cts lvl !! 3%nat = Some (Some r)
    /\ 1 <= image.Y (image.Min r) <= image.Y (image.Max r)
    /\ image.Y (image.Max r) < 4.
Proof.
  do 3 eexists.
  split; [vm_compute; reflexivity |].
  split; [vm_compute; reflexivity |].
  split; [vm_compute; reflexivity |].
  eapply proj2,
    (castSprite_slice_rows_within_texture indefinite_amd64 columns
       columns (spriteScene 18.5 6.5 4.5) _ 0 0
       {| sprite_pos := mkVector2 6.5 4.5;
          GetTexture := {| ebiten.Size := (4, 4) |} |} _ 3%nat).
  - reflexivity.
  - reflexivity.
  - vm_compute. reflexivity.
  - vm_compute. reflexivity.
  - vm_compute. reflexivity.
Defined.

(** ** The sprite caster: passes of different sprites *)

(** A loop whose body carries a relation between states from one run
    to another: when the first run returns, so does the second, in a
    related state. *)
Lemma forEach_simulates {S} (body : S -> Z -> res S) (R : S -> S -> Prop)
    (l : list Z) :
  (forall s t x s',
      R s t -> body s x = Ok s' -> exists t', body t x = Ok t' /\ R s' t') ->
  forall s t s',
    R s t -> forEach body s l = Ok s' ->
    exists t', forEach body t l = Ok t' /\ R s' t'.
Proof.
  intros Hstep. induction l as [| x l IH]; intros s t s' HR; simpl.
  - intros [= <-]. eauto.
  - intros Hs. apply bind_Ok in Hs as (s1 & Hs1 & Hs).
    destruct (Hstep s t x s1 HR Hs1) as (t1 & Ht1 & HR1).
    rewrite Ht1. cbn [mbind res_bind]. exact (IH s1 t1 s' HR1 Hs).
Qed.

Section SpriteSlots.

Variable indefinite : float -> Z.
Variables SliceView MakeSlices : Z -> Z -> list image.Rectangle.
Variable c : Camera.
Variable spriteOrdIndex : Z.
Variable b : Billboard.
Variable tex : ebiten.Image.

Abbreviation slot := (Z.to_nat spriteOrdIndex).
Abbreviation Same := (sameStripes spriteOrdIndex).
Abbreviation body :=
  (castStripe indefinite SliceView MakeSlices c b tex spriteOrdIndex).

Lemma spriteLevelOf_same (s t s1 : Stripes) (ol : option Level) :
  Same s t ->
  spriteLevelOf SliceView MakeSlices c tex spriteOrdIndex s = Ok (ol, s1) ->
  exists t1,
    spriteLevelOf SliceView MakeSlices c tex spriteOrdIndex t = Ok (ol, t1)
    /\ Same s1 t1 /\ renderSprite s1 = true.
Proof.
  intros (Hr & Hsl & Hlen & Hslot). unfold spriteLevelOf. rewrite <- Hr.
  destruct (renderSprite s) eqn:Hrs.
  - intros H1. apply bind_Ok in H1 as (l1 & Hl1 & [= <- <-]).
    apply index_Ok in Hl1 as [Hi Hl1]. rewrite (Hslot eq_refl) in Hl1.
    exists t. rewrite (proj2 (index_Ok (lvls t) spriteOrdIndex l1)) by auto.
    split; [reflexivity |]. split; [| exact Hrs].
    split; [rewrite Hrs; exact Hr |]. split; [exact Hsl |].
    split; [exact Hlen | intros _; exact (Hslot eq_refl)].
  - intros H1.
    apply bind_Ok in H1 as ([l1 ls1] & Hmk1 & H1).
    destruct (ebiten.Size tex) as [spriteW spriteH].
    injection H1 as <- <-.
    unfold makeSpriteLevel in *. unfold make in *.
    destruct (w c <? 0); [discriminate |].
    cbn [mbind res_bind] in *.
    apply bind_Ok in Hmk1 as (ls1' & Hls1 & [= <- <-]).
    apply store_inv in Hls1 as [R1 ->].
    rewrite store_Ok by lia. cbn [mbind res_bind].
    eexists. split; [reflexivity |]. split; [| reflexivity].
    split; [reflexivity |]. split; [reflexivity |].
    cbn [lvls]. split; [rewrite !length_insert; exact Hlen |].
    intros _. rewrite !list_lookup_insert_eq by lia. reflexivity.
Qed.

Lemma writeStripe_same (s1 t1 s' : Stripes) (ol : option Level)
    (stripe texX texStartY texEndY : Z) :
  Same s1 t1 -> renderSprite s1 = true ->
  writeStripe indefinite c b tex spriteOrdIndex stripe texX texStartY texEndY
    ol s1 = Ok s' ->
  exists t',
    writeStripe indefinite c b tex spriteOrdIndex stripe texX texStartY
      texEndY ol t1 = Ok t'
    /\ Same s' t'.
Proof.
  intros (Hr & Hsl & Hlen & Hslot) Hrs. unfold writeStripe.
  rewrite <- Hr, <- Hsl.
  destruct (deref ol) as [l | |]; try discriminate. cbn [mbind res_bind].
  destruct (index (spriteSlices s1) texX) as [r |  |]; try discriminate.
  cbn [mbind res_bind].
  destruct (store (spriteSlices s1) texX _) as [slices | |]; try discriminate.
  cbn [mbind res_bind].
  destruct (store (Cts l) stripe _) as [cts | |]; try discriminate.
  cbn [mbind res_bind].
  destruct (store (CurrTex l) stripe _) as [currTex | |]; try discriminate.
  cbn [mbind res_bind].
  destruct (index (Sv l) stripe) as [v | |]; try discriminate.
  cbn [mbind res_bind].
  destruct (store (Sv l) stripe _) as [sv | |]; try discriminate.
  cbn [mbind res_bind].
  destruct (store (St l) stripe _) as [st | |]; try discriminate.
  cbn [mbind res_bind].
  intros H1.
  apply bind_Ok in H1 as (ls1 & Hls1 & [= <-]).
  apply store_inv in Hls1 as [R1 ->].
  rewrite store_Ok by lia. cbn [mbind res_bind].
  eexists. split; [reflexivity |].
  split; [reflexivity |]. split; [reflexivity |]. cbn [lvls renderSprite].
  split; [rewrite !length_insert; exact Hlen |].
  intros _. rewrite !list_lookup_insert_eq by lia. reflexivity.
Qed.

Lemma castStripe_same (s t s' : Stripes) (stripe : Z) :
  Same s t -> body s stripe = Ok s' ->
  exists t', body t stripe = Ok t' /\ Same s' t'.
Proof.
  intros HR. unfold castStripe.
  destruct (visible c b stripe) as [[|] | |]; try discriminate;
    cbn [mbind res_bind]; [| intros [= <-]; eauto].
  intros H1.
  apply bind_Ok in H1 as ([ol s1] & Hlvl1 & H1).
  destruct (spriteLevelOf_same s t s1 ol HR Hlvl1) as (t1 & -> & HR1 & Hrs).
  cbn [mbind res_bind].
  pose proof HR1 as (_ & Hsl & _). rewrite <- Hsl.
  destruct (texColumn c b stripe) as [texX | |]; try discriminate.
  cbn [mbind res_bind] in *.
  destruct ((texX <? 0) || (texX >=? Z.of_nat (length (spriteSlices s1)))).
  { injection H1 as <-. eauto. }
  destruct (texRow c b (drawStartY b)) as [texStartY | |]; try discriminate.
  cbn [mbind res_bind] in *.
  destruct (texRow c b (int_sub (drawEndY b) 1)) as [texEndY | |];
    try discriminate.
  cbn [mbind res_bind] in *.
  destruct ((texStartY <? 0) || (texStartY >=? texEndY)
            || (texEndY >=? texWidth c)).
  { injection H1 as <-. eauto. }
  exact (writeStripe_same s1 t1 s' ol stripe texX texStartY texEndY
           HR1 Hrs H1).
Qed.

End SpriteSlots.

Section SpritePasses.

Variable indefinite : float -> Z.
Variables SliceView MakeSlices : Z -> Z -> list image.Rectangle.

Abbreviation cast := (castSprite indefinite SliceView MakeSlices).

(** [castSprite] changes the sprite levels only. *)
Lemma castSprite_shape (c c' : Camera) (i : Z) :
  cast c i = Ok c' -> c' = setSpriteLvls c (spriteLvls c').
Proof.
  unfold castSprite. intros H.
  apply bind_Ok in H as (o & _ & H). apply bind_Ok in H as (sp & _ & H).
  apply bind_Ok in H as (s & _ & H). apply bind_Ok in H as (ls & _ & [= <-]).
  reflexivity.
Qed.

Lemma setSpriteLvls_id (c : Camera) : setSpriteLvls c (spriteLvls c) = c.
Proof. destruct c; reflexivity. Qed.

(** Of the sprite levels, [castSprite] changes the slot of the sprite
    only. *)
Lemma castSprite_frame (c c' : Camera) (i : Z) :
  cast c i = Ok c' ->
  0 <= i
  /\ length (spriteLvls c') = length (spriteLvls c)
  /\ forall j, j <> Z.to_nat i -> spriteLvls c' !! j = spriteLvls c !! j.
Proof.
  intros H. pose proof H as H'. unfold castSprite in H'.
  apply bind_Ok in H' as (o & Ho & H'). apply bind_Ok in H' as (sp & Hsp & _).
  destruct (castSprite_inv indefinite SliceView MakeSlices c i sp o c' Ho Hsp H)
    as (_ & Hlen & Hother & _).
  apply index_Ok in Ho as [Hi _]. auto.
Qed.

(** Whether [castSprite] returns, and what it leaves in the slot of the
    sprite, does not depend on what the slots held before. *)
Lemma castSprite_slot_independent (c c1 : Camera)
    (ls1 ls2 : list (option Level)) (i : Z) :
  length ls1 = length ls2 ->
  cast (setSpriteLvls c ls1) i = Ok c1 ->
  exists c2,
    cast (setSpriteLvls c ls2) i = Ok c2
    /\ spriteLvls c1 !! Z.to_nat i = spriteLvls c2 !! Z.to_nat i.
Proof.
  intros Hlen. unfold castSprite.
  change (spriteOrder (setSpriteLvls c ls1)) with (spriteOrder c).
  change (spriteOrder (setSpriteLvls c ls2)) with (spriteOrder c).
  change (sprite (setSpriteLvls c ls1)) with (sprite c).
  change (sprite (setSpriteLvls c ls2)) with (sprite c).
  destruct (index (spriteOrder c) i) as [o | |]; try discriminate.
  cbn [mbind res_bind].
  destruct (index (sprite c) o) as [sp | |]; try discriminate.
  cbn [mbind res_bind].
  change (project indefinite (setSpriteLvls c ls1) sp)
    with (project indefinite c sp).
  change (project indefinite (setSpriteLvls c ls2) sp)
    with (project indefinite c sp).
  set (b := project indefinite c sp).
  change (castStripe indefinite SliceView MakeSlices (setSpriteLvls c ls1))
    with (castStripe indefinite SliceView MakeSlices c).
  change (castStripe indefinite SliceView MakeSlices (setSpriteLvls c ls2))
    with (castStripe indefinite SliceView MakeSlices c).
  cbn [spriteLvls setSpriteLvls].
  intros H1.
  apply bind_Ok in H1 as (s & Hs & H1).
  apply bind_Ok in H1 as (l1 & Hl1 & [= <-]).
  cbn [spriteLvls].
  assert (Hinit : sameStripes i
            {| renderSprite := false; lvls := ls1; spriteSlices := [] |}
            {| renderSprite := false; lvls := ls2; spriteSlices := [] |}).
  { split; [reflexivity |]. split; [reflexivity |].
    split; [exact Hlen | discriminate]. }
  destruct (forEach_simulates
              (castStripe indefinite SliceView MakeSlices c b (GetTexture sp) i)
              (sameStripes i) _
              (fun s0 t0 x s1 =>
                 castStripe_same indefinite SliceView MakeSlices c i b
                   (GetTexture sp) s0 t0 s1 x)
              _ _ s Hinit Hs) as (t & -> & Hr & _ & Hlen' & Hslot).
  cbn [mbind res_bind]. rewrite <- Hr. destruct (renderSprite s).
  - injection Hl1 as <-. cbn [mbind res_bind]. eexists.
    split; [reflexivity |]. exact (Hslot eq_refl).
  - unfold clearSpriteLevel in *.
    apply store_inv in Hl1 as [R1 ->].
    rewrite store_Ok by lia. cbn [mbind res_bind]. eexists.
    split; [reflexivity |]. cbn [spriteLvls].
    rewrite !list_lookup_insert_eq by lia. reflexivity.
Qed.

End SpritePasses.

(** X10: the passes of two sprites do not interfere: when the pass of
    the sprite at [i] and then the pass of the sprite at [j <> i] return,
    so do the two passes in the other order, and with the same camera;
    each slot holds what its own pass left. *)
Theorem castSprite_passes_commute :
  forall (indefinite : float -> Z)
         (SliceView MakeSlices : Z -> Z -> list image.Rectangle)
         (c c1 c12 : Camera) (i j : Z),
    i <> j ->
    castSprite indefinite SliceView MakeSlices c i = Ok c1 ->
    castSprite indefinite SliceView MakeSlices c1 j = Ok c12 ->
    exists c2,
      castSprite indefinite SliceView MakeSlices c j = Ok c2
      /\ castSprite indefinite SliceView MakeSlices c2 i = Ok c12
      /\ spriteLvls c12 !! Z.to_nat i = spriteLvls c1 !! Z.to_nat i
      /\ spriteLvls c12 !! Z.to_nat j = spriteLvls c2 !! Z.to_nat j.
Proof.
  intros indefinite SliceView MakeSlices c c1 c12 i j Hij H1 H12.
  pose proof (castSprite_shape _ _ _ _ _ _ H1) as E1.
  pose proof (castSprite_shape _ _ _ _ _ _ H12) as E12.
  destruct (castSprite_frame _ _ _ _ _ _ H1) as (Hi & L1 & F1).
  destruct (castSprite_frame _ _ _ _ _ _ H12) as (Hj & L12 & F12).
  assert (Hne : Z.to_nat i <> Z.to_nat j) by lia.
  destruct (castSprite_slot_independent indefinite SliceView MakeSlices c
              c12 (spriteLvls c1) (spriteLvls c) j L1
              ltac:(rewrite <- E1; exact H12)) as (c2 & H2 & Sj).
  rewrite setSpriteLvls_id in H2.
  pose proof (castSprite_shape _ _ _ _ _ _ H2) as E2.
  destruct (castSprite_frame _ _ _ _ _ _ H2) as (_ & L2 & F2).
  destruct (castSprite_slot_independent indefinite SliceView MakeSlices c
              c1 (spriteLvls c) (spriteLvls c2) i (eq_sym L2)
              ltac:(rewrite setSpriteLvls_id; exact H1)) as (c21 & H21 & Si).
  rewrite <- E2 in H21.
  pose proof (castSprite_shape _ _ _ _ _ _ H21) as E21.
  destruct (castSprite_frame _ _ _ _ _ _ H21) as (_ & L21 & F21).
  assert (Hlvls : spriteLvls c12 = spriteLvls c21).
  { apply list_eq. intros k.
    destruct (decide (k = Z.to_nat i)) as [-> | Hki].
    - rewrite <- Si. apply F12. exact Hne.
    - destruct (decide (k = Z.to_nat j)) as [-> | Hkj].
      + rewrite Sj. symmetry. apply F21. congruence.
      + rewrite (F12 k Hkj), (F1 k Hki), (F21 k Hki), (F2 k Hkj). reflexivity. }
  assert (Heq : c12 = c21).
  { rewrite E12, E21, Hlvls, E1, E2. reflexivity. }
  exists c2. split; [exact H2 |]. split; [rewrite Heq; exact H21 |].
  split; [apply F12; exact Hne | exact Sj].
Qed.

Lemma castSprite_passes_commute_witness :
  exists c1 c12 c2 : Camera,
    castSprite indefinite_amd64 columns columns twoSprites 0 = Ok c1
    /\ castSprite indefinite_amd64 columns columns c1 1 = Ok c12
    /\ castSprite indefinite_amd64 columns columns twoSprites 1 = Ok c2
    /\ castSprite indefinite_amd64 columns columns c2 0 = Ok c12.
Proof.
  do 2 eexists.
  destruct (castSprite_passes_commute indefinite_amd64 columns columns
              twoSprites _ _ 0 1 ltac:(lia)
              ltac:(vm_compute; reflexivity) ltac:(vm_compute; reflexivity))
    as (c2 & H2 & H21 & _).
  exists c2.
  split; [vm_compute; reflexivity |].
  split; [vm_compute; reflexivity |].
  split; [exact H2 | exact H21].
Defined.

Lemma castSprite_pass_inv (indefinite : float -> Z)
    (SliceView MakeSlices : Z -> Z -> list image.Rectangle)
    (c : Camera) (done : list Z) (ck ck' : Camera) (x : Z) :
  x ∉ done ->
  passesInv indefinite SliceView MakeSlices c done ck ->
  castSprite indefinite SliceView MakeSlices ck x = Ok ck' ->
  passesInv indefinite SliceView MakeSlices c (done ++ [x]) ck'.
Proof.
  intros Hnew (Eck & Hlen & Hdone & Hrest) Hrun.
  pose proof (castSprite_shape _ _ _ _ _ _ Hrun) as Eck'.
  destruct (castSprite_frame _ _ _ _ _ _ Hrun) as (Hx & Hlen' & Hframe).
  destruct (castSprite_slot_independent indefinite SliceView MakeSlices c
              ck' (spriteLvls ck) (spriteLvls c) x Hlen
              ltac:(rewrite <- Eck; exact Hrun)) as (cx & Hcx & Hslot).
  rewrite setSpriteLvls_id in Hcx.
  split; [rewrite Eck' at 1; rewrite Eck; reflexivity |].
  split; [lia |]. split.
  - intros i Hi. apply elem_of_app in Hi as [Hi | Hi].
    + destruct (Hdone i Hi) as (Hi0 & ci & Hci & Hsloti).
      split; [exact Hi0 |]. exists ci. split; [exact Hci |].
      rewrite <- Hsloti. apply Hframe.
      intros E. apply Hnew. replace x with i by lia. exact Hi.
    + apply list_elem_of_singleton in Hi as ->.
      split; [exact Hx |]. exists cx. auto.
  - intros k Hk. rewrite Hframe.
    + apply Hrest. intros i Hi. apply Hk, elem_of_app. left. exact Hi.
    + apply Hk, elem_of_app. right. apply list_elem_of_singleton. reflexivity.
Qed.

(** X11: after the sprite passes of [raycast], run one after the
    other, the camera differs from the one they started from in the
    sprite levels only; the slot of each sprite holds what the pass of
    that sprite leaves when it runs alone on the starting camera, and the
    slots from [numSprites] on are as they were. *)
Theorem castSprites_each_as_if_alone :
  forall (indefinite : float -> Z)
         (SliceView MakeSlices : Z -> Z -> list image.Rectangle)
         (c c' : Camera) (numSprites : Z),
    castSprites indefinite SliceView MakeSlices c numSprites = Ok c' ->
    c' = setSpriteLvls c (spriteLvls c')
    /\ length (spriteLvls c') = length (spriteLvls c)
    /\ (forall i, 0 <= i < numSprites ->
          exists ci,
            castSprite indefinite SliceView MakeSlices c i = Ok ci
            /\ spriteLvls c' !! Z.to_nat i = spriteLvls ci !! Z.to_nat i)
    /\ forall k, numSprites <= Z.of_nat k ->
                 spriteLvls c' !! k = spriteLvls c !! k.
Proof.
  intros indefinite SliceView MakeSlices c c' n Hrun. unfold castSprites in Hrun.
  assert (Hinit : passesInv indefinite SliceView MakeSlices c [] c).
  { split; [symmetry; apply setSpriteLvls_id |]. split; [reflexivity |].
    split; [intros i Hi; inversion Hi | reflexivity]. }
  assert (Hfresh : forall x : Z, x ∈ range 0 n -> x ∉ []).
  { intros x _ Hx. inversion Hx. }
  pose proof (forEach_invariant_fresh
                (castSprite indefinite SliceView MakeSlices)
                (passesInv indefinite SliceView MakeSlices c)
                (fun _ => True) (range 0 n)
                (fun done s x s' _ Hnew =>
                   castSprite_pass_inv indefinite SliceView MakeSlices c
                     done s s' x Hnew)
                ltac:(apply Forall_forall; auto)
                (range_NoDup 0 n) [] c c' Hfresh Hinit Hrun)
    as (Ec' & Hlen & Hdone & Hrest).
  simpl in Hdone, Hrest.
  split; [exact Ec' |]. split; [exact Hlen |]. split.
  - intros i Hi. apply (Hdone i). apply elem_of_range. lia.
  - intros k Hk. apply Hrest. intros i Hi. apply elem_of_range in Hi. lia.
Qed.

Lemma castSprites_each_as_if_alone_witness :
  exists c' c0 c1 : Camera,
    castSprites indefinite_amd64 columns columns twoSprites 2 = Ok c'
    /\ castSprite indefinite_amd64 columns columns twoSprites 0 = Ok c0
    /\ spriteLvls c' !! 0%nat = spriteLvls c0 !! 0%nat
    /\ castSprite indefinite_amd64 columns columns twoSprites 1 = Ok c1
    /\ spriteLvls c' !! 1%nat = spriteLvls c1 !! 1%nat.
Proof.
  eexists.
  destruct (castSprites_each_as_if_alone indefinite_amd64 columns columns
              twoSprites _ 2 ltac:(vm_compute; reflexivity))
    as (_ & _ & Halone & _).
  destruct (Halone 0 ltac:(lia)) as (c0 & H0 & S0).
  destruct (Halone 1 ltac:(lia)) as (c1 & H1 & S1).
  exists c0, c1. split; [vm_compute; reflexivity |]. auto.
Defined.

(** ** The sprite sorter on slices in order *)

(** A loop whose body leaves the state as it is. *)
Lemma forEach_idle {S} (body : S -> Z -> res S) (s : S) (l : list Z) :
  (forall x, x ∈ l -> body s x = Ok s) -> forEach body s l = Ok s.
Proof.
  induction l as [| x l IH]; intros Hbody; simpl; [reflexivity |].
  rewrite (Hbody x) by left. cbn [mbind res_bind].
  apply IH. intros y Hy. apply Hbody. right. exact Hy.
Qed.

(** A pass over slices without an ascent exchanges nothing. *)
Lemma pass_idle (n : nat) (gap : Z) (order : list Z) (dist : list float) :
  Z.of_nat n <= max_int -> 1 <= gap <= max_int ->
  length order = n -> length dist = n -> noAscent dist ->
  forEach (combCompare gap) (order, dist, false)
    (range 0 (int_sub (Z.of_nat n) gap)) = Ok (order, dist, false).
Proof.
  intros Hn Hgap Ho Hd Hsorted.
  assert (Hsub : int_sub (Z.of_nat n) gap = Z.of_nat n - gap).
  { apply wrap_id. unfold min_int, max_int in *. lia. }
  rewrite Hsub. apply forEach_idle. intros i Hi. apply elem_of_range in Hi.
  destruct (combCompare_cases n Hn gap Hgap order dist false i Ho Hd Hi)
    as (a & b & oi & oj & Ha & Hb & _ & _ & ->).
  rewrite (Hsorted (Z.to_nat i) (Z.to_nat (i + gap)) a b ltac:(lia) Ha Hb).
  reflexivity.
Qed.

Lemma combLoop_idle (n : nat) (order : list Z) (dist : list float) (m : nat) :
  Z.of_nat n <= max_int ->
  length order = n -> length dist = n -> noAscent dist ->
  forall gap, (Z.to_nat gap <= m)%nat -> gap <= max_int ->
    forall fuel, (m <= fuel)%nat ->
      combLoop fuel (Z.of_nat n) gap false order dist = Ok (order, dist).
Proof.
  intros Hn Ho Hd Hsorted.
  induction m as [| m IH]; intros gap Hm Hgap fuel Hfuel.
  - apply combLoop_exit. destruct (Z.gtb_spec gap 1); [lia | reflexivity].
  - destruct (Z.gtb_spec gap 1) as [Hbig | Hsmall];
      [| apply combLoop_exit; destruct (Z.gtb_spec gap 1); [lia | reflexivity]].
    destruct fuel as [| fuel]; [lia |].
    rewrite combLoop_S by (destruct (Z.gtb_spec gap 1); [reflexivity | lia]).
    pose proof (nextGap_lower gap). pose proof (nextGap_upper gap).
    pose proof (nextGap_shrinks gap ltac:(lia)).
    rewrite (pass_idle n (nextGap gap) order dist Hn ltac:(lia) Ho Hd Hsorted).
    cbn [mbind res_bind]. apply IH; lia.
Qed.

(** X12: slices in which no distance is smaller than a later one (a
    NaN is in order wherever it stands) come back from [combSort] as they
    went in, sprites of equal distance in the order they had; as many
    passes as there are entries are enough. *)
Theorem combSort_keeps_descending_input :
  forall (order : list Z) (dist : list float),
    length order = length dist -> Z.of_nat (length dist) <= max_int ->
    noAscent dist ->
    forall fuel, (length dist <= fuel)%nat ->
      combSort order dist (Z.of_nat (length dist)) fuel = Ok (order, dist).
Proof.
  intros order dist Ho Hint Hsorted fuel Hfuel. unfold combSort.
  apply (combLoop_idle (length dist) order dist (length dist));
    auto; lia.
Qed.

Lemma combSort_keeps_descending_input_witness :
  noAscent [3; nan; 3; 1]%float
  /\ combSort [7; 8; 9; 10] [3; nan; 3; 1]%float 4 4
     = Ok ([7; 8; 9; 10], [3; nan; 3; 1]%float).
Proof.
  assert (H : noAscent [3; nan; 3; 1]%float).
  { intros i j a b Hij Ha Hb.
    destruct i as [| [| [| [| i]]]]; try discriminate;
      destruct j as [| [| [| [| j]]]]; try discriminate; try lia;
      injection Ha as <-; injection Hb as <-; reflexivity. }
  split; [exact H |].
  apply (combSort_keeps_descending_input [7; 8; 9; 10] [3; nan; 3; 1]%float
           eq_refl ltac:(vm_compute; discriminate) H 4%nat ltac:(simpl; lia)).
Defined.

(** ** Slices shorter than [amount] *)

(** A loop panics when its body panics at one of the values, whatever
    the state then is, and never runs out of fuel before. *)
Lemma forEach_panics {S} (body : S -> Z -> res S) (P : S -> Prop)
    (l : list Z) (x : Z) :
  (forall s y s', P s -> body s y = Ok s' -> P s') ->
  (forall s y, P s -> body s y <> OutOfFuel) ->
  (forall s, P s -> body s x = Panic) ->
  x ∈ l -> forall s, P s -> forEach body s l = Panic.
Proof.
  intros Hkeep Hfuel Hx. induction l as [| y l IH]; intros Hin s Hs.
  - inversion Hin.
  - simpl. destruct (decide (y = x)) as [-> | Hne].
    + rewrite (Hx s Hs). reflexivity.
    + destruct (body s y) as [s' | |] eqn:Hy.
      * cbn [mbind res_bind]. apply IH; [| exact (Hkeep s y s' Hs Hy)].
        apply elem_of_cons in Hin as [-> | Hin]; [contradiction | exact Hin].
      * reflexivity.
      * exfalso. exact (Hfuel s y Hs Hy).
Qed.

Lemma index_fuel {A} (l : list A) (i : Z) : index l i <> OutOfFuel.
Proof.
  unfold index. destruct (i <? 0); [discriminate |].
  destruct (l !! Z.to_nat i); discriminate.
Qed.

Lemma store_fuel {A} (l : list A) (i : Z) (a : A) : store l i a <> OutOfFuel.
Proof.
  unfold store. destruct (i <? 0); [discriminate |].
  destruct (i <? Z.of_nat (length l)); discriminate.
Qed.

Lemma bind_fuel {A B} (r : res A) (k : A -> res B) :
  r <> OutOfFuel -> (forall a, k a <> OutOfFuel) -> r ≫= k <> OutOfFuel.
Proof. destruct r; simpl; auto. Qed.

Lemma combCompare_fuel (gap : Z) (s : list Z * list float * bool) (i : Z) :
  combCompare gap s i <> OutOfFuel.
Proof.
  destruct s as [[order dist] swapped]. unfold combCompare.
  apply bind_fuel; [apply index_fuel | intros di].
  apply bind_fuel; [apply index_fuel | intros dj].
  destruct (di <? dj)%float; [| discriminate].
  apply bind_fuel; [apply store_fuel | intros d1].
  apply bind_fuel; [apply store_fuel | intros d2].
  apply bind_fuel; [apply index_fuel | intros oi].
  apply bind_fuel; [apply index_fuel | intros oj].
  apply bind_fuel; [apply store_fuel | intros o1].
  apply bind_fuel; [apply store_fuel | intros o2].
  discriminate.
Qed.

Lemma combCompare_length (gap : Z) (s s' : list Z * list float * bool)
    (i : Z) :
  combCompare gap s i = Ok s' ->
  length (snd (fst s')) = length (snd (fst s)).
Proof.
  destruct s as [[order dist] swapped]. unfold combCompare. intros H.
  apply bind_Ok in H as (di & _ & H). apply bind_Ok in H as (dj & _ & H).
  destruct (di <? dj)%float; [| injection H as <-; reflexivity].
  apply bind_Ok in H as (d1 & H1 & H). apply bind_Ok in H as (d2 & H2 & H).
  apply bind_Ok in H as (oi & _ & H). apply bind_Ok in H as (oj & _ & H).
  apply bind_Ok in H as (o1 & _ & H). apply bind_Ok in H as (o2 & _ & [= <-]).
  apply store_inv in H1 as [_ ->]. apply store_inv in H2 as [_ ->].
  simpl. rewrite !length_insert. reflexivity.
Qed.

(** X13: [combSort] relies on [amount] being at most the length of
    the distance slice: for an [amount] of 2 or more above that length the
    first pass reads past the end of the slice, and the call panics. *)
Theorem combSort_panics_on_short_distances :
  forall (order : list Z) (dist : list float) (amount : Z) (fuel : nat),
    2 <= amount <= max_int -> Z.of_nat (length dist) < amount ->
    combSort order dist amount (S fuel) = Panic.
Proof.
  intros order dist amount fuel Hamount Hshort. unfold combSort.
  rewrite combLoop_S by (destruct (Z.gtb_spec amount 1); [reflexivity | lia]).
  pose proof (nextGap_lower amount). pose proof (nextGap_upper amount).
  pose proof (nextGap_shrinks amount ltac:(lia)).
  set (gap := nextGap amount) in *.
  assert (Hsub : int_sub amount gap = amount - gap).
  { apply wrap_id. unfold min_int, max_int in *. lia. }
  rewrite Hsub.
  rewrite (forEach_panics (combCompare gap)
             (fun s => length (snd (fst s)) = length dist)
             (range 0 (amount - gap)) (amount - gap - 1)); [reflexivity | ..].
  - intros s y s' Hs Hy. rewrite (combCompare_length gap s s' y Hy). exact Hs.
  - intros s y _. apply combCompare_fuel.
  - intros [[o d] sw] Hd. simpl in Hd. unfold combCompare.
    destruct (index d (amount - gap - 1)) as [di | |] eqn:Hdi;
      [| reflexivity | exfalso; exact (index_fuel _ _ Hdi)].
    cbn [mbind res_bind].
    assert (Hj : int_add (amount - gap - 1) gap = amount - 1).
    { unfold int_add. replace (amount - gap - 1 + gap) with (amount - 1) by lia.
      apply wrap_id. unfold min_int, max_int in *. lia. }
    rewrite Hj.
    destruct (index d (amount - 1)) as [dj | |] eqn:Hdj;
      [| reflexivity | exfalso; exact (index_fuel _ _ Hdj)].
    apply index_Ok in Hdj as [_ Hdj]. apply lookup_lt_Some in Hdj. lia.
  - apply elem_of_range. lia.
  - reflexivity.
Qed.

Lemma combSort_panics_on_short_distances_witness :
  combSort [0; 1; 2] [1; 2]%float 3 (S 0) = Panic.
Proof.
  apply (combSort_panics_on_short_distances [0; 1; 2] [1; 2]%float 3 0%nat).
  - unfold max_int. lia.
  - simpl. lia.
Defined.

(** ** Sorting the sprites *)

Section SortSprites.

Variable c : Camera.
Variable n : nat.
Hypothesis sprites_n : length (sprite c) = n.

Lemma sortEntry_inv (done : list Z) (s s' : list Z * list float) (i : Z) :
  0 <= i < Z.of_nat n -> i ∉ done ->
  entriesInv c n done s -> sortEntry c s i = Ok s' ->
  entriesInv c n (done ++ [i]) s'.
Proof.
  destruct s as [order dist]. intros Hi Hnew (Ho & Hd & Hpos & Hdone).
  unfold sortEntry. intros H.
  apply bind_Ok in H as (order' & Horder & H).
  apply bind_Ok in H as (sp & Hsp & H).
  apply bind_Ok in H as (dist' & Hdist & [= <-]).
  apply store_inv in Horder as [Ro ->]. apply store_inv in Hdist as [Rd ->].
  apply index_Ok in Hsp as [_ Hsp].
  split; [rewrite length_insert; exact Ho |].
  split; [rewrite length_insert; exact Hd |]. split.
  - intros k Hk. apply elem_of_app in Hk as [Hk | Hk]; [auto |].
    apply list_elem_of_singleton in Hk as ->. lia.
  - intros k Hk. apply elem_of_app in Hk as [Hk | Hk].
    + destruct (Hdone k Hk) as (Hko & sp' & Hsp' & Hkd).
      pose proof (Hpos k Hk).
      assert (Z.to_nat i <> Z.to_nat k) by (intros E; apply Hnew;
        replace i with k by lia; exact Hk).
      rewrite !list_lookup_insert_ne by assumption. eauto.
    + apply list_elem_of_singleton in Hk as ->.
      rewrite !list_lookup_insert_eq by lia.
      split; [reflexivity |]. eauto.
Qed.

Lemma sortEntry_returns (done : list Z) (s : list Z * list float) (i : Z) :
  0 <= i < Z.of_nat n -> entriesInv c n done s ->
  exists s', sortEntry c s i = Ok s'.
Proof.
  destruct s as [order dist]. intros Hi (Ho & Hd & _).
  unfold sortEntry. rewrite store_Ok by lia. cbn [mbind res_bind].
  destruct (index_in_range (sprite c) i ltac:(lia)) as [sp ->].
  cbn [mbind res_bind]. rewrite store_Ok by lia. cbn [mbind res_bind]. eauto.
Qed.

(** The filling loop: position [i] holds the sprite [i] and its squared
    distance. *)
Lemma sortEntries_spec :
  length (spriteOrder c) = n -> length (spriteDistance c) = n ->
  exists order dist,
    forEach (sortEntry c) (spriteOrder c, spriteDistance c)
      (range 0 (Z.of_nat n)) = Ok (order, dist)
    /\ order = range 0 (Z.of_nat n)
    /\ dist = map (sqDistance c) (sprite c).
Proof.
  intros Ho Hd.
  set (Q := fun i => 0 <= i < Z.of_nat n).
  assert (HQ : Forall Q (range 0 (Z.of_nat n))).
  { apply Forall_forall. intros x Hx. apply elem_of_range in Hx. exact Hx. }
  assert (Hinit : entriesInv c n [] (spriteOrder c, spriteDistance c)).
  { split; [exact Ho |]. split; [exact Hd |].
    split; intros i Hi; inversion Hi. }
  assert (Hfresh : forall x : Z, x ∈ range 0 (Z.of_nat n) -> x ∉ []).
  { intros x _ Hx. inversion Hx. }
  destruct (forEach_returns_fresh (sortEntry c) (entriesInv c n) Q _
              (fun done s x s' Hx => sortEntry_inv done s s' x Hx)
              (fun done s x Hx => sortEntry_returns done s x Hx)
              HQ (range_NoDup 0 (Z.of_nat n)) [] _ Hfresh Hinit)
    as [[order dist] Hrun].
  pose proof (forEach_invariant_fresh (sortEntry c) (entriesInv c n) Q _
                (fun done s x s' Hx => sortEntry_inv done s s' x Hx)
                HQ (range_NoDup 0 (Z.of_nat n)) [] _ _ Hfresh Hinit Hrun)
    as (Ho' & Hd' & _ & Hall).
  simpl in Hall.
  exists order, dist. split; [exact Hrun |]. split.
  - apply list_eq. intros k.
    destruct (decide (k < n)%nat) as [Hk | Hk].
    + destruct (Hall (Z.of_nat k)) as [Hok _]; [apply elem_of_range; lia |].
      rewrite Nat2Z.id in Hok. rewrite Hok. symmetry.
      apply range_lookup. lia.
    + rewrite !lookup_ge_None_2; [reflexivity | |].
      * rewrite range_length. lia.
      * lia.
  - apply list_eq. intros k. rewrite list_lookup_fmap.
    destruct (decide (k < n)%nat) as [Hk | Hk].
    + destruct (Hall (Z.of_nat k)) as (_ & sp & Hsp & Hkd);
        [apply elem_of_range; lia |].
      rewrite Nat2Z.id in Hsp, Hkd. rewrite Hkd, Hsp. reflexivity.
    + rewrite !lookup_ge_None_2; [reflexivity | |]; lia.
Qed.

End SortSprites.

(** X14: the sorting step of [raycast], on a camera whose order and
    distance slices are as long as the list of sprites: it returns and
    changes the two slices only; the order slice is then a permutation of
    the sprite indices [0 .. n-1], the distance at each position is the
    squared distance of the sprite the order slice names there, which is
    a sprite of the list, and no distance is followed by a larger one. *)
Theorem sortSprites_orders_the_sprites :
  forall (c : Camera),
    length (spriteOrder c) = length (sprite c) ->
    length (spriteDistance c) = length (sprite c) ->
    Z.of_nat (length (sprite c)) <= max_int ->
    exists fuel0, forall fuel, (fuel0 <= fuel)%nat ->
      exists c',
        sortSprites c (Z.of_nat (length (sprite c))) fuel = Ok c'
        /\ c' = setSpriteOrder c (spriteOrder c') (spriteDistance c')
        /\ spriteOrder c' ≡ₚ range 0 (Z.of_nat (length (sprite c)))
        /\ (forall k o, spriteOrder c' !! k = Some o ->
              exists sp, index (sprite c) o = Ok sp
                         /\ spriteDistance c' !! k = Some (sqDistance c sp))
        /\ adjSorted (spriteDistance c').
Proof.
  intros c Ho Hd Hint. set (n := length (sprite c)) in *.
  destruct (sortEntries_spec c n eq_refl Ho Hd)
    as (order & dist & Hfill & Horder & Hdist).
  assert (Hdn : length dist = n) by (rewrite Hdist, length_map; reflexivity).
  assert (Hon : length order = length dist).
  { rewrite Hdn, Horder, range_length. lia. }
  destruct (combSort_returns order dist Hon ltac:(lia)) as [fuel0 Hfuel0].
  exists fuel0. intros fuel Hfuel.
  destruct (Hfuel0 fuel Hfuel)
    as (order' & dist' & Hrun & (Ho' & Hd' & Hperm) & Hadj).
  rewrite Hdn in Hrun.
  exists (setSpriteOrder c order' dist').
  split; [unfold sortSprites; rewrite Hfill; cbn [mbind res_bind];
          rewrite Hrun; reflexivity |].
  split; [reflexivity |]. cbn [spriteOrder spriteDistance setSpriteOrder].
  split; [| split; [| exact Hadj]].
  - rewrite <- Horder.
    rewrite <- (fst_zip order' dist'), <- (fst_zip order dist) by lia.
    rewrite Hperm. reflexivity.
  - intros k o Hk.
    destruct (lookup_lt_is_Some_2 dist' k) as [d Hkd];
      [apply lookup_lt_Some in Hk; lia |].
    assert (Hin : (o, d) ∈ zip order' dist').
    { apply (list_elem_of_lookup_2 _ k). apply lookup_zip_with_Some.
      exists o, d. auto. }
    rewrite Hperm in Hin. apply list_elem_of_lookup in Hin as [i Hi].
    apply lookup_zip_with_Some in Hi as (o1 & d1 & [= <- <-] & Hio & Hid).
    rewrite Horder in Hio. apply range_lookup in Hio as [-> Hi].
    rewrite Hdist, list_lookup_fmap in Hid.
    destruct (sprite c !! i) as [sp |] eqn:Hsp; [| discriminate].
    injection Hid as <-. exists sp. split; [| exact Hkd].
    apply index_Ok. split; [lia |].
    replace (Z.to_nat (0 + Z.of_nat i)) with i by lia. exact Hsp.
Qed.

Lemma sortSprites_orders_the_sprites_witness :
  exists fuel0, forall fuel, (fuel0 <= fuel)%nat ->
    exists c',
      sortSprites (setSpriteOrder twoSprites [5; 5] [0; 0]%float) 2 fuel
      = Ok c'
      /\ spriteOrder c' ≡ₚ [0; 1].
Proof.
  destruct (sortSprites_orders_the_sprites
              (setSpriteOrder twoSprites [5; 5] [0; 0]%float)
              eq_refl eq_refl ltac:(vm_compute; discriminate))
    as [fuel0 H].
  exists fuel0. intros fuel Hfuel.
  destruct (H fuel Hfuel) as (c' & Hrun & _ & Hperm & _).
  exists c'. split; [exact Hrun | exact Hperm].
Defined.
